(** * glibc_version_header_gen: symbol tables, version windows and header synthesis

    A shallow embedding of [glibc_version_header_gen.py].  Python [str] values
    are byte strings ([string]), ordered as Python orders them (by code unit);
    a [dict] from names to version strings is a [gmap string string], a [set]
    of names a [gset string]; [int] is [Z].  What the script reads from the
    file system and from [readelf] is passed in as data, what it raises is a
    value of [exn]. *)

From Stdlib Require Import ZArith Ascii String.
From stdpp Require Import base option list gmap sets strings sorting pretty.

Local Open Scope Z_scope.
#[local] Set Warnings "-clear-no-such-hyp".

(** ** Exceptions *)

Inductive exn :=
| InvalidVersion (args : list Z)           (* Exception("invalid version: ...") *)
| ValueError                               (* sym, ver = line.split("@@") with a wrong count *)
| DuplicateVersions (dupes : list string)  (* Exception("duplicate incompatible ...") *)
| CalledProcessError (cmd : list string).  (* check_call, check_output: a non-zero exit *)

Inductive result (A : Type) :=
| Ok (a : A)
| Raise (e : exn).
Arguments Ok {A} a.
Arguments Raise {A} e.

(** Sequencing: an exception skips what follows ([x ← m; k] is stdpp's
    notation for [mbind]). *)
Global Instance result_bind : MBind result := λ A B k m,
  match m with
  | Ok a => k a
  | Raise e => Raise e
  end.

(** A [for] loop whose body may raise: the first exception ends the loop. *)
Fixpoint for_each {A S} (body : S → A → result S) (st : S) (xs : list A) : result S :=
  match xs with
  | [] => Ok st
  | x :: xs' => st' ← body st x; for_each body st' xs'
  end.

(** ** Strings *)

Module Str.

(** The characters that cannot be typed inside a literal. *)
Definition nl : string := String "010"%char "".
Definition dq : string := String "034"%char "".

(** [s.startswith(p)] *)
Definition startswith (s p : string) : bool := String.prefix p s.

(** [s.split(sep)] for a non-empty [sep]: the pieces between the
    occurrences of [sep], found from the left without overlap.  [skip]
    counts the characters of a separator still to be passed over and [cur]
    is the piece being read. *)
Fixpoint split_go (sep : string) (skip : nat) (cur : string) (s : string) : list string :=
  match s with
  | EmptyString => [cur]
  | String c s' =>
      match skip with
      | S k => split_go sep k cur s'
      | O =>
          if String.prefix sep s
          then cur :: split_go sep (Nat.pred (String.length sep)) "" s'
          else split_go sep O (cur +:+ String c "") s'
      end
  end.

Definition split (sep s : string) : list string := split_go sep O "" s.

(** [sep.join(strings)] *)
Definition join (sep : string) (strings : list string) : string :=
  String.concat sep strings.

(** [sorted(xs)] on strings: ascending in the order of [str], which
    compares character by character and then by length. *)
Definition sorted (xs : list string) : list string := merge_sort String.le xs.

End Str.

(** ** class Version *)

Record Version := mkVersion { major : Z; minor : Z; patch : Z }.

(** The constructor, called with the list of its positional arguments,
    already converted by [int]. *)
Definition Version_init (args : list Z) : result Version :=
  match args with
  | [a; b] => Ok (mkVersion a b 0)
  | [a; b; c] => Ok (mkVersion a b c)
  | _ => Raise (InvalidVersion args)
  end.

(** The two call shapes that cannot raise. *)
Definition V2 (a b : Z) : Version := mkVersion a b 0.
Definition V3 (a b c : Z) : Version := mkVersion a b c.

Definition as_tuple (v : Version) : Z * Z * Z := (major v, minor v, patch v).

(** Python compares tuples at the first position where they differ; tuples
    that agree everywhere compare as their lengths do, here equal. *)
Definition tuple_cmp (op : Z → Z → bool) (on_equal : bool) (a b : Z * Z * Z) : bool :=
  let '(a1, a2, a3) := a in
  let '(b1, b2, b3) := b in
  if negb (a1 =? b1) then op a1 b1
  else if negb (a2 =? b2) then op a2 b2
  else if negb (a3 =? b3) then op a3 b3
  else on_equal.

Definition tuple_eq (a b : Z * Z * Z) : bool :=
  let '(a1, a2, a3) := a in
  let '(b1, b2, b3) := b in
  (a1 =? b1) && (a2 =? b2) && (a3 =? b3).

Definition Version_lt (self other : Version) : bool :=
  tuple_cmp Z.ltb false (as_tuple self) (as_tuple other).
Definition Version_le (self other : Version) : bool :=
  tuple_cmp Z.leb true (as_tuple self) (as_tuple other).
Definition Version_gt (self other : Version) : bool :=
  tuple_cmp Z.gtb false (as_tuple self) (as_tuple other).
Definition Version_ge (self other : Version) : bool :=
  tuple_cmp Z.geb true (as_tuple self) (as_tuple other).
Definition Version_eq (self other : Version) : bool :=
  tuple_eq (as_tuple self) (as_tuple other).
Definition Version_ne (self other : Version) : bool :=
  negb (tuple_eq (as_tuple self) (as_tuple other)).

(** [__hash__]: the built-in hash of the triple, whatever it is. *)
Definition Version_hash (hash : Z * Z * Z → Z) (self : Version) : Z :=
  hash (as_tuple self).

Definition version_as_str (self : Version) : string :=
  let s := pretty (major self) +:+ "." +:+ pretty (minor self) in
  if decide (patch self ≠ 0) then s +:+ "." +:+ pretty (patch self) else s.

Definition Version_str (self : Version) : string := "glibc-" +:+ version_as_str self.

(** Versions as dictionary keys. *)
Global Instance Version_eq_dec : EqDecision Version.
Proof. solve_decision. Defined.

Global Instance Version_countable : Countable Version.
Proof.
  refine (inj_countable' as_tuple (λ t, mkVersion t.1.1 t.1.2 t.2) _).
  by intros [].
Defined.

(** ** extract_versions_from_installed_folder *)

(** The installed folder is given by what the script reads from it: the
    paths that [find] prints, each with the words that the [readelf | grep]
    pipeline prints for it.  The pipeline is run only for the objects that
    are not skipped. *)
Definition folder_listing : Type := list (string * list string).

(** [f.split("/")[-1]] ([split] never returns an empty list) *)
Definition basename (f : string) : string := List.last (Str.split "/" f) "".

Definition starts_with_any (str : string) (set : gset string) : bool :=
  existsb (λ item, Str.startswith str item) (elements set).

Definition linker_scripts : gset string :=
  {[ "libc.so"; "libm.so"; "libpthread.so" ]}.

Definition moved_to_libc : gset string :=
  {[ "clock_getcpuclockid"; "clock_nanosleep"; "clock_getres";
     "clock_settime"; "clock_gettime" ]}.

(** The body of the first loop after the [continue]: what one object adds
    to [data]. *)
Definition filter_file_data (version : Version) (f : string) (file_data : list string)
  : list string :=
  if Version_le (V2 2 17) version && Version_le version (V2 2 27) then
    if Str.startswith (basename f) "librt" then
      filter (λ x, negb (starts_with_any x moved_to_libc)) file_data
    else file_data
  else file_data.

(** The command line of [check_output] for the object [f]. *)
Definition readelf_command (f : string) : list string :=
  [ "/bin/bash"; "-c";
    "set -o pipefail; readelf -Ws '" +:+ f +:+ "' | grep " +:+ Str.dq
      +:+ " [^ ]*@@GLIBC_[0-9.]*$" +:+ Str.dq +:+ " -o" ].

(** [subprocess.check_output] of the pipeline, given the words that it
    prints: a [grep] that selects nothing exits with status 1, which under
    [pipefail] is the status of the pipeline, and [check_output] raises. *)
Definition check_output (f : string) (words : list string) : result (list string) :=
  if decide (words = []) then Raise (CalledProcessError (readelf_command f))
  else Ok words.

(** The first loop. *)
Definition collect_data (files : folder_listing) (version : Version)
  : result (list string) :=
  for_each (λ data '(f, words),
              if decide (basename f ∈ linker_scripts) then Ok data
              else file_data ← check_output f words;
                   Ok (data ++ filter_file_data version f file_data))
           [] files.

(** The body of the second loop, on the pair [(syms, dupes)]. *)
Definition merge_line (st : gmap string string * list string) (line : string)
  : result (gmap string string * list string) :=
  let '(syms, dupes) := st in
  match Str.split "@@" line with
  | [sym; ver] =>
      match syms !! sym with
      | None => Ok (<[sym := ver]> syms, dupes)
      | Some v => if decide (v ≠ ver) then Ok (syms, dupes ++ [line]) else Ok (syms, dupes)
      end
  | _ => Raise ValueError
  end.

Definition merge_data (data : list string) : result (gmap string string) :=
  '(syms, dupes) ← for_each merge_line (∅, []) data;
  if decide (dupes ≠ []) then Raise (DuplicateVersions dupes) else Ok syms.

Definition extract_versions_from_installed_folder
    (folder : folder_listing) (version : Version) : result (gmap string string) :=
  data ← collect_data folder version;
  merge_data data.

(** ** generate_header_string *)

Definition pthread_funcs_in_libc_so : gset string :=
  {[ "pthread_attr_destroy";
     "pthread_attr_init";
     "pthread_attr_getdetachstate";
     "pthread_attr_setdetachstate";
     "pthread_attr_getinheritsched";
     "pthread_attr_setinheritsched";
     "pthread_attr_getschedparam";
     "pthread_attr_setschedparam";
     "pthread_attr_getschedpolicy";
     "pthread_attr_setschedpolicy";
     "pthread_attr_getscope";
     "pthread_attr_setscope";
     "pthread_condattr_destroy";
     "pthread_condattr_init";
     "pthread_cond_broadcast";
     "pthread_cond_destroy";
     "pthread_cond_init";
     "pthread_cond_signalpthread_cond_wait";
     "pthread_cond_timedwait";
     "pthread_equal";
     "pthread_exit";
     "pthread_getschedparam";
     "pthread_setschedparam";
     "pthread_mutex_destroy";
     "pthread_mutex_init";
     "pthread_mutex_lock";
     "pthread_mutex_unlock";
     "pthread_self";
     "pthread_setcancelstate";
     "pthread_setcanceltype";
     "pthread_attr_init";
     "__register_atfork";
     "pthread_cond_init pthread_cond_destroy";
     "pthread_cond_wait pthread_cond_signal";
     "pthread_cond_broadcast pthread_cond_timedwait" ]}.

Definition pthread_symbols_used_as_weak_in_libgcc : gset string :=
  {[ "pthread_setspecific";
     "__pthread_key_create";
     "pthread_getspecific";
     "pthread_key_create";
     "pthread_once" ]}.

Definition pthread_symbols_used_as_weak_in_libstdcpp : gset string :=
  {[ "pthread_setspecific";
     "pthread_key_delete";
     "__pthread_key_create";
     "pthread_once";
     "pthread_key_create";
     "pthread_getspecific";
     "pthread_join";
     "pthread_detach";
     "pthread_create" ]}.

Section header.
(** The three membership sets are local constants of the function; the
    synthesis is written over any three sets and instantiated below. *)
Variables libc_so weak_in_libgcc weak_in_libstdcpp : gset string.

(** [line] as first assigned in the first loop *)
Definition symver_line (sym ver : string) : string :=
  "__asm__(" +:+ Str.dq +:+ ".symver " +:+ sym +:+ "," +:+ sym +:+ "@" +:+ ver
    +:+ Str.dq +:+ ");".

(** The three [if]s of the first loop. *)
Definition guard_line (sym line : string) : string :=
  let line :=
    if decide (sym ∈ libc_so ∨ sym ∈ weak_in_libstdcpp ∨ sym ∈ weak_in_libgcc)
    then "#ifdef _REENTRANT" +:+ Str.nl +:+ line +:+ Str.nl +:+ "#endif" else line in
  let line :=
    if decide (sym ∈ weak_in_libgcc)
    then "#ifndef IN_LIBGCC2" +:+ Str.nl +:+ line +:+ Str.nl +:+ "#endif" else line in
  let line :=
    if decide (sym ∈ weak_in_libstdcpp)
    then "#ifndef _GLIBCXX_SHARED" +:+ Str.nl +:+ line +:+ Str.nl +:+ "#endif" else line in
  line.

Definition poison_line (sym : string) : string :=
  "__asm__(" +:+ Str.dq +:+ ".symver " +:+ sym +:+ "," +:+ sym
    +:+ "@GLIBC_WRAP_ERROR_SYMBOL_NOT_PRESENT_IN_REQUESTED_VERSION" +:+ Str.dq +:+ ");".

(** The list [strings] at the [return].  [keys] is [syms.keys()] and
    [missing] is [list(missingFuncs)], each in the order in which Python
    happens to iterate. *)
Definition header_strings (keys : list string) (syms : gmap string string)
    (missing : list string) : list string :=
  let strings :=
    [ "#if !defined(SET_GLIBC_LINK_VERSIONS_HEADER) && !defined(__ASSEMBLER__)";
      "#define SET_GLIBC_LINK_VERSIONS_HEADER" ] in
  let strings :=
    foldl (λ strings sym, strings ++ [guard_line sym (symver_line sym (syms !!! sym))])
          strings (Str.sorted keys) in
  let strings :=
    foldl (λ strings sym, strings ++ [poison_line sym]) strings (Str.sorted missing) in
  let strings := strings ++ ["#endif"] in
  let strings := strings ++ [""] in
  strings.

Definition generate_header_string_with (syms : gmap string string)
    (missingFuncs : gset string) : string :=
  Str.join Str.nl (header_strings (elements (dom syms)) syms (elements missingFuncs)).
End header.

Definition generate_header_string : gmap string string → gset string → string :=
  generate_header_string_with pthread_funcs_in_libc_so
    pthread_symbols_used_as_weak_in_libgcc pthread_symbols_used_as_weak_in_libstdcpp.

(** ** apply_patches *)

(** The dictionary literal, in the order in which it is written (the order
    in which [items()] yields it). *)
Definition patches_table : list (string * (Version * Version)) :=
  [ ("extern_inline_addition.diff",      (V2 2 5,  V3 2 5 1));
    ("fix_obstack_compat.diff",          (V2 2 5,  V2 2 17));
    ("no-pattern-rule-mixing.diff",      (V2 2 5,  V3 2 10 2));
    ("fix_linker_failure.diff",          (V2 2 5,  V2 2 9));
    ("remove_ctors_dtors.diff",          (V2 2 5,  V3 2 12 2));
    ("fix_bad_version_checks_2.5.diff",  (V2 2 5,  V3 2 6 1));
    ("fix_bad_version_checks_2.9.diff",  (V2 2 7,  V2 2 9));
    ("fix_bad_version_checks_2.10.diff", (V2 2 10, V3 2 12 2));
    ("fix_bad_version_checks.diff",      (V2 2 13, V2 2 18));
    ("hvsep-remove.diff",                (V2 2 16, V2 2 16));
    ("cvs-common-symbols.diff",          (V2 2 23, V2 2 25)) ].

(** A command line together with its working directory. *)
Definition command : Type := list string * string.

Section processes.
Variable basePath : string.
(** Whether a command exits with status zero, given the commands that ran
    before it. *)
Variable exits_zero : list command → command → bool.

(** [subprocess.check_call(cmd, cwd=cwd)], on the log of the commands run
    so far. *)
Definition check_call (cmd : list string) (cwd : string) (log : list command)
  : result (list command) :=
  if exits_zero log (cmd, cwd) then Ok (log ++ [(cmd, cwd)])
  else Raise (CalledProcessError cmd).

Definition git_apply (patch : string) : list string :=
  ["git"; "apply"; basePath +:+ "/patches/" +:+ patch].

Definition apply_patches (glibcDir : string) (version : Version) (log : list command)
  : result (list command) :=
  for_each (λ log '(patch, v_limits),
              if Version_le v_limits.1 version && Version_le version v_limits.2
              then check_call (git_apply patch) glibcDir log
              else Ok log)
           log patches_table.
End processes.

(** ** main

    The two loops of [main], after the command line has been read into
    [requested_versions]. *)

Definition SUPPORTED_VERSIONS : list Version :=
  [ V2 2 5; V3 2 5 1; V2 2 6; V3 2 6 1; V2 2 7; V2 2 8; V2 2 9; V3 2 10 2;
    V3 2 11 3; V3 2 12 2; V2 2 13; V2 2 14; V3 2 14 1; V2 2 15; V2 2 16;
    V2 2 17; V2 2 18; V2 2 19; V2 2 20; V2 2 21; V2 2 22; V2 2 23; V2 2 24;
    V2 2 25; V2 2 26; V2 2 27 ].

(** [set.union(set(), *syms.values())]: iterating a dictionary yields its
    keys. *)
Definition allsyms_of (syms : gmap Version (gmap string string)) : gset string :=
  ⋃ (dom <$> (map_to_list syms).*2).

(** [allsyms - set(syms[version].keys())] *)
Definition missingFuncs_of (allsyms : gset string) (table : gmap string string)
  : gset string :=
  allsyms ∖ dom table.

Section main.
Variable versionHeadersPath : string.
(** [get_glibc_binaries(version)] and what is then read from the
    installed folder. *)
Variable get_glibc_binaries : Version → result folder_listing.

(** The first loop of [main]. *)
Definition extract_all (requested_versions : list Version)
  : result (gmap Version (gmap string string)) :=
  for_each (λ syms version,
              installDir ← get_glibc_binaries version;
              table ← extract_versions_from_installed_folder installDir version;
              Ok (<[version := table]> syms))
           ∅ requested_versions.

(** The second loop of [main]: the files written, as (path, content). *)
Definition write_headers (syms : gmap Version (gmap string string))
    (requested_versions : list Version) : list (string * string) :=
  let allsyms := allsyms_of syms in
  (λ version,
     let missingFuncs := missingFuncs_of allsyms (syms !!! version) in
     let headerData := generate_header_string (syms !!! version) missingFuncs in
     (versionHeadersPath +:+ "/force_link_glibc_" +:+ version_as_str version +:+ ".h",
      headerData)) <$> requested_versions.

Definition main (requested_versions : list Version) : result (list (string * string)) :=
  syms ← extract_all requested_versions;
  Ok (write_headers syms requested_versions).
End main.

(** * Notions used to state the properties *)

(** ** The order on versions, as a relation *)

(** Lexicographic order on triples of integers, as mathematics writes it. *)
Definition lex_lt (a b : Z * Z * Z) : Prop :=
  a.1.1 < b.1.1 ∨ (a.1.1 = b.1.1 ∧ (a.1.2 < b.1.2 ∨ (a.1.2 = b.1.2 ∧ a.2 < b.2))).

(** ** Rule matching *)

(** [lo <= v <= hi], the chained comparison that the script writes for
    each of its version windows. *)
Definition in_window (lo hi v : Version) : bool := Version_le lo v && Version_le v hi.

(** The rule keys whose window contains [v], in table order. *)
Definition matching {K} (rules : list (K * (Version * Version))) (v : Version) : list K :=
  (filter (λ rule, in_window rule.2.1 rule.2.2 v = true) rules).*1.

(** ** The lines that reach the merge *)

(** What the objects that are read contribute, one after the other. *)
Definition exported_lines (files : folder_listing) (version : Version) : list string :=
  mjoin ((λ '(f, file_data),
            if decide (basename f ∈ linker_scripts) then []
            else filter_file_data version f file_data) <$> files).

(** An object that is read and for which the pipeline prints no word. *)
Definition wordless (object : string * list string) : Prop :=
  (basename object.1 ∉ linker_scripts) ∧ object.2 = [].

Global Instance wordless_dec object : Decision (wordless object).
Proof. unfold wordless. apply _. Defined.

(** A line that unpacks into a name and a version. *)
Definition parsed (line : string) : option (string * string) :=
  match Str.split "@@" line with
  | [sym; ver] => Some (sym, ver)
  | _ => None
  end.

(** The version on the first line of [data] that carries the name [sym]. *)
Fixpoint first_version (data : list string) (sym : string) : option string :=
  match data with
  | [] => None
  | line :: data' =>
      match parsed line with
      | Some (sym', ver) => if decide (sym' = sym) then Some ver else first_version data' sym
      | None => first_version data' sym
      end
  end.

(** The version a name is known by: the one in the table if it is there,
    else the first one in the lines still to come. *)
Definition known (syms : gmap string string) (data : list string) (sym : string)
  : option string :=
  match syms !! sym with
  | Some ver => Some ver
  | None => first_version data sym
  end.

(** A line whose version differs from the one its name is known by. *)
Definition disagrees (syms : gmap string string) (data : list string) (line : string)
  : Prop :=
  match parsed line with
  | Some (sym, ver) => known syms data sym ≠ Some ver
  | None => False
  end.

Global Instance disagrees_dec syms data line : Decision (disagrees syms data line).
Proof. unfold disagrees. destruct (parsed line) as [[sym ver]|]; apply _. Defined.

(** Some name occurs in [data] with two different versions. *)
Definition conflict (data : list string) : Prop :=
  ∃ line1 line2 sym ver1 ver2,
    line1 ∈ data ∧ line2 ∈ data ∧
    parsed line1 = Some (sym, ver1) ∧ parsed line2 = Some (sym, ver2) ∧ ver1 ≠ ver2.

(** ** The three guards *)

Definition ifdef_reentrant (line : string) : string :=
  "#ifdef _REENTRANT" +:+ Str.nl +:+ line +:+ Str.nl +:+ "#endif".
Definition ifndef_in_libgcc2 (line : string) : string :=
  "#ifndef IN_LIBGCC2" +:+ Str.nl +:+ line +:+ Str.nl +:+ "#endif".
Definition ifndef_glibcxx_shared (line : string) : string :=
  "#ifndef _GLIBCXX_SHARED" +:+ Str.nl +:+ line +:+ Str.nl +:+ "#endif".

(** ** The header as text *)

(** [s.split("\n")] *)
Definition lines (s : string) : list string := Str.split Str.nl s.

(** A line that is a [.symver] directive for the name [sym]. *)
Definition binds (sym line : string) : bool :=
  Str.startswith line ("__asm__(" +:+ Str.dq +:+ ".symver " +:+ sym +:+ "," +:+ sym +:+ "@").

Fixpoint occurs (c : ascii) (s : string) : bool :=
  match s with
  | EmptyString => false
  | String c' s' => if decide (c = c') then true else occurs c s'
  end.

(** A string without line break, and a name that moreover has no comma (the
    character that ends the first operand of [.symver]). *)
Definition one_line (s : string) : Prop := occurs "010"%char s = false.
Definition plain_name (sym : string) : Prop := occurs ","%char sym = false ∧ one_line sym.

(** ** Strings, once more *)

(** [s[n:]] *)
Fixpoint drop_str (n : nat) (s : string) : string :=
  match n, s with
  | O, _ => s
  | S n', String _ s' => drop_str n' s'
  | S _, EmptyString => EmptyString
  end.

(** ** Running the script: the world *)

(** What the script does to the world, in the order in which it does it.
    [Exec] is [subprocess.check_call], [Touch] is [open(path, "wb")] closed
    at once, [WriteFile] is [open(path, 'w')] followed by [write], [Print] is
    a line on the standard output. *)
Inductive event :=
| Print (text : string)
| Exec (cmd : list string) (cwd : string) (env : option (gmap string string))
| Rmtree (path : string)
| Makedirs (path : string)
| Touch (path : string)
| WriteFile (path : string) (content : string).

(** The ways in which a run ends early. *)
Inductive failure :=
| Raised (e : exn)                       (* an exception of the functions above *)
| InvalidVersionArgs (args : list string)  (* Exception("invalid version: ...") *)
| IntValueError (s : string)             (* int(s) *)
| MissingPrograms (missing : list string)  (* Exception("missing programs: ...") *)
| OSError (ev : event).                  (* a call on the file system or the output *)

Inductive outcome (A : Type) :=
| Done (a : A)
| Failed (f : failure).
Arguments Done {A} a.
Arguments Failed {A} f.

Global Instance outcome_bind : MBind outcome := λ A B k m,
  match m with
  | Done a => k a
  | Failed f => Failed f
  end.

Definition of_result {A} (r : result A) : outcome A :=
  match r with
  | Ok a => Done a
  | Raise e => Failed (Raised e)
  end.

(** [[f(x) for x in xs]]: the first failure ends the evaluation. *)
Fixpoint outcome_map {A B} (f : A → outcome B) (xs : list A) : outcome (list B) :=
  match xs with
  | [] => Done []
  | x :: xs' => y ← f x; ys ← outcome_map f xs'; Done (y :: ys)
  end.

(** A computation on the log of the events so far: the log it leaves and
    how it ends.  An exception leaves the log as it is at that moment. *)
Definition io (A : Type) : Type := list event → list event * outcome A.

Global Instance io_ret : MRet io := λ A a log, (log, Done a).

Global Instance io_bind : MBind io := λ A B k m log,
  match m log with
  | (log', Done a) => k a log'
  | (log', Failed f) => (log', Failed f)
  end.

Definition io_fail {A} (f : failure) : io A := λ log, (log, Failed f).

Definition io_lift {A} (r : outcome A) : io A := λ log, (log, r).

(** [if b: m] *)
Definition when (b : bool) (m : io unit) : io unit := if b then m else mret tt.

(** A [for] loop in the world. *)
Fixpoint io_for {A S} (body : S → A → io S) (st : S) (xs : list A) : io S :=
  match xs with
  | [] => mret st
  | x :: xs' => st' ← body st x; io_for body st' xs'
  end.

Section world.
Variable basePath : string.
(** [os.path.exists(path)], after the events so far. *)
Variable path_exists : list event → string → bool.
(** Whether a call completes (a command: with exit status zero), after the
    events so far. *)
Variable succeeds : list event → event → bool.
(** [distutils.spawn.find_executable(p)] *)
Variable find_executable : string → option string.
(** [os.environ] and [multiprocessing.cpu_count()] *)
Variable environ : gmap string string.
Variable cpu_count : Z.
(** What [find] and [readelf] give for an installed folder, after the events
    so far; they too are commands and may fail. *)
Variable installed : list event → string → result folder_listing.
(** [int(s)], [None] when it raises. *)
Variable int : string → option Z.

Definition failure_of (ev : event) : failure :=
  match ev with
  | Exec cmd _ _ => Raised (CalledProcessError cmd)
  | _ => OSError ev
  end.

Definition perform (ev : event) : io unit := λ log,
  if succeeds log ev then (log ++ [ev], Done tt) else (log, Failed (failure_of ev)).

Definition exists_ (path : string) : io bool := λ log, (log, Done (path_exists log path)).

Definition read_installed (installDir : string) : io folder_listing := λ log,
  (log, of_result (installed log installDir)).

(** *** apply_patches, in the world *)

Definition apply_patches_io (glibcDir : string) (version : Version) : io unit :=
  io_for (λ _ '(patch, v_limits),
            when (Version_le v_limits.1 version && Version_le version v_limits.2)
              (perform (Exec (git_apply basePath patch) glibcDir None)))
         tt patches_table.

(** *** get_glibc_binaries *)

(** [env] at the call of [configure]. *)
Definition build_env (version : Version) : gmap string string :=
  let env := environ in
  let env := <["CC" := "gcc"]> env in
  let env :=
    if Version_le (V2 2 5) version && Version_le version (V2 2 16)
    then <["CFLAGS" := "-U_FORTIFY_SOURCE -O2 -fno-stack-protector"]> env else env in
  let env :=
    if Version_le (V2 2 5) version && Version_le version (V2 2 21)
    then <["LDFLAGS" := "-no-pie"]> env else env in
  env.

Definition get_glibc_binaries_io (version : Version) : io string :=
  let glibcDir := basePath +:+ "/glibc" in
  let buildDir := basePath +:+ "/builds/" +:+ Version_str version +:+ "/build" in
  let installDir := basePath +:+ "/builds/" +:+ Version_str version +:+ "/install" in
  cloned ← exists_ glibcDir;
  when (negb cloned)
    (perform (Exec ["git"; "clone"; "git://sourceware.org/git/glibc.git"; glibcDir]
                basePath None));;
  built ← exists_ (installDir +:+ "/build_succeeded");
  when (negb built)
    (perform (Exec ["git"; "reset"; "--hard"; "HEAD"] glibcDir None);;
     perform (Exec ["git"; "clean"; "-dxf"] glibcDir None);;
     perform (Exec ["git"; "checkout"; Version_str version] glibcDir None);;
     apply_patches_io glibcDir version;;
     old_build ← exists_ buildDir;
     when old_build (perform (Rmtree buildDir));;
     perform (Makedirs buildDir);;
     old_install ← exists_ installDir;
     when old_install (perform (Rmtree installDir));;
     perform (Makedirs installDir);;
     let env := build_env version in
     let jobString := "-j" +:+ pretty cpu_count in
     perform (Exec [glibcDir +:+ "/configure"; "--disable-werror";
                    "--disable-sanity-checks"] buildDir (Some env));;
     perform (Exec ["make"; jobString] buildDir None);;
     perform (Exec ["make"; "install_root=" +:+ installDir; "install"; jobString]
                buildDir None);;
     perform (Touch (installDir +:+ "/build_succeeded")));;
  mret installDir.

(** *** check_have_required_programs *)

Definition requiredPrograms : list string := ["gcc"; "make"; "git"; "readelf"; "grep"].

Definition check_have_required_programs : io unit :=
  let missing :=
    foldl (λ missing p,
             match find_executable p with
             | None => missing ++ [p]
             | Some _ => missing
             end) [] requiredPrograms in
  if decide (missing ≠ []) then io_fail (MissingPrograms missing) else mret tt.

(** *** Version, from the words of the command line *)

Definition to_int (s : string) : outcome Z :=
  match int s with
  | Some z => Done z
  | None => Failed (IntValueError s)
  end.

(** The constructor on strings: the count is checked first, then the
    arguments are converted from the left. *)
Definition Version_of_args (args : list string) : outcome Version :=
  if decide (3 < length args ∨ length args < 2)%nat
  then Failed (InvalidVersionArgs args)
  else ints ← outcome_map to_int args; of_result (Version_init ints).

(** *** main, in the world

    [args] is [sys.argv[1:]]. *)
Definition main_io (args : list string) : io unit :=
  check_have_required_programs;;
  requested_versions ←
    (if decide (args ≠ []) then
       perform (Print "Warning, requesting specific versions may mean you miss out on defining missing symbols");;
       io_lift (outcome_map (λ v, Version_of_args (Str.split "." v)) args)
     else mret SUPPORTED_VERSIONS);
  let versionHeadersPath := basePath +:+ "/version_headers" in
  old_headers ← exists_ versionHeadersPath;
  when old_headers (perform (Rmtree versionHeadersPath));;
  syms ←
    io_for (λ (syms : gmap Version (gmap string string)) version,
              perform (Print ("generating data for version: " +:+ Version_str version));;
              installDir ← get_glibc_binaries_io version;
              folder ← read_installed installDir;
              table ← io_lift (of_result
                         (extract_versions_from_installed_folder folder version));
              mret (<[version := table]> syms))
           ∅ requested_versions;
  let allsyms := allsyms_of syms in
  io_for (λ _ version,
            perform (Print ("writing header for version: " +:+ Version_str version));;
            let missingFuncs := missingFuncs_of allsyms (syms !!! version) in
            let headerData := generate_header_string (syms !!! version) missingFuncs in
            headers_dir ← exists_ versionHeadersPath;
            when (negb headers_dir) (perform (Makedirs versionHeadersPath));;
            perform (WriteFile
                       (versionHeadersPath +:+ "/force_link_glibc_"
                          +:+ version_as_str version +:+ ".h")
                       headerData))
         tt requested_versions.
End world.

(** ** Conditionals of the preprocessor *)

(** The depth of open conditionals after the lines [ls], starting from
    [depth]: a line that starts with [#if] opens one, a line [#endif] closes
    one; [None] when an [#endif] has nothing to close. *)
Fixpoint nesting (depth : nat) (ls : list string) : option nat :=
  match ls with
  | [] => Some depth
  | l :: ls' =>
      if Str.startswith l "#if" then nesting (S depth) ls'
      else if String.eqb l "#endif" then
        match depth with
        | O => None
        | S d => nesting d ls'
        end
      else nesting depth ls'
  end.

(** ** The table of one version in a run *)

(** What the first loop of [main] computes for one version. *)
Definition table_of (get_glibc_binaries : Version → result folder_listing)
    (version : Version) : result (gmap string string) :=
  installDir ← get_glibc_binaries version;
  extract_versions_from_installed_folder installDir version.

(** Lines that leave the depth as they find it, whatever follows. *)
Definition balanced_block (ls : list string) : Prop :=
  ∀ depth rest, nesting depth (ls ++ rest) = nesting depth rest.

(** ** What a computation adds to the log *)

(** Whatever the log, [m] only adds events to it, and what it adds and how
    it ends satisfy [P]. *)
Definition extends {A} (m : io A) (P : list event → outcome A → Prop) : Prop :=
  ∀ log, ∃ new, (m log).1 = log ++ new ∧ P new (m log).2.

(** Every event that [m] adds satisfies [Pev]; if it fails, the failure
    satisfies [Pf]. *)
Definition io_spec {A} (Pev : event → Prop) (Pf : failure → Prop) (m : io A) : Prop :=
  extends m (λ new r, Forall Pev new ∧ ∀ f, r = Failed f → Pf f).

(** The files written, in order. *)
Definition writes (evs : list event) : list (string * string) :=
  omap (λ ev, match ev with WriteFile path content => Some (path, content) | _ => None end)
       evs.

Definition is_OSError (f : failure) : Prop :=
  match f with
  | OSError _ => True
  | _ => False
  end.

(** The events that building a version may cause before its marker file is
    written: commands, and the removal and creation of its own build and
    install folders. *)
Definition build_event (buildDir installDir : string) (ev : event) : Prop :=
  match ev with
  | Exec _ _ _ => True
  | Rmtree path | Makedirs path => path = buildDir ∨ path = installDir
  | _ => False
  end.

(** Events that satisfy [clean], followed or not by the one event [last];
    followed by it only when the computation ends with [a]. *)
Definition then_last {A} (clean : event → Prop) (last : event) (a : A)
    (new : list event) (r : outcome A) : Prop :=
  ∃ pre, Forall clean pre ∧ (new = pre ∨ (new = pre ++ [last] ∧ r = Done a)).

(** Events other than the writing of a file. *)
Definition no_write (ev : event) : Prop :=
  match ev with
  | WriteFile _ _ => False
  | _ => True
  end.

(** The events of the second loop of [main]: its line on the output, the
    creation of the folder of the headers, the writing of a header. *)
Definition header_event (versionHeadersPath : string) (ev : event) : Prop :=
  match ev with
  | Print text => ∃ version, text = "writing header for version: " +:+ Version_str version
  | Makedirs path => path = versionHeadersPath
  | WriteFile path _ =>
      ∃ version,
        path = versionHeadersPath +:+ "/force_link_glibc_" +:+ version_as_str version
                 +:+ ".h"
  | _ => False
  end.

(** The failure of one of these events. *)
Definition header_failure (versionHeadersPath : string) (f : failure) : Prop :=
  ∃ ev, header_event versionHeadersPath ev ∧ f = OSError ev.

Section run_notions.
Variable basePath : string.
Variable path_exists : list event → string → bool.
Variable succeeds : list event → event → bool.
Variable environ : gmap string string.
Variable cpu_count : Z.
Variable installed : list event → string → result folder_listing.

(** Between [log] and [final] the version was built and its table
    extracted: at some point [before], [get_glibc_binaries] ended well and
    left [after], and the extraction from what was installed then gave
    [table]. *)
Definition extracted_in_run (log final : list event) (version : Version)
    (table : gmap string string) : Prop :=
  ∃ before after installDir folder,
    log `prefix_of` before ∧ before `prefix_of` after ∧ after `prefix_of` final ∧
    get_glibc_binaries_io basePath path_exists succeeds environ cpu_count version before
    = (after, Done installDir) ∧
    installed after installDir = Ok folder ∧
    extract_versions_from_installed_folder folder version = Ok table.

(** What a run from [log] has written once its first loop is over: the
    tables [syms] are those of exactly the requested versions, each built and
    extracted in the run, and the files are the headers of the versions
    [written], the first ones of the request, computed from [syms]; all of
    them when the run ends well, and only the failure of an event of the
    second loop stops it before. *)
Definition headers_written (requested : list Version)
    (log new : list event) (r : outcome unit) : Prop :=
  ∃ (syms : gmap Version (gmap string string)) (written : list Version),
    dom syms = list_to_set requested ∧
    (∀ version table, syms !! version = Some table →
                      extracted_in_run log (log ++ new) version table) ∧
    written `prefix_of` requested ∧
    writes new = write_headers (basePath +:+ "/version_headers") syms written ∧
    (r = Done tt → written = requested) ∧
    (∀ f, r = Failed f → header_failure (basePath +:+ "/version_headers") f).
End run_notions.

(** [m] adds events to any log and the new events and the result, with the
    log it started from, satisfy [P]. *)
Definition extends_from {A} (m : io A)
    (P : list event → list event → outcome A → Prop) : Prop :=
  ∀ log, ∃ new, (m log).1 = log ++ new ∧ P log new (m log).2.

(** [m], started after [log], ends well with [a] and leaves [log']. *)
Definition runs {A} (m : io A) (log log' : list event) (a : A) : Prop :=
  m log = (log', Done a).

(** * Properties *)

(** ** The order on versions *)

Ltac versions :=
  repeat match goal with v : Version |- _ => destruct v end;
  unfold Version_lt, Version_le, Version_gt, Version_ge, Version_eq, Version_ne,
    in_window, Version_hash, tuple_cmp, tuple_eq, as_tuple, lex_lt, V2, V3 in *;
  cbn [major minor patch fst snd] in *.

Ltac by_cases :=
  repeat match goal with
    | |- context [?x =? ?y] => destruct (Z.eqb_spec x y); subst; cbn [negb andb] in *
    | H : context [?x =? ?y] |- _ =>
        destruct (Z.eqb_spec x y); subst; cbn [negb andb] in *
    end.

Lemma Version_lt_lex a b : Version_lt a b = true ↔ lex_lt (as_tuple a) (as_tuple b).
Proof. versions. by_cases; rewrite ?Z.ltb_lt; lia. Qed.

Lemma Version_le_lex a b :
  Version_le a b = true ↔ lex_lt (as_tuple a) (as_tuple b) ∨ as_tuple a = as_tuple b.
Proof.
  versions. by_cases; rewrite ?Z.leb_le;
    (split; [intros; try lia; auto | intros [?|[=]]; try lia; auto]).
Qed.

Lemma Version_eq_tuple a b : Version_eq a b = true ↔ as_tuple a = as_tuple b.
Proof. versions. by_cases; split; (congruence || discriminate || done). Qed.

Lemma Version_eq_iff a b : Version_eq a b = true ↔ a = b.
Proof.
  rewrite Version_eq_tuple. split; [|by intros ->].
  destruct a, b. by intros [= -> -> ->].
Qed.

Lemma Version_gt_flip a b : Version_gt a b = Version_lt b a.
Proof.
  versions. by_cases; try done; try lia;
    rewrite Z.gtb_ltb; done.
Qed.

Lemma Version_ge_flip a b : Version_ge a b = Version_le b a.
Proof.
  versions. by_cases; try done; try lia;
    rewrite Z.geb_leb; done.
Qed.

Lemma lex_lt_irrefl a : ¬ lex_lt a a.
Proof. unfold lex_lt. lia. Qed.

Lemma lex_lt_trans a b c : lex_lt a b → lex_lt b c → lex_lt a c.
Proof. unfold lex_lt. lia. Qed.

Lemma lex_trichotomy a b : lex_lt a b ∨ a = b ∨ lex_lt b a.
Proof.
  destruct a as [[a1 a2] a3], b as [[b1 b2] b3]. unfold lex_lt. cbn.
  destruct (Z.lt_trichotomy a1 b1) as [?|[->|?]]; [lia| |lia].
  destruct (Z.lt_trichotomy a2 b2) as [?|[->|?]]; [lia| |lia].
  destruct (Z.lt_trichotomy a3 b3) as [?|[->|?]]; [lia| |lia].
  right; left; done.
Qed.

Lemma Version_le_refl v : Version_le v v = true.
Proof. apply Version_le_lex. by right. Qed.

Lemma Version_le_trans a b c :
  Version_le a b = true → Version_le b c = true → Version_le a c = true.
Proof.
  rewrite !Version_le_lex. intros [H1|H1] [H2|H2].
  - left. by eapply lex_lt_trans.
  - left. by rewrite <- H2.
  - left. by rewrite H1.
  - right. congruence.
Qed.

(** C9. The six comparison operators of [Version] are those of the
    lexicographic order on (major, minor, patch): [<] is that order, [<=] is
    [<] or equal triples, [>] and [>=] are their converses, [==] holds
    exactly for equal triples (equal versions) and [!=] is its negation.  The
    order is strict, transitive and total: of [a < b], [a == b], [a > b]
    exactly one holds.  Equal versions have equal hashes.  The patch level
    is 0 when omitted, so [Version(2,5)] equals [Version(2,5,0)] and hashes
    alike, and [Version(2,10) > Version(2,9)]. *)
Theorem Version_total_order (hash : Z * Z * Z → Z) (a b c : Version) :
  (Version_lt a b = true ↔ lex_lt (as_tuple a) (as_tuple b)) ∧
  (Version_le a b = true ↔ Version_lt a b = true ∨ Version_eq a b = true) ∧
  Version_gt a b = Version_lt b a ∧
  Version_ge a b = Version_le b a ∧
  (Version_eq a b = true ↔ as_tuple a = as_tuple b) ∧
  (Version_eq a b = true ↔ a = b) ∧
  Version_ne a b = negb (Version_eq a b) ∧
  (Version_eq a b = true → Version_hash hash a = Version_hash hash b) ∧
  (Version_lt a b = true → Version_lt b c = true → Version_lt a c = true) ∧
  ((Version_lt a b = true ∧ Version_eq a b = false ∧ Version_gt a b = false) ∨
   (Version_lt a b = false ∧ Version_eq a b = true ∧ Version_gt a b = false) ∨
   (Version_lt a b = false ∧ Version_eq a b = false ∧ Version_gt a b = true)) ∧
  (∃ v v', Version_init [2; 5] = Ok v ∧ Version_init [2; 5; 0] = Ok v' ∧
           patch v = 0 ∧ Version_eq v v' = true ∧
           Version_hash hash v = Version_hash hash v') ∧
  Version_gt (V2 2 10) (V2 2 9) = true ∧ Version_lt (V2 2 10) (V2 2 9) = false.
Proof.
  split_and!.
  - apply Version_lt_lex.
  - rewrite Version_le_lex, Version_lt_lex, Version_eq_tuple. done.
  - apply Version_gt_flip.
  - apply Version_ge_flip.
  - apply Version_eq_tuple.
  - apply Version_eq_iff.
  - done.
  - by intros ->%Version_eq_iff.
  - rewrite !Version_lt_lex. apply lex_lt_trans.
  - rewrite Version_gt_flip.
    destruct (lex_trichotomy (as_tuple a) (as_tuple b)) as [H|[H|H]].
    + left. split_and!.
      * by apply Version_lt_lex.
      * apply not_true_is_false. rewrite Version_eq_tuple. intros E.
        rewrite E in H. by apply lex_lt_irrefl in H.
      * apply not_true_is_false. rewrite Version_lt_lex. intros H'.
        by apply (lex_lt_irrefl (as_tuple a)), (lex_lt_trans _ (as_tuple b)).
    + right; left. split_and!.
      * apply not_true_is_false. rewrite Version_lt_lex, H. apply lex_lt_irrefl.
      * by apply Version_eq_tuple.
      * apply not_true_is_false. rewrite Version_lt_lex, H. apply lex_lt_irrefl.
    + right; right. split_and!.
      * apply not_true_is_false. rewrite Version_lt_lex. intros H'.
        by apply (lex_lt_irrefl (as_tuple a)), (lex_lt_trans _ (as_tuple b)).
      * apply not_true_is_false. rewrite Version_eq_tuple. intros E.
        rewrite E in H. by apply lex_lt_irrefl in H.
      * by apply Version_lt_lex.
  - by exists (V2 2 5), (V3 2 5 0).
  - done.
  - done.
Qed.

(** ** Version windows and patch selection *)

Lemma in_window_spec lo hi v :
  in_window lo hi v = true ↔ Version_le lo v = true ∧ Version_le v hi = true.
Proof. unfold in_window. apply andb_true_iff. Qed.

Lemma in_window_low lo hi : Version_le lo hi = true → in_window lo hi lo = true.
Proof. intros H. apply in_window_spec. split; [apply Version_le_refl | done]. Qed.

Lemma in_window_high lo hi : Version_le lo hi = true → in_window lo hi hi = true.
Proof. intros H. apply in_window_spec. split; [done | apply Version_le_refl]. Qed.

Lemma in_window_above lo hi v : Version_lt hi v = true → in_window lo hi v = false.
Proof.
  intros H. apply not_true_is_false. rewrite in_window_spec. intros [_ H'].
  apply Version_lt_lex in H. apply Version_le_lex in H' as [H'|H'].
  - by apply (lex_lt_irrefl (as_tuple v)), (lex_lt_trans _ (as_tuple hi)).
  - rewrite H' in H. by apply lex_lt_irrefl in H.
Qed.

Lemma in_window_below lo hi v : Version_lt v lo = true → in_window lo hi v = false.
Proof.
  intros H. apply not_true_is_false. rewrite in_window_spec. intros [H' _].
  apply Version_lt_lex in H. apply Version_le_lex in H' as [H'|H'].
  - by apply (lex_lt_irrefl (as_tuple v)), (lex_lt_trans _ (as_tuple lo)).
  - rewrite H' in H. by apply lex_lt_irrefl in H.
Qed.

Lemma elem_of_matching {K} (rules : list (K * (Version * Version))) v k :
  k ∈ matching rules v ↔ ∃ lo hi, (k, (lo, hi)) ∈ rules ∧ in_window lo hi v = true.
Proof.
  unfold matching. rewrite list_elem_of_fmap. split.
  - intros [[k' [lo hi]] [-> [H1 H2]%list_elem_of_filter]]. by exists lo, hi.
  - intros (lo & hi & H1 & H2). exists (k, (lo, hi)). split; [done|].
    by apply list_elem_of_filter.
Qed.

Lemma matching_cons {K} (k : K) lo hi rules v :
  matching ((k, (lo, hi)) :: rules) v
  = if in_window lo hi v then k :: matching rules v else matching rules v.
Proof.
  unfold matching. rewrite filter_cons. cbn [fst snd].
  destruct (in_window lo hi v); [by rewrite decide_True | by rewrite decide_False].
Qed.

Section patches.
Context (basePath : string) (exits_zero : list command → command → bool).
Context (glibcDir : string) (version : Version).

Lemma apply_matching_rules (rules : list (string * (Version * Version))) log :
  (∀ log' patch, patch ∈ matching rules version →
     exits_zero log' (git_apply basePath patch, glibcDir) = true) →
  for_each (λ log '(patch, v_limits),
              if Version_le v_limits.1 version && Version_le version v_limits.2
              then check_call exits_zero (git_apply basePath patch) glibcDir log
              else Ok log) log rules
  = Ok (log ++ ((λ patch, (git_apply basePath patch, glibcDir)) <$> matching rules version)).
Proof.
  revert log. induction rules as [|[patch [lo hi]] rules IH]; intros log Hok.
  - cbn. by rewrite app_nil_r.
  - cbn [for_each fst snd]. rewrite matching_cons in Hok |- *.
    change (Version_le lo version && Version_le version hi)
      with (in_window lo hi version).
    destruct (in_window lo hi version).
    + unfold check_call. rewrite Hok by apply list_elem_of_here.
      cbn. rewrite IH.
      * by rewrite <- app_assoc.
      * intros log' p Hp. apply Hok. by apply list_elem_of_further.
    + cbn. by apply IH.
Qed.
End patches.

(** C7. A window contains [v] exactly when [low <= v <= high], both ends
    included, and a version above the high end is outside.  When the [git
    apply] commands succeed, [apply_patches] runs one for every patch of the
    table whose window contains the version, all of them and in table order,
    and for no other patch.  2.7, 2.5 and 2.9 are inside the window 2.5–2.9
    and 2.10 is outside. *)
Theorem apply_patches_all_matching
    (basePath : string) (exits_zero : list command → command → bool)
    (glibcDir : string) (version : Version) (log : list command) :
  (∀ log' patch, patch ∈ matching patches_table version →
     exits_zero log' (git_apply basePath patch, glibcDir) = true) →
  apply_patches basePath exits_zero glibcDir version log
  = Ok (log ++ ((λ patch, (git_apply basePath patch, glibcDir))
                  <$> matching patches_table version)) ∧
  (∀ patch, patch ∈ matching patches_table version ↔
     ∃ lo hi, (patch, (lo, hi)) ∈ patches_table ∧
              Version_le lo version = true ∧ Version_le version hi = true) ∧
  (∀ lo hi, Version_le lo hi = true →
     in_window lo hi lo = true ∧ in_window lo hi hi = true) ∧
  (∀ lo hi v, Version_lt hi v = true → in_window lo hi v = false) ∧
  in_window (V2 2 5) (V2 2 9) (V2 2 7) = true ∧
  in_window (V2 2 5) (V2 2 9) (V2 2 10) = false ∧
  in_window (V2 2 5) (V2 2 9) (V2 2 5) = true ∧
  in_window (V2 2 5) (V2 2 9) (V2 2 9) = true.
Proof.
  intros Hok. split_and!; try done.
  - unfold apply_patches. by apply apply_matching_rules.
  - intros patch. rewrite elem_of_matching.
    by setoid_rewrite in_window_spec.
  - intros lo hi H. split; [by apply in_window_low | by apply in_window_high].
  - intros lo hi v. apply in_window_above.
Qed.

(** Version 2.8 with every command succeeding: five patches are applied. *)
Lemma apply_patches_all_matching_witness :
  (∀ (log' : list command) (patch : string),
     patch ∈ matching patches_table (V2 2 8) →
     (λ _ _, true) log' (git_apply "/src" patch, "/src/glibc") = true) ∧
  apply_patches "/src" (λ _ _, true) "/src/glibc" (V2 2 8) []
  = Ok [ (["git"; "apply"; "/src/patches/fix_obstack_compat.diff"], "/src/glibc");
         (["git"; "apply"; "/src/patches/no-pattern-rule-mixing.diff"], "/src/glibc");
         (["git"; "apply"; "/src/patches/fix_linker_failure.diff"], "/src/glibc");
         (["git"; "apply"; "/src/patches/remove_ctors_dtors.diff"], "/src/glibc");
         (["git"; "apply"; "/src/patches/fix_bad_version_checks_2.9.diff"], "/src/glibc") ].
Proof.
  split; [done|].
  pose proof (apply_patches_all_matching "/src" (λ _ _, true) "/src/glibc" (V2 2 8) []
                (λ _ _ _, eq_refl)) as [H _].
  exact H.
Defined.

(** ** The empty header *)

(** C10. For an empty table and an empty missing set the header is the two
    opening lines of the include guard, [#endif] and a final newline, and
    nothing else. *)
Theorem generate_header_string_empty :
  header_strings pthread_funcs_in_libc_so pthread_symbols_used_as_weak_in_libgcc
    pthread_symbols_used_as_weak_in_libstdcpp (elements (dom (∅ : gmap string string)))
    ∅ (elements (∅ : gset string))
  = [ "#if !defined(SET_GLIBC_LINK_VERSIONS_HEADER) && !defined(__ASSEMBLER__)";
      "#define SET_GLIBC_LINK_VERSIONS_HEADER";
      "#endif";
      "" ] ∧
  generate_header_string ∅ ∅
  = "#if !defined(SET_GLIBC_LINK_VERSIONS_HEADER) && !defined(__ASSEMBLER__)" +:+ Str.nl
    +:+ "#define SET_GLIBC_LINK_VERSIONS_HEADER" +:+ Str.nl
    +:+ "#endif" +:+ Str.nl.
Proof. split; vm_compute; reflexivity. Qed.

(** ** The global union and the missing sets *)

Lemma elem_of_allsyms_of (syms : gmap Version (gmap string string)) (x : string) :
  x ∈ allsyms_of syms ↔ ∃ v table, syms !! v = Some table ∧ x ∈ dom table.
Proof.
  unfold allsyms_of. rewrite elem_of_union_list. split.
  - intros (X & HX & Hx).
    apply list_elem_of_fmap in HX as (table & -> & Ht).
    apply list_elem_of_fmap in Ht as ([v table'] & -> & Hvt).
    apply elem_of_map_to_list in Hvt. by exists v, table'.
  - intros (v & table & Hv & Hx). exists (dom table). split; [|done].
    apply list_elem_of_fmap. exists table. split; [done|].
    apply list_elem_of_fmap. exists (v, table). split; [done|].
    by apply elem_of_map_to_list.
Qed.

Lemma elem_of_missingFuncs_of (allsyms : gset string) (table : gmap string string) x :
  x ∈ missingFuncs_of allsyms table ↔ x ∈ allsyms ∧ x ∉ dom table.
Proof. unfold missingFuncs_of. apply elem_of_difference. Qed.

Lemma allsyms_of_two (vA vB : Version) (tA tB : gmap string string) :
  vA ≠ vB → allsyms_of (<[vA := tA]> {[vB := tB]}) = dom tA ∪ dom tB.
Proof.
  intros Hne. apply set_eq. intros x. rewrite elem_of_allsyms_of, elem_of_union. split.
  - intros (v & t & Hv & Hx). apply lookup_insert_Some in Hv as [[<- <-]|[_ Hv]].
    + by left.
    + apply lookup_singleton_Some in Hv as [<- <-]. by right.
  - intros [Hx|Hx].
    + exists vA, tA. split; [apply lookup_insert_eq | done].
    + exists vB, tB. split; [|done].
      rewrite lookup_insert_ne by done. apply lookup_singleton_eq.
Qed.

(** C4. The missing set of a version is the union of the key sets of all
    the tables minus the keys of its own table, and [main] computes the union
    once and uses it for every version.  For the tables A = {foo, bar} and
    B = {foo} (with any version values) the union is {foo, bar}, nothing is
    missing from A and bar is missing from B. *)
Theorem missing_set_correct
    (syms : gmap Version (gmap string string)) (version : Version)
    (table : gmap string string) :
  syms !! version = Some table →
  (∀ x, x ∈ allsyms_of syms ↔ ∃ v t, syms !! v = Some t ∧ x ∈ dom t) ∧
  (∀ x, x ∈ missingFuncs_of (allsyms_of syms) table ↔
        (∃ v t, syms !! v = Some t ∧ x ∈ dom t) ∧ x ∉ dom table) ∧
  missingFuncs_of (allsyms_of syms) table ## dom table ∧
  missingFuncs_of (allsyms_of syms) table ∪ dom table = allsyms_of syms ∧
  (∀ path requested_versions,
     write_headers path syms requested_versions
     = (λ v, (path +:+ "/force_link_glibc_" +:+ version_as_str v +:+ ".h",
              generate_header_string (syms !!! v)
                (allsyms_of syms ∖ dom (syms !!! v)))) <$> requested_versions) ∧
  (∀ (vA vB : Version) (a b c : string), vA ≠ vB →
     let A : gmap string string := {[ "foo" := a; "bar" := b ]} in
     let B : gmap string string := {[ "foo" := c ]} in
     let both : gmap Version (gmap string string) := <[vA := A]> {[vB := B]} in
     allsyms_of both = {[ "foo"; "bar" ]} ∧
     missingFuncs_of (allsyms_of both) A = ∅ ∧
     missingFuncs_of (allsyms_of both) B = {[ "bar" ]}).
Proof.
  intros Hv. split_and!.
  - apply elem_of_allsyms_of.
  - intros x. by rewrite elem_of_missingFuncs_of, elem_of_allsyms_of.
  - apply elem_of_disjoint. intros x [_ Hx]%elem_of_missingFuncs_of. done.
  - apply set_eq. intros x. rewrite elem_of_union, elem_of_missingFuncs_of.
    split; [|destruct (decide (x ∈ dom table)); tauto].
    intros [[? _]|Hx]; [done|]. apply elem_of_allsyms_of. by exists version, table.
  - done.
  - intros vA vB a b c Hne A B both. unfold both. rewrite allsyms_of_two by done.
    unfold missingFuncs_of, A, B.
    rewrite !dom_insert_L, !dom_singleton_L, ?dom_empty_L.
    split_and!; set_solver.
Qed.

(** Versions 1.0 with {foo, bar} and 2.0 with {foo}. *)
Lemma missing_set_correct_witness :
  let A : gmap string string := {[ "foo" := "GLIBC_1.0"; "bar" := "GLIBC_1.0" ]} in
  let B : gmap string string := {[ "foo" := "GLIBC_2.0" ]} in
  let syms : gmap Version (gmap string string) := <[V2 1 0 := A]> {[V2 2 0 := B]} in
  syms !! V2 2 0 = Some B ∧
  ∀ x, x ∈ missingFuncs_of (allsyms_of syms) B ↔
       (∃ v t, syms !! v = Some t ∧ x ∈ dom t) ∧ x ∉ dom B.
Proof.
  intros A B syms.
  assert (H : syms !! V2 2 0 = Some B) by (vm_compute; reflexivity).
  split; [exact H|].
  exact (proj1 (proj2 (missing_set_correct syms (V2 2 0) B H))).
Defined.

(** ** Extraction: what reaches the merge *)

Lemma elem_of_exported_lines (files : folder_listing) version line :
  line ∈ exported_lines files version ↔
  ∃ f file_data, (f, file_data) ∈ files ∧ (basename f ∉ linker_scripts) ∧
                 line ∈ filter_file_data version f file_data.
Proof.
  unfold exported_lines. rewrite list_elem_of_join. split.
  - intros (l & Hl & Hin). apply list_elem_of_fmap in Hin as ([f d] & -> & Hfd).
    destruct (decide (basename f ∈ linker_scripts)); [by apply elem_of_nil in Hl|].
    by exists f, d.
  - intros (f & d & Hfd & Hskip & Hl). exists (filter_file_data version f d).
    split; [done|]. apply list_elem_of_fmap. exists (f, d).
    by rewrite decide_False.
Qed.

(** The first loop, from any [data]: it raises at the first object that is
    read and prints no word, and otherwise appends what the objects
    contribute. *)
Lemma collect_data_from (files : folder_listing) (version : Version) (data : list string) :
  for_each (λ data '(f, words),
              if decide (basename f ∈ linker_scripts) then Ok data
              else file_data ← check_output f words;
                   Ok (data ++ filter_file_data version f file_data))
           data files
  = match list_find wordless files with
    | Some (_, object) => Raise (CalledProcessError (readelf_command object.1))
    | None => Ok (data ++ exported_lines files version)
    end.
Proof.
  revert data. induction files as [|[f d] files IH]; intros data.
  - cbn. by rewrite app_nil_r.
  - cbn [for_each list_find]. unfold exported_lines. rewrite fmap_cons.
    change (mjoin (?a :: ?b)) with (a ++ mjoin b).
    destruct (decide (wordless (f, d))) as [[Hread Hd]|Hw]; cbn [fst snd] in *.
    + subst d. rewrite decide_False by done. unfold check_output.
      by rewrite decide_True.
    + destruct (decide (basename f ∈ linker_scripts)) as [Hskip|Hread].
      * cbn [mbind result_bind]. rewrite IH.
        by destruct (list_find wordless files) as [[? ?]|].
      * unfold check_output. rewrite decide_False by (intros ->; by apply Hw).
        cbn [mbind result_bind]. rewrite IH.
        destruct (list_find wordless files) as [[? ?]|]; cbn; [done|].
        by rewrite app_assoc.
Qed.

Lemma collect_data_eq (files : folder_listing) (version : Version) :
  collect_data files version
  = match list_find wordless files with
    | Some (_, object) => Raise (CalledProcessError (readelf_command object.1))
    | None => Ok (exported_lines files version)
    end.
Proof. unfold collect_data. by rewrite collect_data_from. Qed.

(** The first loop ends well exactly when every object that is read prints a
    word, and then returns the lines of these objects. *)
Lemma collect_data_Ok (files : folder_listing) (version : Version) (data : list string) :
  collect_data files version = Ok data ↔
  (∀ f, (f, []) ∈ files → basename f ∈ linker_scripts) ∧
  data = exported_lines files version.
Proof.
  rewrite collect_data_eq. destruct (list_find wordless files) as [[i [f d]]|] eqn:Hfind.
  - apply list_find_Some in Hfind as (Hi & [Hread Hd] & _). cbn in Hread, Hd. subst d.
    split; [done|]. intros [Hall _]. destruct Hread. apply Hall.
    by eapply list_elem_of_lookup_2.
  - rewrite list_find_None, Forall_forall in Hfind. split.
    + intros [= <-]. split; [|done]. intros f Hf.
      destruct (decide (basename f ∈ linker_scripts)) as [|Hread]; [done|].
      destruct (Hfind _ Hf). by split.
    + by intros [_ ->].
Qed.

Lemma collect_data_Raise (files : folder_listing) (version : Version) e :
  collect_data files version = Raise e →
  ∃ f, (f, []) ∈ files ∧ (basename f ∉ linker_scripts) ∧
       e = CalledProcessError (readelf_command f).
Proof.
  rewrite collect_data_eq. destruct (list_find wordless files) as [[i [f d]]|] eqn:Hfind;
    [|done].
  apply list_find_Some in Hfind as (Hi & [Hread Hd] & _). cbn in Hread, Hd. subst d.
  intros [= <-]. exists f. split_and!; [|done..]. by eapply list_elem_of_lookup_2.
Qed.

Lemma elem_of_collect_data (files : folder_listing) version data line :
  collect_data files version = Ok data →
  line ∈ data ↔
  ∃ f file_data, (f, file_data) ∈ files ∧ (basename f ∉ linker_scripts) ∧
                 line ∈ filter_file_data version f file_data.
Proof. intros [_ ->]%collect_data_Ok. apply elem_of_exported_lines. Qed.

(** The extraction is the merge of the lines that the first loop returns. *)
Lemma extract_Ok_data (folder : folder_listing) (version : Version) data :
  collect_data folder version = Ok data →
  extract_versions_from_installed_folder folder version = merge_data data.
Proof. unfold extract_versions_from_installed_folder. by intros ->. Qed.

Lemma extract_Ok (folder : folder_listing) (version : Version) syms :
  extract_versions_from_installed_folder folder version = Ok syms →
  ∃ data, collect_data folder version = Ok data ∧ merge_data data = Ok syms.
Proof.
  unfold extract_versions_from_installed_folder.
  destruct (collect_data folder version) as [data|e]; [|done]. eauto.
Qed.

Lemma starts_with_any_spec (x : string) (set : gset string) :
  starts_with_any x set = true ↔ ∃ item, item ∈ set ∧ Str.startswith x item = true.
Proof.
  unfold starts_with_any. rewrite existsb_exists.
  by setoid_rewrite <- list_elem_of_In; setoid_rewrite elem_of_elements.
Qed.

Lemma elem_of_moved_to_libc (name : string) :
  name ∈ moved_to_libc ↔
  name ∈ [ "clock_getcpuclockid"; "clock_nanosleep"; "clock_getres";
           "clock_settime"; "clock_gettime" ].
Proof. unfold moved_to_libc. set_solver. Qed.

Lemma filter_file_data_in_window version f file_data :
  in_window (V2 2 17) (V2 2 27) version = true →
  Str.startswith (basename f) "librt" = true →
  filter_file_data version f file_data
  = filter (λ x, negb (starts_with_any x moved_to_libc)) file_data.
Proof. unfold filter_file_data, in_window. by intros -> ->. Qed.

Lemma filter_file_data_outside version f file_data :
  in_window (V2 2 17) (V2 2 27) version = false →
  filter_file_data version f file_data = file_data.
Proof. unfold filter_file_data, in_window. by intros ->. Qed.

Lemma filter_file_data_other_object version f file_data :
  Str.startswith (basename f) "librt" = false →
  filter_file_data version f file_data = file_data.
Proof. unfold filter_file_data. intros ->. by destruct (_ && _). Qed.

(** C3. For a version in 2.17–2.27 an object whose file name starts with
    [librt] contributes only the lines that start with none of the five
    clock names; every other object, and every object for a version outside
    the window, contributes all its lines; what reaches the merge, when every
    object that is read prints a word, is what the objects that are read
    contribute.  So at 2.20 [clock_gettime]
    exported by libc and by librt gives a table of one entry (the libc one)
    and no error, while at 2.16 and at 2.28 the same folder is a conflict. *)
Theorem librt_clock_exclusion (version : Version) (f : string) (file_data : list string) :
  (in_window (V2 2 17) (V2 2 27) version = true →
   Str.startswith (basename f) "librt" = true →
   filter_file_data version f file_data
   = filter (λ x, negb (starts_with_any x moved_to_libc)) file_data ∧
   ∀ x, x ∈ filter_file_data version f file_data ↔
        x ∈ file_data ∧
        ¬ ∃ name, name ∈ [ "clock_getcpuclockid"; "clock_nanosleep"; "clock_getres";
                           "clock_settime"; "clock_gettime" ] ∧
                  Str.startswith x name = true) ∧
  (in_window (V2 2 17) (V2 2 27) version = false →
   filter_file_data version f file_data = file_data) ∧
  (Str.startswith (basename f) "librt" = false →
   filter_file_data version f file_data = file_data) ∧
  (∀ files data,
     collect_data files version = Ok data →
     ∀ line,
       line ∈ data ↔
       ∃ f' file_data', (f', file_data') ∈ files ∧ (basename f' ∉ linker_scripts) ∧
                        line ∈ filter_file_data version f' file_data') ∧
  (∀ files,
     (∀ f', (f', []) ∈ files → basename f' ∈ linker_scripts) →
     ∃ data, collect_data files version = Ok data) ∧
  let folder := [ ("/install/lib/libc-2.20.so", ["clock_gettime@@GLIBC_2.17"]);
                  ("/install/lib/librt-2.20.so", ["clock_gettime@@GLIBC_2.2.5"]) ] in
  extract_versions_from_installed_folder folder (V2 2 20)
  = Ok {[ "clock_gettime" := "GLIBC_2.17" ]} ∧
  extract_versions_from_installed_folder folder (V2 2 28)
  = Raise (DuplicateVersions ["clock_gettime@@GLIBC_2.2.5"]) ∧
  extract_versions_from_installed_folder folder (V2 2 16)
  = Raise (DuplicateVersions ["clock_gettime@@GLIBC_2.2.5"]).
Proof.
  split_and!.
  - intros Hw Hrt. split; [by apply filter_file_data_in_window|].
    intros x. rewrite filter_file_data_in_window by done.
    rewrite list_elem_of_filter, negb_True, Is_true_true, starts_with_any_spec.
    setoid_rewrite elem_of_moved_to_libc. tauto.
  - apply filter_file_data_outside.
  - apply filter_file_data_other_object.
  - intros files data Hdata line. by apply elem_of_collect_data.
  - intros files Hwords. exists (exported_lines files version). by apply collect_data_Ok.
  - intros folder. split_and!; vm_compute; reflexivity.
Qed.

(** librt at 2.20: of its two lines only the one outside the clock family
    remains. *)
Lemma librt_clock_exclusion_witness :
  in_window (V2 2 17) (V2 2 27) (V2 2 20) = true ∧
  Str.startswith (basename "/install/lib/librt-2.20.so") "librt" = true ∧
  filter_file_data (V2 2 20) "/install/lib/librt-2.20.so"
    ["clock_gettime@@GLIBC_2.2.5"; "timer_create@@GLIBC_2.3.3"]
  = filter (λ x, negb (starts_with_any x moved_to_libc))
      ["clock_gettime@@GLIBC_2.2.5"; "timer_create@@GLIBC_2.3.3"].
Proof.
  assert (Hw : in_window (V2 2 17) (V2 2 27) (V2 2 20) = true) by reflexivity.
  assert (Hrt : Str.startswith (basename "/install/lib/librt-2.20.so") "librt" = true)
    by reflexivity.
  split_and!; [exact Hw | exact Hrt |].
  exact (proj1 (proj1 (librt_clock_exclusion (V2 2 20) "/install/lib/librt-2.20.so"
                         ["clock_gettime@@GLIBC_2.2.5"; "timer_create@@GLIBC_2.3.3"])
                  Hw Hrt)).
Defined.

(** ** Extraction: the merge *)

Lemma bind_Ok {A B} (a : A) (k : A → result B) : Ok a ≫= k = k a.
Proof. done. Qed.

Lemma merge_line_parsed syms dupes line sym ver :
  parsed line = Some (sym, ver) →
  merge_line (syms, dupes) line
  = match syms !! sym with
    | None => Ok (<[sym := ver]> syms, dupes)
    | Some v => if decide (v ≠ ver) then Ok (syms, dupes ++ [line]) else Ok (syms, dupes)
    end.
Proof.
  unfold parsed, merge_line.
  destruct (Str.split "@@" line) as [|a [|b [|c l]]]; intros [=]; by subst.
Qed.

Lemma merge_line_malformed st line :
  parsed line = None → merge_line st line = Raise ValueError.
Proof.
  unfold parsed, merge_line. destruct st as [syms dupes].
  by destruct (Str.split "@@" line) as [|a [|b [|c l]]].
Qed.

Lemma parsed_None_iff line : parsed line = None ↔ length (Str.split "@@" line) ≠ 2%nat.
Proof.
  unfold parsed. destruct (Str.split "@@" line) as [|a [|b [|c l]]]; cbn; split;
    (done || lia || congruence).
Qed.

(** The loop stops with [ValueError] at the first line that does not
    unpack. *)
Lemma merge_loop_malformed st data line :
  line ∈ data → parsed line = None →
  for_each merge_line st data = Raise ValueError.
Proof.
  revert st. induction data as [|l data IH]; intros st Hin Hp.
  - by apply elem_of_nil in Hin.
  - cbn [for_each]. destruct (parsed l) as [[sym ver]|] eqn:Hl.
    + destruct st as [syms dupes]. rewrite (merge_line_parsed _ _ _ _ _ Hl).
      apply elem_of_cons in Hin as [->|Hin]; [congruence|].
      destruct (syms !! sym); [destruct (decide _)|]; rewrite bind_Ok; by apply IH.
    + by rewrite merge_line_malformed.
Qed.

(** The loop on lines that all unpack: the table keeps the first version of
    every name, and [dupes] grows by the lines that disagree with it, in
    order. *)
Lemma merge_loop_parsed syms dupes data :
  Forall (λ line, is_Some (parsed line)) data →
  ∃ syms', for_each merge_line (syms, dupes) data
           = Ok (syms', dupes ++ filter (disagrees syms data) data) ∧
           ∀ sym, syms' !! sym = known syms data sym.
Proof.
  revert syms dupes. induction data as [|l data IH]; intros syms dupes Hall.
  - exists syms. split; [cbn; by rewrite app_nil_r|].
    intros sym. unfold known. by destruct (syms !! sym).
  - apply Forall_cons in Hall as [[[sym ver] Hl] Hall].
    cbn [for_each]. rewrite (merge_line_parsed _ _ _ _ _ Hl).
    destruct (syms !! sym) as [v|] eqn:Hsym.
    + assert (Hk : ∀ s, known syms (l :: data) s = known syms data s).
      { intros s. unfold known. destruct (syms !! s) eqn:Hs; [done|].
        cbn. rewrite Hl. destruct (decide (sym = s)) as [->|]; [congruence|done]. }
      assert (Hf : filter (disagrees syms (l :: data)) data
                   = filter (disagrees syms data) data).
      { apply list_filter_iff. intros x. unfold disagrees.
        destruct (parsed x) as [[s w]|]; [by rewrite Hk|done]. }
      assert (Hd : disagrees syms (l :: data) l ↔ v ≠ ver).
      { unfold disagrees. rewrite Hl. unfold known. rewrite Hsym.
        split; congruence. }
      destruct (decide (v ≠ ver)) as [Hne|Heq]; rewrite bind_Ok.
      * destruct (IH syms (dupes ++ [l]) Hall) as (syms' & -> & Hsyms').
        exists syms'. split; [|intros s; by rewrite Hsyms', Hk].
        rewrite filter_cons_True by by apply Hd.
        by rewrite Hf, <- app_assoc.
      * destruct (IH syms dupes Hall) as (syms' & -> & Hsyms').
        exists syms'. split; [|intros s; by rewrite Hsyms', Hk].
        rewrite filter_cons_False by (rewrite Hd; done).
        by rewrite Hf.
    + assert (Hk : ∀ s, known syms (l :: data) s = known (<[sym := ver]> syms) data s).
      { intros s. unfold known. cbn. rewrite Hl.
        destruct (decide (sym = s)) as [->|Hne].
        - by rewrite Hsym, lookup_insert_eq.
        - by rewrite lookup_insert_ne. }
      assert (Hf : filter (disagrees syms (l :: data)) data
                   = filter (disagrees (<[sym := ver]> syms) data) data).
      { apply list_filter_iff. intros x. unfold disagrees.
        destruct (parsed x) as [[s w]|]; [by rewrite Hk|done]. }
      rewrite bind_Ok.
      destruct (IH (<[sym := ver]> syms) dupes Hall) as (syms' & -> & Hsyms').
      exists syms'. split; [|intros s; by rewrite Hsyms', Hk].
      rewrite filter_cons_False; [by rewrite Hf|].
      unfold disagrees. rewrite Hl, Hk. unfold known. rewrite lookup_insert_eq.
      by intros [].
Qed.

Lemma first_version_Some data sym ver :
  first_version data sym = Some ver →
  ∃ line, line ∈ data ∧ parsed line = Some (sym, ver).
Proof.
  induction data as [|l data IH]; [done|]. cbn.
  destruct (parsed l) as [[s w]|] eqn:Hl.
  - destruct (decide (s = sym)) as [->|].
    + intros [= ->]. exists l. split; [apply list_elem_of_here | done].
    + intros (line & Hin & Hp)%IH. exists line. split; [by apply list_elem_of_further|done].
  - intros (line & Hin & Hp)%IH. exists line. split; [by apply list_elem_of_further|done].
Qed.

Lemma first_version_is_Some data line sym ver :
  line ∈ data → parsed line = Some (sym, ver) → is_Some (first_version data sym).
Proof.
  induction data as [|l data IH]; intros Hin Hp; [by apply elem_of_nil in Hin|].
  cbn. apply elem_of_cons in Hin as [<-|Hin].
  - rewrite Hp. by rewrite decide_True.
  - destruct (parsed l) as [[s w]|]; [destruct (decide (s = sym))|]; eauto.
Qed.

Lemma elem_of_disagreeing data line :
  line ∈ filter (disagrees ∅ data) data ↔
  line ∈ data ∧ ∃ sym ver, parsed line = Some (sym, ver) ∧ first_version data sym ≠ Some ver.
Proof.
  rewrite list_elem_of_filter. unfold disagrees, known.
  destruct (parsed line) as [[s w]|]; rewrite ?lookup_empty.
  - split.
    + intros [H1 H2]. split; [done|]. by exists s, w.
    + intros [H1 (s' & w' & [= <- <-] & H2)]. done.
  - split; [by intros [[] _]|]. by intros [_ (s' & w' & [=] & _)].
Qed.

Lemma disagreeing_iff_conflict data :
  filter (disagrees ∅ data) data ≠ [] ↔ conflict data.
Proof.
  split.
  - intros Hne. destruct (filter _ data) as [|line rest] eqn:Hf; [done|].
    assert (Hin : line ∈ filter (disagrees ∅ data) data)
      by (rewrite Hf; apply list_elem_of_here).
    apply elem_of_disagreeing in Hin as (Hin & sym & ver & Hp & Hfirst).
    destruct (first_version_is_Some _ _ _ _ Hin Hp) as [ver' Hv].
    destruct (first_version_Some _ _ _ Hv) as (line' & Hin' & Hp').
    exists line', line, sym, ver', ver. split_and!; try done. congruence.
  - intros (l1 & l2 & sym & v1 & v2 & Hin1 & Hin2 & Hp1 & Hp2 & Hne) Hnil.
    destruct (first_version_is_Some _ _ _ _ Hin1 Hp1) as [ver Hv].
    assert (H1 : l1 ∉ filter (disagrees ∅ data) data)
      by (rewrite Hnil; apply not_elem_of_nil).
    assert (H2 : l2 ∉ filter (disagrees ∅ data) data)
      by (rewrite Hnil; apply not_elem_of_nil).
    rewrite elem_of_disagreeing in H1, H2.
    destruct (decide (ver = v1)) as [->|Hv1].
    + apply H2. split; [done|]. exists sym, v2. split; [done|]. congruence.
    + apply H1. split; [done|]. exists sym, v1. split; [done|]. congruence.
Qed.

Lemma merge_data_parsed data :
  Forall (λ line, is_Some (parsed line)) data →
  ∃ syms, (∀ sym, syms !! sym = first_version data sym) ∧
          merge_data data
          = if decide (filter (disagrees ∅ data) data ≠ [])
            then Raise (DuplicateVersions (filter (disagrees ∅ data) data))
            else Ok syms.
Proof.
  intros Hall. unfold merge_data.
  destruct (merge_loop_parsed ∅ [] data Hall) as (syms & -> & Hsyms).
  exists syms. split; [|by rewrite bind_Ok].
  intros sym. rewrite Hsyms. unfold known. by rewrite lookup_empty.
Qed.

(** A word with two separators, which the pattern of [grep] lets through:
    the merge raises [ValueError] although no name occurs with two versions;
    and after a conflict the same word replaces the list of the conflicting
    lines by [ValueError]. *)
Lemma malformed_line_is_no_conflict :
  let folder := [ ("/install/lib/liba.so", ["a@@b@@GLIBC_2.0"]) ] in
  let data := ["a@@b@@GLIBC_2.0"] in
  collect_data folder (V2 2 28) = Ok data ∧
  Str.split "@@" "a@@b@@GLIBC_2.0" = ["a"; "b"; "GLIBC_2.0"] ∧
  merge_data data = Raise ValueError ∧
  extract_versions_from_installed_folder folder (V2 2 28) = Raise ValueError ∧
  ¬ conflict data ∧
  conflict ["foo@@1.0"; "foo@@2.0"; "a@@b@@GLIBC_2.0"] ∧
  merge_data ["foo@@1.0"; "foo@@2.0"; "a@@b@@GLIBC_2.0"] = Raise ValueError ∧
  ¬ (∀ folder version data,
       collect_data folder version = Ok data →
       (∃ e, extract_versions_from_installed_folder folder version = Raise e) ↔
       conflict data).
Proof.
  intros folder data.
  assert (Hdata : collect_data folder (V2 2 28) = Ok data) by (vm_compute; reflexivity).
  assert (Hraise : extract_versions_from_installed_folder folder (V2 2 28)
                   = Raise ValueError) by (vm_compute; reflexivity).
  assert (Hnone : ¬ conflict data).
  { intros (line1 & line2 & sym & ver1 & ver2 & H1 & _ & Hp & _).
    apply list_elem_of_singleton in H1 as ->. vm_compute in Hp. discriminate Hp. }
  split_and!.
  - exact Hdata.
  - vm_compute. reflexivity.
  - vm_compute. reflexivity.
  - exact Hraise.
  - exact Hnone.
  - exists "foo@@1.0", "foo@@2.0", "foo", "1.0", "2.0". split_and!.
    + apply list_elem_of_here.
    + apply list_elem_of_further, list_elem_of_here.
    + vm_compute. reflexivity.
    + vm_compute. reflexivity.
    + discriminate.
  - vm_compute. reflexivity.
  - intros Hclaim. apply Hnone. apply (Hclaim folder (V2 2 28) data Hdata). eauto.
Qed.

(** C2, as the code has it.  Let [data] be the lines that the first loop
    returns: those left after the linker scripts are skipped and the librt
    exclusion is applied.  When each of them unpacks into a name and a
    version, the extraction raises exactly when some name occurs in [data]
    with two different versions.  The exception then carries, in order, every
    line whose version differs from the first version seen for its name (all
    of them, not only the first one found); otherwise the table is returned,
    and it holds for each name the one version it occurs with, however often
    its line is repeated.  When some line does not unpack, the extraction
    raises [ValueError], with or without a conflict.  An exception never comes
    with a table. *)
Theorem merge_conflict_policy
    (folder : folder_listing) (version : Version) (data : list string) :
  collect_data folder version = Ok data →
  let dupes := filter (disagrees ∅ data) data in
  extract_versions_from_installed_folder folder version = merge_data data ∧
  (Forall (λ line, is_Some (parsed line)) data →
   ((∃ e, extract_versions_from_installed_folder folder version = Raise e) ↔
    conflict data) ∧
   (conflict data →
    extract_versions_from_installed_folder folder version
    = Raise (DuplicateVersions dupes) ∧ dupes ≠ []) ∧
   (¬ conflict data →
    ∃ syms, extract_versions_from_installed_folder folder version = Ok syms ∧
            ∀ sym, syms !! sym = first_version data sym)) ∧
  (¬ Forall (λ line, is_Some (parsed line)) data →
   extract_versions_from_installed_folder folder version = Raise ValueError) ∧
  (∀ line, line ∈ dupes ↔
           line ∈ data ∧
           ∃ sym ver, parsed line = Some (sym, ver) ∧ first_version data sym ≠ Some ver) ∧
  merge_data ["foo@@1.0"; "foo@@2.0"] = Raise (DuplicateVersions ["foo@@2.0"]) ∧
  merge_data ["foo@@1.0"; "bar@@1.0"; "foo@@2.0"; "bar@@3.0"; "foo@@1.0"; "foo@@3.0"]
  = Raise (DuplicateVersions ["foo@@2.0"; "bar@@3.0"; "foo@@3.0"]) ∧
  merge_data ["foo@@1.0"; "foo@@1.0"] = Ok {[ "foo" := "1.0" ]}.
Proof.
  intros Hdata dupes. rewrite (extract_Ok_data _ _ _ Hdata).
  pose proof (disagreeing_iff_conflict data) as Hc. fold dupes in Hc.
  split_and!.
  - done.
  - intros Hall. destruct (merge_data_parsed data Hall) as (syms & Hsyms & Hm).
    fold dupes in Hm. split_and!.
    + rewrite Hm. destruct (decide (dupes ≠ [])) as [Hd|Hd].
      * split; [intros _; by apply Hc | intros _; eauto].
      * split; [by intros [e [=]] | intros Hcf; by apply Hc in Hcf].
    + intros Hcf%Hc. by rewrite Hm, decide_True.
    + intros Hcf. exists syms. split; [|done].
      rewrite Hm, decide_False; [done|]. by rewrite Hc.
  - intros Hnot. apply not_Forall_Exists in Hnot; [|apply _].
    apply Exists_exists in Hnot as (line & Hin & Hline).
    unfold merge_data. rewrite (merge_loop_malformed _ _ line); [done|done|].
    cbn in Hline. destruct (parsed line); [|done]. destruct Hline. eauto.
  - intros line. apply elem_of_disagreeing.
  - vm_compute. reflexivity.
  - vm_compute. reflexivity.
  - vm_compute. reflexivity.
Qed.

(** Two objects that export [foo] at different versions. *)
Lemma merge_conflict_policy_witness :
  let folder := [ ("/install/lib/liba.so", ["foo@@1.0"]);
                  ("/install/lib/libb.so", ["foo@@2.0"]) ] in
  collect_data folder (V2 2 20) = Ok ["foo@@1.0"; "foo@@2.0"] ∧
  extract_versions_from_installed_folder folder (V2 2 20)
  = Raise (DuplicateVersions ["foo@@2.0"]).
Proof.
  intros folder.
  assert (H : collect_data folder (V2 2 20) = Ok ["foo@@1.0"; "foo@@2.0"])
    by (vm_compute; reflexivity).
  split; [exact H|].
  destruct (merge_conflict_policy folder (V2 2 20) _ H) as (_ & Hparsed & _).
  assert (Hall : Forall (λ line, is_Some (parsed line)) ["foo@@1.0"; "foo@@2.0"]).
  { repeat constructor; vm_compute; eauto. }
  destruct (Hparsed Hall) as (_ & Hraise & _).
  refine (proj1 (Hraise _)).
  exists "foo@@1.0", "foo@@2.0", "foo", "1.0", "2.0".
  split_and!.
  - apply list_elem_of_here.
  - apply list_elem_of_further, list_elem_of_here.
  - vm_compute. reflexivity.
  - vm_compute. reflexivity.
  - discriminate.
Defined.

(** ** Extraction: lines that do not unpack *)

(** A line of a clock function in librt that does not unpack (it has two
    separators): at 2.20 it is dropped before the merge, and the extraction
    returns a table, the empty one. *)
Lemma malformed_line_dropped_by_exclusion :
  let f := "/install/lib/librt-2.20.so" in
  let line := "clock_gettime@@GLIBC_2.2.5@@GLIBC_2.17" in
  let folder := [ (f, [line]) ] in
  (f, [line]) ∈ folder ∧ line ∈ [line] ∧ (basename f ∉ linker_scripts) ∧
  Str.split "@@" line = ["clock_gettime"; "GLIBC_2.2.5"; "GLIBC_2.17"] ∧
  parsed line = None ∧
  extract_versions_from_installed_folder folder (V2 2 20) = Ok ∅ ∧
  ¬ (∀ folder version f file_data line,
       (f, file_data) ∈ folder → basename f ∉ linker_scripts → line ∈ file_data →
       length (Str.split "@@" line) ≠ 2%nat →
       ∃ e, extract_versions_from_installed_folder folder version = Raise e).
Proof.
  intros f line folder.
  assert (Hf : (f, [line]) ∈ folder) by apply list_elem_of_here.
  assert (Hl : line ∈ [line]) by apply list_elem_of_here.
  assert (Hs : basename f ∉ linker_scripts)
    by (apply (bool_decide_unpack _); vm_compute; exact I).
  assert (Hr : extract_versions_from_installed_folder folder (V2 2 20) = Ok ∅)
    by (vm_compute; reflexivity).
  assert (Hn : length (Str.split "@@" line) ≠ 2%nat) by (vm_compute; lia).
  split_and!.
  - exact Hf.
  - exact Hl.
  - exact Hs.
  - vm_compute. reflexivity.
  - vm_compute. reflexivity.
  - exact Hr.
  - intros Hclaim.
    destruct (Hclaim folder (V2 2 20) f [line] line Hf Hs Hl Hn) as [e He].
    rewrite Hr in He. discriminate He.
Qed.

(** C8, as the code has it.  A line that reaches the merge (it comes from an
    object that is not one of the linker scripts and is not dropped by the
    librt exclusion) and does not unpack into exactly a name and a version
    makes the extraction raise; no table is returned, whatever the other
    lines are.  The exception is the [ValueError] of the unpacking, also when
    names conflict; unless an object that is read prints no word: then the
    first loop has raised the [CalledProcessError] of that object before any
    line is unpacked. *)
Theorem malformed_line_is_fatal
    (folder : folder_listing) (version : Version)
    (f : string) (file_data : list string) (line : string) :
  (f, file_data) ∈ folder →
  basename f ∉ linker_scripts →
  line ∈ filter_file_data version f file_data →
  length (Str.split "@@" line) ≠ 2%nat →
  (∃ e, extract_versions_from_installed_folder folder version = Raise e) ∧
  ((∀ f', (f', []) ∈ folder → basename f' ∈ linker_scripts) →
   extract_versions_from_installed_folder folder version = Raise ValueError) ∧
  (∀ e, extract_versions_from_installed_folder folder version = Raise e →
        e = ValueError ∨
        ∃ f', (f', []) ∈ folder ∧ (basename f' ∉ linker_scripts) ∧
              e = CalledProcessError (readelf_command f')) ∧
  extract_versions_from_installed_folder
    [ ("/install/lib/libc-2.20.so", ["read@@GLIBC_2.2.5"; "write"]);
      ("/install/lib/gconv/BIG5.so", []) ] (V2 2 20)
  = Raise (CalledProcessError
             [ "/bin/bash"; "-c";
               "set -o pipefail; readelf -Ws '/install/lib/gconv/BIG5.so' | grep "
                 +:+ Str.dq +:+ " [^ ]*@@GLIBC_[0-9.]*$" +:+ Str.dq +:+ " -o" ]).
Proof.
  intros Hf Hskip Hline Hbad.
  assert (Hmerge : ∀ data, collect_data folder version = Ok data →
            extract_versions_from_installed_folder folder version = Raise ValueError).
  { intros data Hdata. rewrite (extract_Ok_data _ _ _ Hdata). unfold merge_data.
    rewrite (merge_loop_malformed _ _ line); [done| |by apply parsed_None_iff].
    apply (elem_of_collect_data _ _ _ _ Hdata). by exists f, file_data. }
  split_and!.
  - destruct (collect_data folder version) as [data|e] eqn:Hdata; [by eauto|].
    exists e. unfold extract_versions_from_installed_folder. by rewrite Hdata.
  - intros Hwords. apply (Hmerge (exported_lines folder version)).
    by apply collect_data_Ok.
  - intros e He. destruct (collect_data folder version) as [data|e'] eqn:Hdata.
    + left. rewrite (Hmerge _ eq_refl) in He. by injection He as <-.
    + right. unfold extract_versions_from_installed_folder in He. rewrite Hdata in He.
      injection He as <-. by apply (collect_data_Raise folder version).
  - vm_compute. reflexivity.
Qed.

(** libc exporting a word without any separator. *)
Lemma malformed_line_is_fatal_witness :
  let f := "/install/lib/libc-2.20.so" in
  let folder := [ (f, ["read@@GLIBC_2.2.5"; "write"]) ] in
  (f, ["read@@GLIBC_2.2.5"; "write"]) ∈ folder ∧
  (basename f ∉ linker_scripts) ∧
  "write" ∈ filter_file_data (V2 2 20) f ["read@@GLIBC_2.2.5"; "write"] ∧
  length (Str.split "@@" "write") ≠ 2%nat ∧
  extract_versions_from_installed_folder folder (V2 2 20) = Raise ValueError.
Proof.
  intros f folder.
  assert (H1 : (f, ["read@@GLIBC_2.2.5"; "write"]) ∈ folder) by apply list_elem_of_here.
  assert (H2 : basename f ∉ linker_scripts)
    by (apply (bool_decide_unpack _); vm_compute; exact I).
  assert (H3 : "write" ∈ filter_file_data (V2 2 20) f ["read@@GLIBC_2.2.5"; "write"])
    by (apply (bool_decide_unpack _); vm_compute; exact I).
  assert (H4 : length (Str.split "@@" "write") ≠ 2%nat) by (vm_compute; lia).
  split_and!; [exact H1 | exact H2 | exact H3 | exact H4 |].
  apply (proj1 (proj2 (malformed_line_is_fatal folder (V2 2 20) f _ "write" H1 H2 H3 H4))).
  intros f' Hf'. apply list_elem_of_singleton in Hf'. discriminate Hf'.
Defined.

(** ** Header synthesis: the order of the bindings *)

Lemma sorted_Permutation (xs : list string) : Str.sorted xs ≡ₚ xs.
Proof. apply merge_sort_Permutation. Qed.

Lemma sorted_Sorted (xs : list string) : Sorted String.le (Str.sorted xs).
Proof. apply (Sorted_merge_sort String.le). Qed.

(** Sorting forgets the order in which the elements arrive. *)
Lemma sorted_order_irrelevant (xs ys : list string) :
  xs ≡ₚ ys → Str.sorted xs = Str.sorted ys.
Proof.
  intros Hp. apply (Sorted_unique String.le); [apply sorted_Sorted..|].
  by rewrite !sorted_Permutation.
Qed.

Lemma elem_of_sorted (xs : list string) (x : string) : x ∈ Str.sorted xs ↔ x ∈ xs.
Proof. by rewrite sorted_Permutation. Qed.

Lemma NoDup_sorted (xs : list string) : NoDup xs → NoDup (Str.sorted xs).
Proof. by rewrite sorted_Permutation. Qed.

Lemma foldl_append {A B} (f : A → B) (acc : list B) (xs : list A) :
  foldl (λ strings x, strings ++ [f x]) acc xs = acc ++ (f <$> xs).
Proof.
  revert acc. induction xs as [|x xs IH]; intros acc; cbn.
  - by rewrite app_nil_r.
  - by rewrite IH, <- app_assoc.
Qed.

Section header_facts.
Context (libc_so weak_in_libgcc weak_in_libstdcpp : gset string).

Local Abbreviation guard := (guard_line libc_so weak_in_libgcc weak_in_libstdcpp).
Local Abbreviation strings_of :=
  (header_strings libc_so weak_in_libgcc weak_in_libstdcpp).

(** The two loops, read as maps over the sorted names. *)
Lemma header_strings_eq (keys : list string) (syms : gmap string string)
    (missing : list string) :
  strings_of keys syms missing
  = [ "#if !defined(SET_GLIBC_LINK_VERSIONS_HEADER) && !defined(__ASSEMBLER__)";
      "#define SET_GLIBC_LINK_VERSIONS_HEADER" ]
    ++ ((λ sym, guard sym (symver_line sym (syms !!! sym))) <$> Str.sorted keys)
    ++ (poison_line <$> Str.sorted missing)
    ++ [ "#endif"; "" ].
Proof.
  unfold header_strings. rewrite !foldl_append.
  by rewrite <- !app_assoc.
Qed.

Lemma header_strings_order_irrelevant keys1 keys2 syms missing1 missing2 :
  keys1 ≡ₚ keys2 → missing1 ≡ₚ missing2 →
  strings_of keys1 syms missing1 = strings_of keys2 syms missing2.
Proof.
  intros Hk Hm. rewrite !header_strings_eq.
  by rewrite (sorted_order_irrelevant _ _ Hk), (sorted_order_irrelevant _ _ Hm).
Qed.
End header_facts.

(** C5. The header is a function of the table and of the missing set alone:
    in whatever order the keys of the table and the elements of the set are
    enumerated, the strings are the same, because both loops run over the
    sorted names.  The pinned bindings come first, in ascending order of
    their names without repetition, then the poison bindings, in ascending
    order of theirs. *)
Theorem header_deterministic
    (syms : gmap string string) (missingFuncs : gset string)
    (keys1 keys2 missing1 missing2 : list string) :
  keys1 ≡ₚ elements (dom syms) → keys2 ≡ₚ elements (dom syms) →
  missing1 ≡ₚ elements missingFuncs → missing2 ≡ₚ elements missingFuncs →
  let header keys missing :=
    Str.join Str.nl
      (header_strings pthread_funcs_in_libc_so pthread_symbols_used_as_weak_in_libgcc
         pthread_symbols_used_as_weak_in_libstdcpp keys syms missing) in
  header keys1 missing1 = header keys2 missing2 ∧
  header keys1 missing1 = generate_header_string syms missingFuncs ∧
  ∃ ks ms,
    generate_header_string syms missingFuncs
    = Str.join Str.nl
        ([ "#if !defined(SET_GLIBC_LINK_VERSIONS_HEADER) && !defined(__ASSEMBLER__)";
           "#define SET_GLIBC_LINK_VERSIONS_HEADER" ]
         ++ ((λ sym, guard_line pthread_funcs_in_libc_so
                       pthread_symbols_used_as_weak_in_libgcc
                       pthread_symbols_used_as_weak_in_libstdcpp
                       sym (symver_line sym (syms !!! sym))) <$> ks)
         ++ (poison_line <$> ms)
         ++ [ "#endif"; "" ]) ∧
    Sorted String.le ks ∧ NoDup ks ∧ (∀ sym, sym ∈ ks ↔ sym ∈ dom syms) ∧
    Sorted String.le ms ∧ NoDup ms ∧ (∀ sym, sym ∈ ms ↔ sym ∈ missingFuncs).
Proof.
  intros Hk1 Hk2 Hm1 Hm2 header. split_and!.
  - unfold header. f_equal. apply header_strings_order_irrelevant.
    + by rewrite Hk1, Hk2.
    + by rewrite Hm1, Hm2.
  - unfold header, generate_header_string, generate_header_string_with. f_equal.
    by apply header_strings_order_irrelevant.
  - exists (Str.sorted (elements (dom syms))), (Str.sorted (elements missingFuncs)).
    split_and!.
    + unfold generate_header_string, generate_header_string_with.
      by rewrite header_strings_eq.
    + apply sorted_Sorted.
    + apply NoDup_sorted, NoDup_elements.
    + intros sym. by rewrite elem_of_sorted, elem_of_elements.
    + apply sorted_Sorted.
    + apply NoDup_sorted, NoDup_elements.
    + intros sym. by rewrite elem_of_sorted, elem_of_elements.
Qed.

(** A table of two names and a missing set of two, each enumerated in two
    orders. *)
Lemma header_deterministic_witness :
  let syms : gmap string string := {[ "read" := "GLIBC_2.2.5"; "open" := "GLIBC_2.2.5" ]} in
  let missingFuncs : gset string := {[ "write"; "close" ]} in
  let header keys missing :=
    Str.join Str.nl
      (header_strings pthread_funcs_in_libc_so pthread_symbols_used_as_weak_in_libgcc
         pthread_symbols_used_as_weak_in_libstdcpp keys syms missing) in
  ["read"; "open"] ≡ₚ elements (dom syms) ∧ ["open"; "read"] ≡ₚ elements (dom syms) ∧
  ["write"; "close"] ≡ₚ elements missingFuncs ∧
  ["close"; "write"] ≡ₚ elements missingFuncs ∧
  header ["read"; "open"] ["write"; "close"] = header ["open"; "read"] ["close"; "write"].
Proof.
  intros syms missingFuncs header.
  assert (H1 : ["read"; "open"] ≡ₚ elements (dom syms)).
  { vm_compute. first [reflexivity | apply perm_swap]. }
  assert (H2 : ["open"; "read"] ≡ₚ elements (dom syms)).
  { vm_compute. first [reflexivity | apply perm_swap]. }
  assert (H3 : ["write"; "close"] ≡ₚ elements missingFuncs).
  { vm_compute. first [reflexivity | apply perm_swap]. }
  assert (H4 : ["close"; "write"] ≡ₚ elements missingFuncs).
  { vm_compute. first [reflexivity | apply perm_swap]. }
  split_and!; [exact H1 | exact H2 | exact H3 | exact H4 |].
  exact (proj1 (header_deterministic syms missingFuncs _ _ _ _ H1 H2 H3 H4)).
Defined.

(** ** Header synthesis: the guards *)

(** The binding of [pthread_once], a member of both weak-use sets, in a
    header for a version that lacks it: the poison line stands directly
    between the opening lines and [#endif], and the header has none of the
    three guard lines. *)
Lemma poison_binding_has_no_guard :
  let header := generate_header_string ∅ {[ "pthread_once" ]} in
  "pthread_once" ∈ pthread_symbols_used_as_weak_in_libgcc ∧
  "pthread_once" ∈ pthread_symbols_used_as_weak_in_libstdcpp ∧
  header
  = "#if !defined(SET_GLIBC_LINK_VERSIONS_HEADER) && !defined(__ASSEMBLER__)" +:+ Str.nl
    +:+ "#define SET_GLIBC_LINK_VERSIONS_HEADER" +:+ Str.nl
    +:+ "__asm__(" +:+ Str.dq
    +:+ ".symver pthread_once,pthread_once@GLIBC_WRAP_ERROR_SYMBOL_NOT_PRESENT_IN_REQUESTED_VERSION"
    +:+ Str.dq +:+ ");" +:+ Str.nl
    +:+ "#endif" +:+ Str.nl ∧
  filter (binds "pthread_once") (lines header) = [ poison_line "pthread_once" ] ∧
  ("#ifdef _REENTRANT" ∉ lines header) ∧
  ("#ifndef IN_LIBGCC2" ∉ lines header) ∧
  ("#ifndef _GLIBCXX_SHARED" ∉ lines header).
Proof.
  intros header. split_and!.
  - apply (bool_decide_unpack _). vm_compute. exact I.
  - apply (bool_decide_unpack _). vm_compute. exact I.
  - vm_compute. reflexivity.
  - vm_compute. reflexivity.
  - apply (bool_decide_unpack _). vm_compute. exact I.
  - apply (bool_decide_unpack _). vm_compute. exact I.
  - apply (bool_decide_unpack _). vm_compute. exact I.
Qed.

(** C6, as the code has it.  Every key of the table has its pinned binding
    in the header, inside the guards that its name calls for.  The binding
    of a name in none of the three sets is bare; a name in any of them gets
    [#ifdef _REENTRANT] innermost; a name in the libgcc set gets
    [#ifndef IN_LIBGCC2] around that; a name in the libstdc++ set gets
    [#ifndef _GLIBCXX_SHARED] outermost.  The three tests are independent,
    so a name in both weak-use sets (whether or not in the libc set, hence
    also a name in all three sets) gets the three guards nested. *)
Theorem pinned_binding_guards
    (libc_so weak_in_libgcc weak_in_libstdcpp : gset string)
    (keys : list string) (syms : gmap string string) (missing : list string)
    (sym line : string) :
  let guard := guard_line libc_so weak_in_libgcc weak_in_libstdcpp in
  (sym ∈ keys →
   guard sym (symver_line sym (syms !!! sym))
   ∈ header_strings libc_so weak_in_libgcc weak_in_libstdcpp keys syms missing) ∧
  (sym ∉ libc_so → sym ∉ weak_in_libgcc → sym ∉ weak_in_libstdcpp →
   guard sym line = line) ∧
  (sym ∈ libc_so → sym ∉ weak_in_libgcc → sym ∉ weak_in_libstdcpp →
   guard sym line = ifdef_reentrant line) ∧
  (sym ∈ weak_in_libgcc → sym ∉ weak_in_libstdcpp →
   guard sym line = ifndef_in_libgcc2 (ifdef_reentrant line)) ∧
  (sym ∉ weak_in_libgcc → sym ∈ weak_in_libstdcpp →
   guard sym line = ifndef_glibcxx_shared (ifdef_reentrant line)) ∧
  (sym ∈ weak_in_libgcc → sym ∈ weak_in_libstdcpp →
   guard sym line = ifndef_glibcxx_shared (ifndef_in_libgcc2 (ifdef_reentrant line))) ∧
  let guard' := guard_line pthread_funcs_in_libc_so pthread_symbols_used_as_weak_in_libgcc
                  pthread_symbols_used_as_weak_in_libstdcpp in
  guard' "read" line = line ∧
  guard' "pthread_exit" line = ifdef_reentrant line ∧
  guard' "pthread_create" line = ifndef_glibcxx_shared (ifdef_reentrant line) ∧
  guard' "pthread_once" line
  = ifndef_glibcxx_shared (ifndef_in_libgcc2 (ifdef_reentrant line)).
Proof.
  intros guard. unfold guard. split_and!; unfold guard_line.
  - intros Hin. rewrite header_strings_eq, !elem_of_app. right; left.
    apply list_elem_of_fmap. exists sym. split; [done|]. by apply elem_of_sorted.
  - intros H1 H2 H3. repeat case_decide; (tauto || done).
  - intros H1 H2 H3. repeat case_decide; (tauto || done).
  - intros H2 H3. repeat case_decide; (tauto || done).
  - intros H2 H3. repeat case_decide; (tauto || done).
  - intros H2 H3. repeat case_decide; (tauto || done).
  - vm_compute. reflexivity.
  - vm_compute. reflexivity.
  - vm_compute. reflexivity.
  - vm_compute. reflexivity.
Qed.

(** [pthread_once] with the sets of the script. *)
Lemma pinned_binding_guards_witness :
  "pthread_once" ∈ pthread_symbols_used_as_weak_in_libgcc ∧
  "pthread_once" ∈ pthread_symbols_used_as_weak_in_libstdcpp ∧
  guard_line pthread_funcs_in_libc_so pthread_symbols_used_as_weak_in_libgcc
    pthread_symbols_used_as_weak_in_libstdcpp "pthread_once"
    (symver_line "pthread_once" "GLIBC_2.2.5")
  = ifndef_glibcxx_shared (ifndef_in_libgcc2 (ifdef_reentrant
      (symver_line "pthread_once" "GLIBC_2.2.5"))).
Proof.
  assert (H1 : "pthread_once" ∈ pthread_symbols_used_as_weak_in_libgcc)
    by (apply (bool_decide_unpack _); vm_compute; exact I).
  assert (H2 : "pthread_once" ∈ pthread_symbols_used_as_weak_in_libstdcpp)
    by (apply (bool_decide_unpack _); vm_compute; exact I).
  split_and!; [exact H1 | exact H2 |].
  pose proof (pinned_binding_guards pthread_funcs_in_libc_so
                pthread_symbols_used_as_weak_in_libgcc
                pthread_symbols_used_as_weak_in_libstdcpp [] ∅ []
                "pthread_once" (symver_line "pthread_once" "GLIBC_2.2.5"))
    as (_ & _ & _ & _ & _ & H & _).
  exact (H H1 H2).
Defined.

(** ** Header synthesis: the text, line by line *)

Lemma app_cons c a b : String c a +:+ b = String c (a +:+ b).
Proof. done. Qed.

Lemma app_empty b : "" +:+ b = b.
Proof. done. Qed.

Lemma occurs_app c a b : occurs c (a +:+ b) = occurs c a || occurs c b.
Proof.
  induction a as [|c' a IH]; [done|]. rewrite app_cons. cbn.
  by destruct (decide (c = c')).
Qed.

Lemma one_line_app a b : one_line (a +:+ b) ↔ one_line a ∧ one_line b.
Proof. unfold one_line. rewrite occurs_app. apply orb_false_iff. Qed.

Lemma prefix_cons c a d b :
  String.prefix (String c a) (String d b)
  = if decide (c = d) then String.prefix a b else false.
Proof.
  change (String.prefix (String c a) (String d b))
    with (if ascii_dec c d then String.prefix a b else false).
  destruct (ascii_dec c d), (decide (c = d)); done.
Qed.

Lemma prefix_empty b : String.prefix "" b = true.
Proof. by destruct b. Qed.

Lemma prefix_app_same p a b : String.prefix (p +:+ a) (p +:+ b) = String.prefix a b.
Proof.
  induction p as [|c p IH]; [done|]. rewrite !app_cons, prefix_cons.
  by rewrite decide_True.
Qed.

Lemma prefix_app_self a b : String.prefix a (a +:+ b) = true.
Proof.
  induction a as [|c a IH]; [apply prefix_empty|]. rewrite app_cons, prefix_cons.
  by rewrite decide_True.
Qed.

(** Two names without comma, each followed by a comma: if one of the two
    strings begins with the other, the names are the same. *)
Lemma prefix_comma_inj n m x y :
  occurs ","%char n = false → occurs ","%char m = false →
  String.prefix (n +:+ "," +:+ x) (m +:+ "," +:+ y) = true → n = m.
Proof.
  revert m. induction n as [|c n IH]; intros [|d m]; cbn [occurs]; intros Hn Hm.
  - done.
  - rewrite app_empty, !app_cons, prefix_cons.
    destruct (decide (","%char = d)); done.
  - rewrite app_empty, !app_cons, prefix_cons.
    destruct (decide (","%char = c)); [done|].
    by rewrite decide_False by congruence.
  - rewrite !app_cons, prefix_cons. destruct (decide (c = d)) as [->|]; [|done].
    destruct (decide (","%char = d)); [done|]. intros H. f_equal. by apply IH.
Qed.

Section lines.
Local Abbreviation go := (Str.split_go Str.nl O).

Lemma lines_go_cons cur c s :
  go cur (String c s)
  = if decide (c = "010"%char) then cur :: go "" s else go (cur +:+ String c "") s.
Proof.
  change (go cur (String c s))
    with (if String.prefix Str.nl (String c s) then cur :: go "" s
          else go (cur +:+ String c "") s).
  unfold Str.nl at 1. rewrite prefix_cons, prefix_empty.
  destruct (decide ("010"%char = c)) as [<-|Hne].
  - by rewrite decide_True.
  - by rewrite decide_False by congruence.
Qed.

Lemma lines_go_one_line cur a : one_line a → go cur a = [cur +:+ a].
Proof.
  revert cur. unfold one_line. induction a as [|c a IH]; intros cur Ha.
  - cbn. f_equal. induction cur as [|d cur IHc]; [done|]. by rewrite app_cons, <- IHc.
  - rewrite lines_go_cons. cbn in Ha.
    destruct (decide ("010"%char = c)) as [<-|Hne]; [done|].
    rewrite decide_False by congruence. rewrite IH by done.
    f_equal. clear. induction cur as [|d cur IHc]; [done|]. by rewrite !app_cons, IHc.
Qed.

Lemma lines_go_app cur a b : go cur (a +:+ Str.nl +:+ b) = go cur a ++ go "" b.
Proof.
  revert cur. induction a as [|c a IH]; intros cur.
  - rewrite app_empty. unfold Str.nl. rewrite app_cons, app_empty, lines_go_cons.
    by rewrite decide_True.
  - rewrite app_cons, !lines_go_cons. destruct (decide (c = "010"%char)).
    + by rewrite IH.
    + by rewrite IH.
Qed.
End lines.

Lemma lines_one_line a : one_line a → lines a = [a].
Proof. intros Ha. unfold lines, Str.split. by rewrite lines_go_one_line. Qed.

Lemma lines_app a b : lines (a +:+ Str.nl +:+ b) = lines a ++ lines b.
Proof. unfold lines, Str.split. apply lines_go_app. Qed.

Lemma lines_join (x : string) (xs : list string) :
  lines (Str.join Str.nl (x :: xs)) = mjoin (lines <$> (x :: xs)).
Proof.
  revert x. induction xs as [|y xs IH]; intros x.
  - cbn. by rewrite app_nil_r.
  - change (Str.join Str.nl (x :: y :: xs))
      with (x +:+ Str.nl +:+ Str.join Str.nl (y :: xs)).
    rewrite lines_app, IH. done.
Qed.

Lemma binds_hash sym rest : binds sym (String "#" rest) = false.
Proof.
  unfold binds, Str.startswith. rewrite app_cons, prefix_cons.
  by rewrite decide_False.
Qed.

Lemma not_binds_hash sym rest : ¬ binds sym (String "#" rest).
Proof. rewrite binds_hash. by intros []. Qed.

Lemma binds_empty sym : binds sym "" = false.
Proof. unfold binds, Str.startswith. by rewrite app_cons. Qed.

Lemma binds_symver_line sym sym' ver :
  occurs ","%char sym = false → occurs ","%char sym' = false →
  binds sym (symver_line sym' ver) = bool_decide (sym' = sym).
Proof.
  intros Hn Hm. unfold binds, symver_line, Str.startswith.
  rewrite 3!prefix_app_same. case_bool_decide as Heq.
  - subst sym'. rewrite 3!prefix_app_same. apply prefix_app_self.
  - apply not_true_is_false. intros H. apply Heq. symmetry.
    by apply prefix_comma_inj in H.
Qed.

Lemma binds_poison_line sym sym' :
  occurs ","%char sym = false → occurs ","%char sym' = false →
  binds sym (poison_line sym') = bool_decide (sym' = sym).
Proof.
  intros Hn Hm. unfold binds, poison_line, Str.startswith.
  rewrite 3!prefix_app_same. case_bool_decide as Heq.
  - subst sym'. rewrite 3!prefix_app_same.
    rewrite app_cons, prefix_cons, decide_True by done. apply prefix_empty.
  - apply not_true_is_false. intros H. apply Heq. symmetry.
    by apply prefix_comma_inj in H.
Qed.

Lemma one_line_symver_line sym ver :
  one_line sym → one_line ver → one_line (symver_line sym ver).
Proof.
  intros Hs Hv. unfold symver_line. rewrite !one_line_app.
  split_and!; done.
Qed.

Lemma one_line_poison_line sym : one_line sym → one_line (poison_line sym).
Proof.
  intros Hs. unfold poison_line. rewrite !one_line_app.
  split_and!; done.
Qed.

(** A guard adds a line before and a line after, both starting with [#]. *)
Lemma lines_wrapped head line :
  one_line head →
  lines (head +:+ Str.nl +:+ line +:+ Str.nl +:+ "#endif")
  = [head] ++ lines line ++ ["#endif"].
Proof.
  intros Hh. rewrite !lines_app. by rewrite (lines_one_line head), (lines_one_line "#endif").
Qed.

Lemma filter_binds_wrapped sym head line :
  one_line (String "#" head) →
  filter (binds sym) (lines (String "#" head +:+ Str.nl +:+ line +:+ Str.nl +:+ "#endif"))
  = filter (binds sym) (lines line).
Proof.
  intros Hh. rewrite lines_wrapped by done. rewrite !filter_app.
  rewrite (filter_cons_False _ (String "#" head)) by apply not_binds_hash.
  rewrite (filter_cons_False _ "#endif") by apply not_binds_hash.
  by rewrite !filter_nil, app_nil_r.
Qed.

Lemma filter_binds_guard_line (libc_so weak_in_libgcc weak_in_libstdcpp : gset string)
    sym sym' line :
  filter (binds sym) (lines (guard_line libc_so weak_in_libgcc weak_in_libstdcpp sym' line))
  = filter (binds sym) (lines line).
Proof.
  unfold guard_line. repeat case_decide; by rewrite ?filter_binds_wrapped.
Qed.

(** Over a list of distinct names of which each contributes its own line
    and no line of another name, the lines that bind [sym] are the one line
    of [sym], if it is in the list. *)
Lemma filter_binds_entries (entry own : string → string) sym (xs : list string) :
  NoDup xs →
  (∀ x, x ∈ xs →
        filter (binds sym) (lines (entry x)) = if decide (x = sym) then [own x] else []) →
  filter (binds sym) (mjoin (lines <$> (entry <$> xs)))
  = if decide (sym ∈ xs) then [own sym] else [].
Proof.
  induction xs as [|x xs IH]; intros Hnd Hx.
  - by rewrite decide_False by apply not_elem_of_nil.
  - apply NoDup_cons in Hnd as [Hnotin Hnd].
    rewrite !fmap_cons.
    change (mjoin (lines (entry x) :: (lines <$> (entry <$> xs))))
      with (lines (entry x) ++ mjoin (lines <$> (entry <$> xs))).
    rewrite filter_app.
    rewrite Hx by apply list_elem_of_here.
    rewrite IH; [|done|intros y Hy; apply Hx; by apply list_elem_of_further].
    destruct (decide (x = sym)) as [->|Hne].
    + rewrite (decide_False (P := sym ∈ xs)) by done.
      by rewrite decide_True by apply list_elem_of_here.
    + destruct (decide (sym ∈ xs)) as [Hin|Hout].
      * by rewrite decide_True by by apply list_elem_of_further.
      * rewrite decide_False; [done|]. rewrite elem_of_cons. naive_solver.
Qed.

(** ** Completeness of the headers *)

(** The lines of a header that bind [sym], when names and versions are
    well formed. *)
Lemma binding_lines_of_header (table : gmap string string) (missingFuncs : gset string)
    (sym : string) :
  plain_name sym →
  (∀ s, s ∈ dom table → plain_name s) →
  (∀ s, s ∈ missingFuncs → plain_name s) →
  (∀ s ver, table !! s = Some ver → one_line ver) →
  filter (binds sym) (lines (generate_header_string table missingFuncs))
  = (if decide (sym ∈ dom table) then [symver_line sym (table !!! sym)] else [])
    ++ (if decide (sym ∈ missingFuncs) then [poison_line sym] else []).
Proof.
  intros [Hsym _] Hkeys Hmiss Hvers.
  unfold generate_header_string, generate_header_string_with.
  rewrite header_strings_eq. cbn [app].
  rewrite lines_join, !fmap_cons, !fmap_app.
  change (mjoin (?a :: ?b)) with (a ++ mjoin b).
  change (mjoin (?a :: ?b)) with (a ++ mjoin b).
  rewrite !join_app, !filter_app.
  rewrite (lines_one_line "#if !defined(SET_GLIBC_LINK_VERSIONS_HEADER) && !defined(__ASSEMBLER__)")
    by done.
  rewrite (lines_one_line "#define SET_GLIBC_LINK_VERSIONS_HEADER") by done.
  rewrite 2!(filter_cons_False _ (String "#" _)) by apply not_binds_hash.
  rewrite filter_nil. cbn [app].
  rewrite (filter_binds_entries _ (λ s, symver_line s (table !!! s))).
  2:{ apply NoDup_sorted, NoDup_elements. }
  2:{ intros x Hx. rewrite elem_of_sorted, elem_of_elements in Hx.
      rewrite filter_binds_guard_line.
      assert (Hver : one_line (table !!! x)).
      { apply elem_of_dom in Hx as [ver Hver]. rewrite (lookup_total_correct _ _ _ Hver).
        by eapply Hvers. }
      destruct (Hkeys x Hx) as [Hc Hl].
      rewrite lines_one_line by by apply one_line_symver_line.
      rewrite filter_cons, filter_nil, binds_symver_line by done.
      destruct (decide (x = sym)) as [->|Hne].
      - by rewrite bool_decide_eq_true_2.
      - by rewrite bool_decide_eq_false_2. }
  rewrite (filter_binds_entries _ poison_line).
  2:{ apply NoDup_sorted, NoDup_elements. }
  2:{ intros x Hx. rewrite elem_of_sorted, elem_of_elements in Hx.
      destruct (Hmiss x Hx) as [Hc Hl].
      rewrite lines_one_line by by apply one_line_poison_line.
      rewrite filter_cons, filter_nil, binds_poison_line by done.
      destruct (decide (x = sym)) as [->|Hne].
      - by rewrite bool_decide_eq_true_2.
      - by rewrite bool_decide_eq_false_2. }
  assert (Htail : filter (binds sym) (mjoin (lines <$> ["#endif"; ""])) = []).
  { change (mjoin (lines <$> ["#endif"; ""])) with ["#endif"; ""].
    rewrite filter_cons_False by apply not_binds_hash.
    rewrite filter_cons_False; [done|]. rewrite binds_empty. by intros []. }
  rewrite Htail, app_nil_r.
  f_equal.
  - destruct (decide (sym ∈ dom table)) as [Hin|Hout].
    + rewrite decide_True; [done|]. by rewrite elem_of_sorted, elem_of_elements.
    + rewrite decide_False; [done|]. by rewrite elem_of_sorted, elem_of_elements.
  - destruct (decide (sym ∈ missingFuncs)) as [Hin|Hout].
    + rewrite decide_True; [done|]. by rewrite elem_of_sorted, elem_of_elements.
    + rewrite decide_False; [done|]. by rewrite elem_of_sorted, elem_of_elements.
Qed.

(** Every requested version has a table once the first loop of [main] has
    finished. *)
Lemma extract_all_covers get_glibc_binaries (requested_versions : list Version) syms :
  extract_all get_glibc_binaries requested_versions = Ok syms →
  ∀ version, version ∈ requested_versions → is_Some (syms !! version).
Proof.
  unfold extract_all.
  assert (Hgen : ∀ syms0 syms' : gmap Version (gmap string string),
    for_each (λ syms version,
                installDir ← get_glibc_binaries version;
                table ← extract_versions_from_installed_folder installDir version;
                Ok (<[version := table]> syms)) syms0 requested_versions = Ok syms' →
    ∀ version, version ∈ requested_versions ∨ is_Some (syms0 !! version) →
               is_Some (syms' !! version)).
  { induction requested_versions as [|v vs IH]; intros syms0 syms' Hrun version Hv.
    - cbn in Hrun. injection Hrun as <-. destruct Hv as [Hv|Hv]; [|done].
      by apply elem_of_nil in Hv.
    - cbn [for_each] in Hrun.
      destruct (get_glibc_binaries v) as [dir|e]; [|done]. rewrite bind_Ok in Hrun.
      destruct (extract_versions_from_installed_folder dir v) as [table|e]; [|done].
      rewrite !bind_Ok in Hrun. apply (IH _ _ Hrun).
      destruct (decide (version = v)) as [->|Hne].
      + right. rewrite lookup_insert_eq. by eexists.
      + destruct Hv as [Hv|Hv].
        * apply elem_of_cons in Hv as [?|?]; [done|by left].
        * right. by rewrite lookup_insert_ne. }
  intros Hrun version Hv. apply (Hgen ∅ syms Hrun). by left.
Qed.

Lemma app_assoc_str a b c : (a +:+ b) +:+ c = a +:+ (b +:+ c).
Proof. induction a as [|x a IH]; [done|]. by rewrite !app_cons, IH. Qed.

Lemma length_app_str a b : String.length (a +:+ b) = (String.length a + String.length b)%nat.
Proof. induction a as [|x a IH]; [done|]. rewrite app_cons. cbn. by rewrite IH. Qed.

Lemma app_inj_r a b c : a +:+ c = b +:+ c → a = b.
Proof.
  intros H. assert (Hlen : String.length a = String.length b).
  { apply (f_equal String.length) in H. rewrite !length_app_str in H. lia. }
  revert b H Hlen. induction a as [|x a IH]; intros [|y b] H Hlen; try done.
  rewrite !app_cons in H. injection H as -> H. f_equal. apply IH; [done|].
  cbn in Hlen. lia.
Qed.

Lemma app_inj_l a b c : a +:+ b = a +:+ c → b = c.
Proof.
  induction a as [|x a IH]; [done|]. rewrite !app_cons. intros [= H]. by apply IH.
Qed.

(** Two names of one table, [a] and [a,a@x]: the pinned binding of the second
    starts like a binding of the first, and the header has two lines that
    bind [a]. *)
Lemma comma_name_binds_twice :
  let table : gmap string string := {[ "a" := "GLIBC_2.0"; "a,a@x" := "GLIBC_2.1" ]} in
  let syms : gmap Version (gmap string string) := {[ V2 2 0 := table ]} in
  let header := generate_header_string table (missingFuncs_of (allsyms_of syms) table) in
  syms !! V2 2 0 = Some table ∧
  "a" ∈ allsyms_of syms ∧
  header
  = "#if !defined(SET_GLIBC_LINK_VERSIONS_HEADER) && !defined(__ASSEMBLER__)" +:+ Str.nl
    +:+ "#define SET_GLIBC_LINK_VERSIONS_HEADER" +:+ Str.nl
    +:+ "__asm__(" +:+ Str.dq +:+ ".symver a,a@GLIBC_2.0" +:+ Str.dq +:+ ");" +:+ Str.nl
    +:+ "__asm__(" +:+ Str.dq +:+ ".symver a,a@x,a,a@x@GLIBC_2.1" +:+ Str.dq +:+ ");"
    +:+ Str.nl
    +:+ "#endif" +:+ Str.nl ∧
  filter (binds "a") (lines header)
  = [ "__asm__(" +:+ Str.dq +:+ ".symver a,a@GLIBC_2.0" +:+ Str.dq +:+ ");";
      "__asm__(" +:+ Str.dq +:+ ".symver a,a@x,a,a@x@GLIBC_2.1" +:+ Str.dq +:+ ");" ] ∧
  ¬ (∀ (syms : gmap Version (gmap string string)) version table sym,
       syms !! version = Some table → sym ∈ allsyms_of syms →
       ∃ line,
         filter (binds sym)
           (lines (generate_header_string table
                     (missingFuncs_of (allsyms_of syms) table)))
         = [line]).
Proof.
  intros table syms header.
  assert (H1 : syms !! V2 2 0 = Some table) by apply lookup_singleton_eq.
  assert (H2 : "a" ∈ allsyms_of syms).
  { apply elem_of_allsyms_of. exists (V2 2 0), table. split; [exact H1|].
    apply elem_of_dom. exists "GLIBC_2.0". vm_compute. reflexivity. }
  assert (H3 : filter (binds "a") (lines header)
               = [ "__asm__(" +:+ Str.dq +:+ ".symver a,a@GLIBC_2.0" +:+ Str.dq +:+ ");";
                   "__asm__(" +:+ Str.dq +:+ ".symver a,a@x,a,a@x@GLIBC_2.1" +:+ Str.dq
                     +:+ ");" ])
    by (vm_compute; reflexivity).
  split_and!.
  - exact H1.
  - exact H2.
  - vm_compute. reflexivity.
  - exact H3.
  - intros Hclaim. destruct (Hclaim syms (V2 2 0) table "a" H1 H2) as [line Hline].
    fold header in Hline. rewrite H3 in Hline. discriminate Hline.
Qed.

(** C1, as the code has it.  Take the tables of all versions, one of the
    versions and a name of the global union.  The header of that version
    consists of the opening lines, one pinned binding for each key of its
    table, one poison binding for each name of its missing set, and the
    closing lines; the name is among the keys or among the missing names, not
    both, and occurs there once: among the keys exactly when the table has
    it.  Read as text, when the names have neither comma nor line break and
    the versions no line break, the header has exactly one line that is a
    [.symver] directive for the name: the line
    [__asm__(".symver name,name@version");] with the version of the table if
    the table has the name, and the line
    [__asm__(".symver name,name@GLIBC_WRAP_ERROR_SYMBOL_NOT_PRESENT_IN_REQUESTED_VERSION");]
    if it is in the missing set.  The two lines differ unless the version of
    the table is itself the poison word. *)
Theorem one_binding_per_symbol
    (syms : gmap Version (gmap string string)) (version : Version)
    (table : gmap string string) (sym : string) :
  syms !! version = Some table →
  sym ∈ allsyms_of syms →
  let missingFuncs := missingFuncs_of (allsyms_of syms) table in
  let header := generate_header_string table missingFuncs in
  (∀ path,
     write_headers path syms [version]
     = [ (path +:+ "/force_link_glibc_" +:+ version_as_str version +:+ ".h", header) ]) ∧
  (∃ ks ms,
     header
     = Str.join Str.nl
         ([ "#if !defined(SET_GLIBC_LINK_VERSIONS_HEADER) && !defined(__ASSEMBLER__)";
            "#define SET_GLIBC_LINK_VERSIONS_HEADER" ]
          ++ ((λ s, guard_line pthread_funcs_in_libc_so
                      pthread_symbols_used_as_weak_in_libgcc
                      pthread_symbols_used_as_weak_in_libstdcpp
                      s ("__asm__(" +:+ Str.dq +:+ ".symver " +:+ s +:+ "," +:+ s +:+ "@"
                           +:+ (table !!! s) +:+ Str.dq +:+ ");")) <$> ks)
          ++ ((λ s, "__asm__(" +:+ Str.dq +:+ ".symver " +:+ s +:+ "," +:+ s
                      +:+ "@GLIBC_WRAP_ERROR_SYMBOL_NOT_PRESENT_IN_REQUESTED_VERSION"
                      +:+ Str.dq +:+ ");") <$> ms)
          ++ [ "#endif"; "" ]) ∧
     NoDup (ks ++ ms) ∧ sym ∈ ks ++ ms ∧
     (∀ s, s ∈ ks ↔ s ∈ dom table) ∧ (∀ s, s ∈ ms ↔ s ∈ missingFuncs) ∧
     (sym ∈ ms ↔ sym ∉ ks)) ∧
  (sym ∈ missingFuncs ↔ table !! sym = None) ∧
  ((∀ s, s ∈ allsyms_of syms → plain_name s) →
   (∀ s ver, table !! s = Some ver → one_line ver) →
   filter (binds sym) (lines header)
   = [ match table !! sym with
       | Some ver =>
           "__asm__(" +:+ Str.dq +:+ ".symver " +:+ sym +:+ "," +:+ sym +:+ "@" +:+ ver
             +:+ Str.dq +:+ ");"
       | None =>
           "__asm__(" +:+ Str.dq +:+ ".symver " +:+ sym +:+ "," +:+ sym
             +:+ "@GLIBC_WRAP_ERROR_SYMBOL_NOT_PRESENT_IN_REQUESTED_VERSION"
             +:+ Str.dq +:+ ");"
       end ]) ∧
  (∀ ver,
     "__asm__(" +:+ Str.dq +:+ ".symver " +:+ sym +:+ "," +:+ sym +:+ "@" +:+ ver
       +:+ Str.dq +:+ ");"
     = "__asm__(" +:+ Str.dq +:+ ".symver " +:+ sym +:+ "," +:+ sym
         +:+ "@GLIBC_WRAP_ERROR_SYMBOL_NOT_PRESENT_IN_REQUESTED_VERSION"
         +:+ Str.dq +:+ ");"
     ↔ ver = "GLIBC_WRAP_ERROR_SYMBOL_NOT_PRESENT_IN_REQUESTED_VERSION").
Proof.
  intros Hv Hsym missingFuncs header.
  assert (Hdom : ∀ s, s ∈ dom table → s ∈ allsyms_of syms).
  { intros s Hs. apply elem_of_allsyms_of. by exists version, table. }
  assert (Hmissing : sym ∈ missingFuncs ↔ table !! sym = None).
  { unfold missingFuncs. rewrite elem_of_missingFuncs_of, not_elem_of_dom. tauto. }
  split_and!.
  - intros path. unfold write_headers. cbn.
    by rewrite (lookup_total_correct _ _ _ Hv).
  - exists (Str.sorted (elements (dom table))), (Str.sorted (elements missingFuncs)).
    assert (Hks : ∀ s, s ∈ Str.sorted (elements (dom table)) ↔ s ∈ dom table)
      by (intros s; by rewrite elem_of_sorted, elem_of_elements).
    assert (Hms : ∀ s, s ∈ Str.sorted (elements missingFuncs) ↔ s ∈ missingFuncs)
      by (intros s; by rewrite elem_of_sorted, elem_of_elements).
    split_and!; try done.
    + unfold header, generate_header_string, generate_header_string_with.
      by rewrite header_strings_eq.
    + apply NoDup_app. split_and!.
      * apply NoDup_sorted, NoDup_elements.
      * intros s. rewrite Hks, Hms. unfold missingFuncs.
        rewrite elem_of_missingFuncs_of. tauto.
      * apply NoDup_sorted, NoDup_elements.
    + rewrite elem_of_app, Hks, Hms. unfold missingFuncs.
      rewrite elem_of_missingFuncs_of. destruct (decide (sym ∈ dom table)); tauto.
    + rewrite Hks, Hms. unfold missingFuncs. rewrite elem_of_missingFuncs_of. tauto.
  - exact Hmissing.
  - intros Hnames Hvers. unfold header.
    rewrite binding_lines_of_header; try done.
    + destruct (table !! sym) as [ver|] eqn:Hlook.
      * rewrite decide_True by (apply elem_of_dom; eauto).
        rewrite decide_False.
        -- by rewrite (lookup_total_correct _ _ _ Hlook).
        -- by rewrite Hmissing.
      * rewrite decide_False by (by rewrite elem_of_dom, Hlook; intros [? ?]).
        rewrite decide_True; [done|]. by rewrite Hmissing.
    + by apply Hnames.
    + intros s Hs. by apply Hnames, Hdom.
    + intros s Hs. apply Hnames. unfold missingFuncs in Hs.
      by apply elem_of_missingFuncs_of in Hs as [? _].
  - intros ver. split; [|by intros ->].
    intros H. apply (app_inj_l "__asm__("), (app_inj_l Str.dq), (app_inj_l ".symver "),
      (app_inj_l sym), (app_inj_l ","), (app_inj_l sym) in H.
    change "@GLIBC_WRAP_ERROR_SYMBOL_NOT_PRESENT_IN_REQUESTED_VERSION"
      with ("@" +:+ "GLIBC_WRAP_ERROR_SYMBOL_NOT_PRESENT_IN_REQUESTED_VERSION") in H.
    rewrite (app_assoc_str "@") in H. apply (app_inj_l "@") in H.
    by apply app_inj_r in H.
Qed.

(** Version 1.0 with [read] and version 2.0 with [read] and [write]: the
    header of 1.0 has one line for [read], its pinned binding, and one line
    for [write], the poison binding. *)
Lemma one_binding_per_symbol_witness :
  let old : gmap string string := {[ "read" := "GLIBC_1.0" ]} in
  let new : gmap string string := {[ "read" := "GLIBC_2.0"; "write" := "GLIBC_2.0" ]} in
  let syms : gmap Version (gmap string string) := <[V2 1 0 := old]> {[V2 2 0 := new]} in
  let header := generate_header_string old (missingFuncs_of (allsyms_of syms) old) in
  syms !! V2 1 0 = Some old ∧
  "read" ∈ allsyms_of syms ∧
  "write" ∈ allsyms_of syms ∧
  (∀ s, s ∈ allsyms_of syms → plain_name s) ∧
  (∀ s ver, old !! s = Some ver → one_line ver) ∧
  filter (binds "read") (lines header)
  = [ "__asm__(" +:+ Str.dq +:+ ".symver read,read@GLIBC_1.0" +:+ Str.dq +:+ ");" ] ∧
  filter (binds "write") (lines header)
  = [ "__asm__(" +:+ Str.dq
        +:+ ".symver write,write@GLIBC_WRAP_ERROR_SYMBOL_NOT_PRESENT_IN_REQUESTED_VERSION"
        +:+ Str.dq +:+ ");" ] ∧
  header
  = "#if !defined(SET_GLIBC_LINK_VERSIONS_HEADER) && !defined(__ASSEMBLER__)" +:+ Str.nl
    +:+ "#define SET_GLIBC_LINK_VERSIONS_HEADER" +:+ Str.nl
    +:+ "__asm__(" +:+ Str.dq +:+ ".symver read,read@GLIBC_1.0" +:+ Str.dq +:+ ");"
    +:+ Str.nl
    +:+ "__asm__(" +:+ Str.dq
    +:+ ".symver write,write@GLIBC_WRAP_ERROR_SYMBOL_NOT_PRESENT_IN_REQUESTED_VERSION"
    +:+ Str.dq +:+ ");" +:+ Str.nl
    +:+ "#endif" +:+ Str.nl.
Proof.
  intros old new syms header.
  assert (Hall : allsyms_of syms = {[ "read"; "write" ]}).
  { unfold syms. rewrite allsyms_of_two by done. unfold old, new.
    rewrite !dom_insert_L, !dom_singleton_L, ?dom_empty_L. set_solver. }
  assert (H1 : syms !! V2 1 0 = Some old) by apply lookup_insert_eq.
  assert (H2 : "read" ∈ allsyms_of syms) by (rewrite Hall; set_solver).
  assert (H2' : "write" ∈ allsyms_of syms) by (rewrite Hall; set_solver).
  assert (H3 : ∀ s, s ∈ allsyms_of syms → plain_name s).
  { intros s. rewrite Hall, elem_of_union, !elem_of_singleton.
    intros [->| ->]; by split. }
  assert (H4 : ∀ s ver, old !! s = Some ver → one_line ver).
  { intros s ver. unfold old. by intros [_ <-]%lookup_singleton_Some. }
  split_and!; [exact H1 | exact H2 | exact H2' | exact H3 | exact H4 | | |].
  - exact (proj1 (proj2 (proj2 (proj2
             (one_binding_per_symbol syms (V2 1 0) old "read" H1 H2)))) H3 H4).
  - exact (proj1 (proj2 (proj2 (proj2
             (one_binding_per_symbol syms (V2 1 0) old "write" H1 H2')))) H3 H4).
  - vm_compute. reflexivity.
Defined.

(** * Further properties *)

(** ** Splitting and joining *)

Lemma app_empty_r a : a +:+ "" = a.
Proof. induction a as [|x a IH]; [done|]. by rewrite app_cons, IH. Qed.

Lemma prefix_length p s : String.prefix p s = true → (String.length p ≤ String.length s)%nat.
Proof.
  revert s. induction p as [|c p IH]; intros [|d s]; cbn [String.length]; try lia.
  - done.
  - rewrite prefix_cons. destruct (decide (c = d)); [|done]. intros H%IH. lia.
Qed.

Lemma prefix_drop p s : String.prefix p s = true → s = p +:+ drop_str (String.length p) s.
Proof.
  revert s. induction p as [|c p IH]; intros [|d s]; try done.
  rewrite prefix_cons. destruct (decide (c = d)) as [->|]; [|done].
  intros H%IH. cbn [String.length drop_str]. by rewrite app_cons, <- H.
Qed.

Lemma split_go_nonempty sep skip cur s : Str.split_go sep skip cur s ≠ [].
Proof.
  revert skip cur. induction s as [|c s IH]; intros skip cur; [done|].
  cbn [Str.split_go]. destruct skip; [|apply IH].
  destruct (String.prefix sep (String c s)); [done|apply IH].
Qed.

Lemma join_cons sep x xs :
  xs ≠ [] → Str.join sep (x :: xs) = x +:+ sep +:+ Str.join sep xs.
Proof. by destruct xs. Qed.

(** Joining the pieces with the separator gives the string back; while a
    separator is being passed over, what is left of it is not given back. *)
Lemma join_split_go sep skip cur s :
  sep ≠ "" → (skip ≤ String.length s)%nat →
  Str.join sep (Str.split_go sep skip cur s) = cur +:+ drop_str skip s.
Proof.
  intros Hsep. revert skip cur. induction s as [|c s IH]; intros skip cur Hskip.
  - cbn in Hskip. assert (skip = O) as -> by lia. cbn. by rewrite app_empty_r.
  - cbn [Str.split_go]. destruct skip as [|k].
    + destruct (String.prefix sep (String c s)) eqn:Hp.
      * rewrite join_cons by apply split_go_nonempty.
        pose proof (prefix_length _ _ Hp) as Hlen. cbn [String.length] in Hlen.
        destruct sep as [|d sep']; [done|]. cbn [String.length Nat.pred] in *.
        rewrite IH by lia. rewrite app_empty.
        pose proof (prefix_drop _ _ Hp) as Hd. cbn [String.length drop_str] in Hd.
        cbn [drop_str]. by rewrite <- Hd.
      * rewrite IH by (cbn; lia). cbn [drop_str].
        by rewrite app_assoc_str, app_cons, app_empty.
    + cbn [String.length] in Hskip. rewrite IH by lia. done.
Qed.

Lemma join_split sep s : sep ≠ "" → Str.join sep (Str.split sep s) = s.
Proof. intros Hsep. unfold Str.split. by rewrite join_split_go by (done || cbn; lia). Qed.

(** A single character as separator. *)
Section split_char.
Context (c : ascii).
Local Abbreviation sep := (String c "").
Local Abbreviation go_c := (Str.split_go (String c "") O).

Lemma split_char_cons cur d s :
  go_c cur (String d s)
  = if decide (d = c) then cur :: go_c "" s else go_c (cur +:+ String d "") s.
Proof.
  change (go_c cur (String d s))
    with (if String.prefix sep (String d s) then cur :: go_c "" s
          else go_c (cur +:+ String d "") s).
  rewrite prefix_cons, prefix_empty.
  destruct (decide (c = d)) as [<-|Hne].
  - by rewrite decide_True.
  - by rewrite decide_False by congruence.
Qed.

Lemma split_char_plain cur a : occurs c a = false → go_c cur a = [cur +:+ a].
Proof.
  revert cur. induction a as [|d a IH]; intros cur Ha.
  - cbn. by rewrite app_empty_r.
  - rewrite split_char_cons. cbn [occurs] in Ha.
    destruct (decide (c = d)) as [<-|Hne]; [done|].
    rewrite decide_False by congruence. rewrite IH by done.
    by rewrite app_assoc_str, app_cons, app_empty.
Qed.

Lemma split_char_app cur a b : go_c cur (a +:+ sep +:+ b) = go_c cur a ++ go_c "" b.
Proof.
  revert cur. induction a as [|d a IH]; intros cur.
  - rewrite app_empty, app_cons, app_empty, split_char_cons.
    by rewrite decide_True.
  - rewrite app_cons, !split_char_cons. destruct (decide (d = c)); by rewrite IH.
Qed.
End split_char.

Lemma split_plain c a : occurs c a = false → Str.split (String c "") a = [a].
Proof. intros Ha. unfold Str.split. by rewrite split_char_plain. Qed.

Lemma split_app c a b :
  Str.split (String c "") (a +:+ String c "" +:+ b)
  = Str.split (String c "") a ++ Str.split (String c "") b.
Proof. apply split_char_app. Qed.

(** The separator of the export lines. *)
Lemma split_atat_skip cur a rest :
  occurs "@"%char a = false →
  Str.split_go "@@" O cur (a +:+ rest) = Str.split_go "@@" O (cur +:+ a) rest.
Proof.
  revert cur. induction a as [|d a IH]; intros cur Ha.
  - by rewrite app_empty, app_empty_r.
  - cbn [occurs] in Ha. destruct (decide ("@"%char = d)) as [|Hne]; [done|].
    rewrite app_cons.
    change (Str.split_go "@@" O cur (String d (a +:+ rest)))
      with (if String.prefix "@@" (String d (a +:+ rest))
            then cur :: Str.split_go "@@" 1 "" (a +:+ rest)
            else Str.split_go "@@" O (cur +:+ String d "") (a +:+ rest)).
    rewrite prefix_cons, decide_False by done. rewrite IH by done.
    by rewrite app_assoc_str, app_cons, app_empty.
Qed.

Lemma split_atat_sep cur rest :
  Str.split_go "@@" O cur ("@@" +:+ rest) = cur :: Str.split_go "@@" O "" rest.
Proof.
  change (Str.split_go "@@" O cur ("@@" +:+ rest))
    with (if String.prefix "@@" (String "@" (String "@" rest))
          then cur :: Str.split_go "@@" O "" rest
          else Str.split_go "@@" O (cur +:+ "@") (String "@" rest)).
  by rewrite !prefix_cons, !decide_True, prefix_empty by done.
Qed.

Lemma parsed_format sym ver :
  occurs "@"%char sym = false → occurs "@"%char ver = false →
  parsed (sym +:+ "@@" +:+ ver) = Some (sym, ver).
Proof.
  intros Hs Hv. unfold parsed, Str.split.
  rewrite split_atat_skip, app_empty by done.
  rewrite split_atat_sep.
  rewrite <- (app_empty_r ver) at 1. rewrite split_atat_skip by done.
  by rewrite app_empty.
Qed.

Lemma parsed_line line sym ver :
  parsed line = Some (sym, ver) → line = sym +:+ "@@" +:+ ver.
Proof.
  unfold parsed. intros Hp. rewrite <- (join_split "@@" line) at 1 by done.
  destruct (Str.split "@@" line) as [|a [|b [|d l]]]; try done.
  by injection Hp as -> ->.
Qed.

(** X1. A line that unpacks is its name, the separator and its version;
    and a name and a version without [@], written with the separator between
    them, unpack into that name and that version. *)
Theorem export_line_round_trip (line sym ver : string) :
  (parsed line = Some (sym, ver) → line = sym +:+ "@@" +:+ ver) ∧
  (occurs "@"%char sym = false → occurs "@"%char ver = false →
   parsed (sym +:+ "@@" +:+ ver) = Some (sym, ver) ∧
   merge_data [sym +:+ "@@" +:+ ver] = Ok {[ sym := ver ]}).
Proof.
  split; [apply parsed_line|]. intros Hs Hv.
  pose proof (parsed_format sym ver Hs Hv) as Hp. split; [done|].
  unfold merge_data. cbn [for_each]. rewrite (merge_line_parsed _ _ _ _ _ Hp).
  rewrite lookup_empty. rewrite !bind_Ok. cbn [for_each]. rewrite ?bind_Ok.
  rewrite decide_False; [done|]. by intros [].
Qed.

Lemma export_line_round_trip_witness :
  occurs "@"%char "clock_gettime" = false ∧ occurs "@"%char "GLIBC_2.17" = false ∧
  parsed "clock_gettime@@GLIBC_2.17" = Some ("clock_gettime", "GLIBC_2.17").
Proof.
  assert (H1 : occurs "@"%char "clock_gettime" = false) by reflexivity.
  assert (H2 : occurs "@"%char "GLIBC_2.17" = false) by reflexivity.
  split_and!; [exact H1 | exact H2 |].
  exact (proj1 (proj2 (export_line_round_trip "" "clock_gettime" "GLIBC_2.17") H1 H2)).
Defined.

(** ** What a table holds *)

Lemma merge_data_Ok_parsed data syms :
  merge_data data = Ok syms → Forall (λ line, is_Some (parsed line)) data.
Proof.
  intros Hm. apply Forall_forall. intros line Hin.
  destruct (parsed line) as [p|] eqn:Hp; [by eexists|].
  unfold merge_data in Hm. by rewrite (merge_loop_malformed _ _ line Hin Hp) in Hm.
Qed.

(** A returned table has, for each name, the version of every line that
    carries this name. *)
Lemma merge_data_Ok_lookup data syms sym ver :
  merge_data data = Ok syms →
  syms !! sym = Some ver ↔ ∃ line, line ∈ data ∧ parsed line = Some (sym, ver).
Proof.
  intros Hm. pose proof (merge_data_Ok_parsed _ _ Hm) as Hall.
  destruct (merge_data_parsed data Hall) as (syms' & Hsyms & Hm').
  rewrite Hm in Hm'.
  destruct (decide (filter (disagrees ∅ data) data ≠ [])) as [Hd|Hd]; [done|].
  injection Hm' as ->. rewrite Hsyms. split; [apply first_version_Some|].
  intros (line & Hin & Hp).
  destruct (first_version_is_Some _ _ _ _ Hin Hp) as [ver' Hv].
  destruct (decide (ver' = ver)) as [->|Hne]; [done|].
  destruct Hd. apply disagreeing_iff_conflict.
  destruct (first_version_Some _ _ _ Hv) as (line' & Hin' & Hp').
  by exists line', line, sym, ver', ver.
Qed.

(** Whether the merge returns a table, and which, depends on the set of
    the lines only. *)
Lemma merge_data_same_lines data data' syms :
  (∀ line, line ∈ data ↔ line ∈ data') →
  merge_data data = Ok syms → merge_data data' = Ok syms.
Proof.
  intros Hsame Hm. pose proof (merge_data_Ok_parsed _ _ Hm) as Hall.
  assert (Hall' : Forall (λ line, is_Some (parsed line)) data').
  { apply Forall_forall. intros line Hin. rewrite Forall_forall in Hall.
    by apply Hall, Hsame. }
  destruct (merge_data_parsed data' Hall') as (syms' & Hsyms' & Hm').
  destruct (decide (filter (disagrees ∅ data') data' ≠ [])) as [Hd|Hd].
  - apply disagreeing_iff_conflict in Hd
      as (l1 & l2 & sym & v1 & v2 & Hin1 & Hin2 & Hp1 & Hp2 & Hne).
    assert (H1 : syms !! sym = Some v1).
    { apply (merge_data_Ok_lookup data); [done|]. exists l1. by rewrite Hsame. }
    assert (H2 : syms !! sym = Some v2).
    { apply (merge_data_Ok_lookup data); [done|]. exists l2. by rewrite Hsame. }
    congruence.
  - rewrite Hm'. f_equal. apply map_eq. intros sym.
    destruct (syms !! sym) as [ver|] eqn:Hl.
    + apply (merge_data_Ok_lookup data' syms'); [done|].
      apply (merge_data_Ok_lookup data syms) in Hl as (line & Hin & Hp); [|done].
      exists line. by rewrite <- Hsame.
    + destruct (syms' !! sym) as [ver|] eqn:Hl'; [|done].
      apply (merge_data_Ok_lookup data' syms') in Hl' as (line & Hin & Hp); [|done].
      assert (syms !! sym = Some ver); [|congruence].
      apply (merge_data_Ok_lookup data syms); [done|]. exists line. by rewrite Hsame.
Qed.

(** X2. When the extraction returns a table, the table maps a name to a
    version exactly when some object that is read exports, after the
    exclusion, the line [name@@version]: no exported name is left out and no
    entry is made up. *)
Theorem extracted_table_sound_complete
    (folder : folder_listing) (version : Version) (syms : gmap string string)
    (sym ver : string) :
  extract_versions_from_installed_folder folder version = Ok syms →
  syms !! sym = Some ver ↔
  ∃ f file_data,
    (f, file_data) ∈ folder ∧ (basename f ∉ linker_scripts) ∧
    sym +:+ "@@" +:+ ver ∈ filter_file_data version f file_data ∧
    parsed (sym +:+ "@@" +:+ ver) = Some (sym, ver).
Proof.
  intros (data & Hdata & Hm)%extract_Ok.
  rewrite (merge_data_Ok_lookup _ _ _ _ Hm). split.
  - intros (line & Hin & Hp). pose proof (parsed_line _ _ _ Hp) as ->.
    apply (elem_of_collect_data _ _ _ _ Hdata) in Hin as (f & d & Hf & Hskip & Hl).
    by exists f, d.
  - intros (f & d & Hf & Hskip & Hl & Hp). exists (sym +:+ "@@" +:+ ver).
    split; [|done]. apply (elem_of_collect_data _ _ _ _ Hdata). by exists f, d.
Qed.

Lemma extracted_table_sound_complete_witness :
  let folder := [ ("/install/lib/libc-2.20.so", ["read@@GLIBC_2.2.5"]) ] in
  extract_versions_from_installed_folder folder (V2 2 20)
  = Ok {[ "read" := "GLIBC_2.2.5" ]} ∧
  ∃ f file_data,
    (f, file_data) ∈ folder ∧ (basename f ∉ linker_scripts) ∧
    "read" +:+ "@@" +:+ "GLIBC_2.2.5" ∈ filter_file_data (V2 2 20) f file_data ∧
    parsed ("read" +:+ "@@" +:+ "GLIBC_2.2.5") = Some ("read", "GLIBC_2.2.5").
Proof.
  intros folder.
  assert (H : extract_versions_from_installed_folder folder (V2 2 20)
              = Ok {[ "read" := "GLIBC_2.2.5" ]}) by (vm_compute; reflexivity).
  split; [exact H|].
  apply (extracted_table_sound_complete folder (V2 2 20) _ "read" "GLIBC_2.2.5" H).
  apply lookup_singleton_eq.
Defined.

Lemma extract_Permutation (folder folder' : folder_listing) (version : Version) syms :
  folder ≡ₚ folder' →
  extract_versions_from_installed_folder folder version = Ok syms →
  extract_versions_from_installed_folder folder' version = Ok syms.
Proof.
  intros Hperm (data & Hdata & Hm)%extract_Ok.
  apply collect_data_Ok in Hdata as [Hwords ->].
  assert (Hdata' : collect_data folder' version = Ok (exported_lines folder' version)).
  { apply collect_data_Ok. split; [|done]. intros f Hf. apply Hwords. by rewrite Hperm. }
  rewrite (extract_Ok_data _ _ _ Hdata').
  apply (merge_data_same_lines (exported_lines folder version)); [|done].
  intros line. rewrite !elem_of_exported_lines.
  split; intros (f & d & Hf & Hrest); exists f, d; (split; [|done]).
  - by rewrite <- Hperm.
  - by rewrite Hperm.
Qed.

(** X3. The table does not depend on the order in which the objects of the
    folder are listed: listed in another order the same folder gives the same
    table, and a folder that fails in one order fails in every order. *)
Theorem extraction_order_irrelevant
    (folder folder' : folder_listing) (version : Version) (syms : gmap string string) :
  folder ≡ₚ folder' →
  extract_versions_from_installed_folder folder version = Ok syms ↔
  extract_versions_from_installed_folder folder' version = Ok syms.
Proof.
  intros Hperm. split; by apply extract_Permutation.
Qed.

Lemma extraction_order_irrelevant_witness :
  let libc := ("/install/lib/libc-2.20.so", ["clock_gettime@@GLIBC_2.17"]) in
  let librt := ("/install/lib/librt-2.20.so", ["timer_create@@GLIBC_2.3.3"]) in
  [libc; librt] ≡ₚ [librt; libc] ∧
  (extract_versions_from_installed_folder [libc; librt] (V2 2 20)
   = Ok {[ "clock_gettime" := "GLIBC_2.17"; "timer_create" := "GLIBC_2.3.3" ]} ↔
   extract_versions_from_installed_folder [librt; libc] (V2 2 20)
   = Ok {[ "clock_gettime" := "GLIBC_2.17"; "timer_create" := "GLIBC_2.3.3" ]}).
Proof.
  intros libc librt.
  assert (H : [libc; librt] ≡ₚ [librt; libc]) by apply perm_swap.
  split; [exact H|].
  exact (extraction_order_irrelevant _ _ (V2 2 20) _ H).
Defined.

(** ** The objects that are skipped *)

Lemma collect_data_skips_from (folder : list (string * list string)) (version : Version)
    (data : list string) :
  for_each (λ data '(f, words),
              if decide (basename f ∈ linker_scripts) then Ok data
              else file_data ← check_output f words;
                   Ok (data ++ filter_file_data version f file_data))
           data (filter (λ object, basename object.1 ∉ linker_scripts) folder)
  = for_each (λ data '(f, words),
                if decide (basename f ∈ linker_scripts) then Ok data
                else file_data ← check_output f words;
                     Ok (data ++ filter_file_data version f file_data))
             data folder.
Proof.
  revert data. induction folder as [|[f d] folder IH]; intros data; [done|].
  destruct (decide (basename f ∈ linker_scripts)) as [Hin|Hout].
  - rewrite filter_cons_False by (cbn; tauto). cbn [for_each].
    rewrite decide_True by done. cbn [mbind result_bind]. apply IH.
  - rewrite filter_cons_True by done. cbn [for_each]. rewrite decide_False by done.
    destruct (check_output f d) as [file_data|e]; [|done].
    cbn [mbind result_bind]. apply IH.
Qed.

Lemma collect_data_skips (folder : list (string * list string)) (version : Version) :
  collect_data (filter (λ object, basename object.1 ∉ linker_scripts) folder) version
  = collect_data folder version.
Proof. apply collect_data_skips_from. Qed.

Lemma basename_plain name : occurs "/"%char name = false → basename name = name.
Proof. intros H. unfold basename. by rewrite (split_plain "/" name H). Qed.

Lemma basename_in_dir dir name :
  occurs "/"%char name = false → basename (dir +:+ "/" +:+ name) = name.
Proof.
  intros H. unfold basename. rewrite (split_app "/" dir name), (split_plain "/" name H).
  apply last_last.
Qed.

(** X4. The linker scripts are never read: an object named [libc.so],
    [libm.so] or [libpthread.so], in whatever directory and with whatever
    lines, changes neither the table nor the error of the extraction. *)
Theorem linker_scripts_never_read
    (folder : list (string * list string)) (version : Version) :
  extract_versions_from_installed_folder
    (filter (λ object, basename object.1 ∉ linker_scripts) folder) version
  = extract_versions_from_installed_folder folder version ∧
  ∀ dir name lines before after,
    name ∈ [ "libc.so"; "libm.so"; "libpthread.so" ] →
    extract_versions_from_installed_folder
      (before ++ (dir +:+ "/" +:+ name, lines) :: after) version
    = extract_versions_from_installed_folder (before ++ after) version.
Proof.
  unfold extract_versions_from_installed_folder. split.
  - by rewrite collect_data_skips.
  - intros dir name lines before after Hname.
    assert (Hb : basename (dir +:+ "/" +:+ name) ∈ linker_scripts).
    { rewrite !elem_of_cons in Hname. unfold linker_scripts.
      destruct Hname as [->|[->|[->|Hn]]]; [..|by apply elem_of_nil in Hn];
        rewrite basename_in_dir by done; set_solver. }
    rewrite <- (collect_data_skips (before ++ _ :: after)),
      <- (collect_data_skips (before ++ after)).
    rewrite !filter_app, filter_cons_False; [done|]. cbn. tauto.
Qed.

Lemma linker_scripts_never_read_witness :
  "libc.so" ∈ [ "libc.so"; "libm.so"; "libpthread.so" ] ∧
  extract_versions_from_installed_folder
    ([ ("/install/lib/libc-2.20.so", ["read@@GLIBC_2.2.5"]) ]
       ++ ("/install/lib" +:+ "/" +:+ "libc.so", ["GROUP"; "read@@GLIBC_9.9"]) :: [])
    (V2 2 20)
  = extract_versions_from_installed_folder
      ([ ("/install/lib/libc-2.20.so", ["read@@GLIBC_2.2.5"]) ] ++ []) (V2 2 20).
Proof.
  assert (H : "libc.so" ∈ [ "libc.so"; "libm.so"; "libpthread.so" ])
    by apply list_elem_of_here.
  split; [exact H|].
  exact (proj2 (linker_scripts_never_read [] (V2 2 20)) "/install/lib" "libc.so"
           ["GROUP"; "read@@GLIBC_9.9"] _ [] H).
Defined.

(** X5. The name by which an object is tested is the part of its path after
    the last slash: a path made of a directory, a slash and a name without
    slash has that name, and a path without slash is its own name. *)
Theorem basename_of_path (dir name : string) :
  occurs "/"%char name = false →
  basename (dir +:+ "/" +:+ name) = name ∧ basename name = name.
Proof. intros H. split; [by apply basename_in_dir | by apply basename_plain]. Qed.

Lemma basename_of_path_witness :
  occurs "/"%char "librt-2.20.so" = false ∧
  basename ("/install/lib" +:+ "/" +:+ "librt-2.20.so") = "librt-2.20.so".
Proof.
  assert (H : occurs "/"%char "librt-2.20.so" = false) by reflexivity.
  split; [exact H|].
  exact (proj1 (basename_of_path "/install/lib" "librt-2.20.so" H)).
Defined.

(** ** Versions as text *)

Lemma occurs_pretty_N_go c x s :
  (∀ d, pretty_N_char d ≠ c) → occurs c s = false → occurs c (pretty_N_go x s) = false.
Proof.
  intros Hc. revert s. induction (N.lt_wf_0 x) as [x _ IH]; intros s Hs.
  destruct (decide (x = 0)%N) as [->|Hx]; [by rewrite pretty_N_go_0|].
  rewrite pretty_N_go_step by lia. apply IH.
  - apply N.div_lt; lia.
  - cbn [occurs]. by rewrite decide_False by (intros ->; by eapply Hc).
Qed.

Lemma occurs_pretty_N c (x : N) :
  (∀ d, pretty_N_char d ≠ c) → occurs c (pretty x) = false.
Proof.
  intros Hc. unfold pretty, pretty_N. destruct (decide (x = 0)%N).
  - cbn [occurs]. rewrite decide_False; [done|]. intros ->. by eapply (Hc 0%N).
  - by apply occurs_pretty_N_go.
Qed.

Lemma digit_not_dot d : pretty_N_char d ≠ "."%char.
Proof. unfold pretty_N_char. by repeat case_match. Qed.

(** The decimal form of an integer has no dot. *)
Lemma occurs_dot_pretty (z : Z) : occurs "."%char (pretty z) = false.
Proof.
  unfold pretty, pretty_Z. destruct z as [|p|p]; [done| |].
  - apply (occurs_pretty_N "." (Npos p)), digit_not_dot.
  - rewrite occurs_app. cbn [occurs orb].
    rewrite decide_False by done.
    apply (occurs_pretty_N "." (Npos p)), digit_not_dot.
Qed.

Lemma version_as_str_eq v :
  version_as_str v
  = if decide (patch v ≠ 0)
    then pretty (major v) +:+ "." +:+ pretty (minor v) +:+ "." +:+ pretty (patch v)
    else pretty (major v) +:+ "." +:+ pretty (minor v).
Proof.
  unfold version_as_str. destruct (decide (patch v ≠ 0)); [|done].
  by rewrite !app_assoc_str.
Qed.

(** Split at the dots, the text of a version is the decimal forms of its
    components, the patch level left out when it is 0. *)
Lemma split_version_as_str v :
  Str.split "." (version_as_str v)
  = if decide (patch v ≠ 0)
    then [pretty (major v); pretty (minor v); pretty (patch v)]
    else [pretty (major v); pretty (minor v)].
Proof.
  rewrite version_as_str_eq. destruct (decide (patch v ≠ 0)).
  - rewrite (split_app "."), (split_app ".").
    by rewrite !split_plain by apply occurs_dot_pretty.
  - rewrite (split_app ".").
    by rewrite !split_plain by apply occurs_dot_pretty.
Qed.

Lemma version_as_str_inj v w : version_as_str v = version_as_str w → v = w.
Proof.
  intros H. apply (f_equal (Str.split ".")) in H.
  rewrite !split_version_as_str in H. destruct v as [a b c], w as [a' b' c'].
  cbn [major minor patch] in H.
  destruct (decide (c ≠ 0)), (decide (c' ≠ 0)); try done.
  - injection H as ->%(inj pretty) ->%(inj pretty) ->%(inj pretty). done.
  - injection H as ->%(inj pretty) ->%(inj pretty).
    assert (c = 0) as -> by lia. assert (c' = 0) as -> by lia. done.
Qed.

(** X6. The text of a version tells the version: two versions with the same
    text are equal, so different versions are built in different directories
    and their headers are written to different files. *)
Theorem version_text_injective (path : string) (v w : Version) :
  (version_as_str v = version_as_str w ↔ v = w) ∧
  (Version_str v = Version_str w ↔ v = w) ∧
  (path +:+ "/force_link_glibc_" +:+ version_as_str v +:+ ".h"
   = path +:+ "/force_link_glibc_" +:+ version_as_str w +:+ ".h" ↔ v = w) ∧
  (path +:+ "/builds/" +:+ Version_str v +:+ "/install"
   = path +:+ "/builds/" +:+ Version_str w +:+ "/install" ↔ v = w).
Proof.
  split_and!; (split; [|by intros ->]).
  - apply version_as_str_inj.
  - unfold Version_str. intros H%(inj (String.app _)). by apply version_as_str_inj.
  - intros H%(inj (String.app _))%(inj (String.app _))%app_inj_r.
    by apply version_as_str_inj.
  - unfold Version_str.
    intros H%(inj (String.app _))%(inj (String.app _))%app_inj_r%(inj (String.app _)).
    by apply version_as_str_inj.
Qed.

Lemma outcome_map_inverse {A B} (f : A → outcome B) (h : B → A) (ys : list B) :
  (∀ y, y ∈ ys → f (h y) = Done y) → outcome_map f (h <$> ys) = Done ys.
Proof.
  induction ys as [|y ys IH]; intros Hf; [done|].
  rewrite fmap_cons. cbn [outcome_map]. rewrite Hf by apply list_elem_of_here. cbn.
  rewrite IH by (intros z Hz; apply Hf; by apply list_elem_of_further). done.
Qed.

(** X7. A version can be named on the command line by its own text: split
    at the dots and given to the constructor, [version_as_str v] gives [v]
    back, provided [int] reads the decimal forms of its three components. *)
Theorem version_text_round_trip (int : string → option Z) (v : Version) :
  (∀ z, z ∈ [major v; minor v; patch v] → int (pretty z) = Some z) →
  Version_of_args int (Str.split "." (version_as_str v)) = Done v.
Proof.
  intros Hint. rewrite split_version_as_str. unfold Version_of_args.
  destruct v as [a b c]. cbn [major minor patch] in *.
  assert (Hto : ∀ z, z ∈ [a; b; c] → to_int int (pretty z) = Done z).
  { intros z Hz. unfold to_int. by rewrite Hint. }
  destruct (decide (c ≠ 0)) as [Hc|Hc].
  - rewrite decide_False by (cbn; lia).
    change [pretty a; pretty b; pretty c] with (pretty <$> [a; b; c]).
    by rewrite outcome_map_inverse.
  - rewrite decide_False by (cbn; lia).
    change [pretty a; pretty b] with (pretty <$> [a; b]).
    rewrite outcome_map_inverse.
    + cbn. assert (c = 0) as -> by lia. done.
    + intros z Hz. apply Hto. set_solver.
Qed.

Lemma version_text_round_trip_witness :
  let int := λ s : string,
    if decide (s = "2") then Some 2 else if decide (s = "5") then Some 5
    else if decide (s = "1") then Some 1 else None in
  (∀ z, z ∈ [major (V3 2 5 1); minor (V3 2 5 1); patch (V3 2 5 1)] →
        int (pretty z) = Some z) ∧
  Version_of_args int (Str.split "." (version_as_str (V3 2 5 1))) = Done (V3 2 5 1).
Proof.
  intros int.
  assert (H : ∀ z, z ∈ [major (V3 2 5 1); minor (V3 2 5 1); patch (V3 2 5 1)] →
                   int (pretty z) = Some z).
  { intros z Hz. cbn in Hz. rewrite !elem_of_cons in Hz.
    destruct Hz as [->|[->|[->|Hz]]]; [done..|by apply elem_of_nil in Hz]. }
  split; [exact H|]. exact (version_text_round_trip int (V3 2 5 1) H).
Defined.

(** X8. The constructor checks the number of its arguments before it
    converts any: with fewer than two or more than three words it fails with
    the invalid-version error whatever the words are (so a word without dot
    is never a version); with two or three words that [int] reads, it builds
    the version of these numbers, with patch level 0 for two. *)
Theorem version_argument_count (int : string → option Z) (args : list string) :
  ((length args < 2 ∨ 3 < length args)%nat ↔
   Version_of_args int args = Failed (InvalidVersionArgs args)) ∧
  (∀ word, occurs "."%char word = false →
           Version_of_args int (Str.split "." word) = Failed (InvalidVersionArgs [word])) ∧
  (∀ a b x y, int a = Some x → int b = Some y →
              Version_of_args int [a; b] = Done (mkVersion x y 0)) ∧
  (∀ a b c x y z, int a = Some x → int b = Some y → int c = Some z →
                  Version_of_args int [a; b; c] = Done (mkVersion x y z)).
Proof.
  split_and!.
  - unfold Version_of_args. destruct (decide (3 < length args ∨ length args < 2)%nat)
      as [H|H]; [split; [done|tauto]|].
    split; [tauto|]. intros Hf. exfalso.
    destruct args as [|a [|b [|c [|d l]]]]; cbn in H; try lia.
    + cbn in Hf. unfold to_int in Hf.
      destruct (int a); [|done]. by destruct (int b).
    + cbn in Hf. unfold to_int in Hf.
      destruct (int a); [|done]. destruct (int b); [|done]. by destruct (int c).
  - intros word Hw. by rewrite (split_plain "." word Hw).
  - intros a b x y Ha Hb. unfold Version_of_args. cbn. unfold to_int.
    by rewrite Ha, Hb.
  - intros a b c x y z Ha Hb Hc. unfold Version_of_args. cbn. unfold to_int.
    by rewrite Ha, Hb, Hc.
Qed.

(** ** Patches: failure, and the versions that get none *)

Section patches_failure.
Context (basePath : string) (exits_zero : list command → command → bool).
Context (glibcDir : string) (version : Version).

Local Abbreviation cmd_of := (λ patch : string, (git_apply basePath patch, glibcDir)).

Lemma apply_rules_failure (rules : list (string * (Version * Version))) log pre p post :
  matching rules version = pre ++ p :: post →
  (∀ i patch, pre !! i = Some patch →
     exits_zero (log ++ (cmd_of <$> take i pre)) (cmd_of patch) = true) →
  exits_zero (log ++ (cmd_of <$> pre)) (cmd_of p) = false →
  for_each (λ log '(patch, v_limits),
              if Version_le v_limits.1 version && Version_le version v_limits.2
              then check_call exits_zero (git_apply basePath patch) glibcDir log
              else Ok log) log rules
  = Raise (CalledProcessError (git_apply basePath p)).
Proof.
  revert log pre. induction rules as [|[patch [lo hi]] rules IH]; intros log pre Hm Hpre Hp.
  - by destruct pre.
  - cbn [for_each fst snd]. rewrite matching_cons in Hm.
    change (Version_le lo version && Version_le version hi)
      with (in_window lo hi version).
    destruct (in_window lo hi version); [|rewrite bind_Ok; by eapply IH].
    unfold check_call. destruct pre as [|q pre].
    + injection Hm as <- Hm. cbn in Hp. rewrite app_nil_r in Hp. by rewrite Hp.
    + injection Hm as <- Hm.
      pose proof (Hpre O patch eq_refl) as H0. cbn in H0. rewrite app_nil_r in H0.
      rewrite H0, bind_Ok. apply (IH _ pre); [done| |].
      * intros i q Hq. rewrite <- app_assoc. apply (Hpre (S i) q Hq).
      * rewrite <- app_assoc. apply Hp.
Qed.
End patches_failure.

(** X9. A patch that does not apply ends [apply_patches]: when the patches
    selected for the version are applied in table order and the command of
    one of them fails after those before it have succeeded, the result is the
    [CalledProcessError] of that command. *)
Theorem apply_patches_first_failure
    (basePath : string) (exits_zero : list command → command → bool)
    (glibcDir : string) (version : Version) (log : list command)
    (pre : list string) (p : string) (post : list string) :
  matching patches_table version = pre ++ p :: post →
  (∀ i patch, pre !! i = Some patch →
     exits_zero (log ++ ((λ patch, (git_apply basePath patch, glibcDir)) <$> take i pre))
       (git_apply basePath patch, glibcDir) = true) →
  exits_zero (log ++ ((λ patch, (git_apply basePath patch, glibcDir)) <$> pre))
    (git_apply basePath p, glibcDir) = false →
  apply_patches basePath exits_zero glibcDir version log
  = Raise (CalledProcessError (git_apply basePath p)).
Proof. intros Hm Hpre Hp. unfold apply_patches. by eapply apply_rules_failure. Qed.

(** Version 2.8, where the second of the five patches fails. *)
Lemma apply_patches_first_failure_witness :
  let exits_zero := λ (log : list command) (c : command),
    negb (bool_decide (c.1 = ["git"; "apply"; "/src/patches/no-pattern-rule-mixing.diff"])) in
  let pre := ["fix_obstack_compat.diff"] in
  let post := ["fix_linker_failure.diff"; "remove_ctors_dtors.diff";
               "fix_bad_version_checks_2.9.diff"] in
  matching patches_table (V2 2 8) = pre ++ "no-pattern-rule-mixing.diff" :: post ∧
  apply_patches "/src" exits_zero "/src/glibc" (V2 2 8) []
  = Raise (CalledProcessError ["git"; "apply"; "/src/patches/no-pattern-rule-mixing.diff"]).
Proof.
  intros exits_zero pre post.
  assert (H : matching patches_table (V2 2 8)
              = pre ++ "no-pattern-rule-mixing.diff" :: post) by reflexivity.
  split; [exact H|].
  apply (apply_patches_first_failure "/src" exits_zero "/src/glibc" (V2 2 8) [] pre _ post H).
  - intros [|i] patch Hp; [|by destruct i]. injection Hp as <-. reflexivity.
  - reflexivity.
Defined.

Lemma patch_windows_within :
  Forall (λ rule : string * (Version * Version),
            Version_le (V2 2 5) rule.2.1 = true ∧ Version_le rule.2.2 (V2 2 25) = true)
         patches_table.
Proof. unfold patches_table. repeat constructor. Qed.

Lemma matching_patches_within version :
  in_window (V2 2 5) (V2 2 25) version = false → matching patches_table version = [].
Proof.
  intros Hout. destruct (matching patches_table version) as [|p ps] eqn:Hm; [done|].
  exfalso. assert (Hp : p ∈ matching patches_table version)
    by (rewrite Hm; apply list_elem_of_here).
  apply elem_of_matching in Hp as (lo & hi & Hin & Hw).
  pose proof patch_windows_within as Hall. rewrite Forall_forall in Hall.
  destruct (Hall _ Hin) as [Hlo Hhi]. cbn [fst snd] in Hlo, Hhi.
  apply in_window_spec in Hw as [H1 H2].
  assert (in_window (V2 2 5) (V2 2 25) version = true); [|congruence].
  apply in_window_spec. split; by eapply Version_le_trans.
Qed.

(** X10. No patch is meant for a version below 2.5 or above 2.25: for such
    a version [apply_patches] runs no command and returns, whether or not
    commands would succeed. *)
Theorem no_patch_outside_2_5_to_2_25
    (basePath : string) (exits_zero : list command → command → bool)
    (glibcDir : string) (version : Version) (log : list command) :
  in_window (V2 2 5) (V2 2 25) version = false →
  matching patches_table version = [] ∧
  apply_patches basePath exits_zero glibcDir version log = Ok log.
Proof.
  intros Hout. pose proof (matching_patches_within version Hout) as Hm.
  split; [done|]. unfold apply_patches. rewrite apply_matching_rules.
  - by rewrite Hm, app_nil_r.
  - intros log' patch Hp. rewrite Hm in Hp. by apply elem_of_nil in Hp.
Qed.

Lemma no_patch_outside_2_5_to_2_25_witness :
  in_window (V2 2 5) (V2 2 25) (V2 2 27) = false ∧
  apply_patches "/src" (λ _ _, false) "/src/glibc" (V2 2 27) [] = Ok [].
Proof.
  assert (H : in_window (V2 2 5) (V2 2 25) (V2 2 27) = false) by reflexivity.
  split; [exact H|].
  exact (proj2 (no_patch_outside_2_5_to_2_25 "/src" (λ _ _, false) "/src/glibc"
                  (V2 2 27) [] H)).
Defined.

(** ** The header as a whole *)

Lemma join_terminated (xs : list string) :
  Str.join Str.nl (xs ++ [""]) = foldr (λ x acc, x +:+ Str.nl +:+ acc) "" xs.
Proof.
  induction xs as [|x xs IH]; [done|].
  cbn [app foldr]. rewrite join_cons by (by destruct xs). by rewrite IH.
Qed.

Lemma foldr_terminated (xs : list string) (tail : string) :
  foldr (λ x acc, x +:+ Str.nl +:+ acc) tail xs
  = foldr (λ x acc, x +:+ Str.nl +:+ acc) "" xs +:+ tail.
Proof.
  induction xs as [|x xs IH]; [done|]. cbn [foldr].
  by rewrite IH, !app_assoc_str.
Qed.

(** X11. Whatever the table and the missing set, the header is the two
    opening lines of the include guard, then the bindings, each entry
    followed by a line break, then [#endif] and a final line break. *)
Theorem header_is_guarded (syms : gmap string string) (missingFuncs : gset string) :
  ∃ entries : list string,
    length entries = (size syms + size missingFuncs)%nat ∧
    generate_header_string syms missingFuncs
    = "#if !defined(SET_GLIBC_LINK_VERSIONS_HEADER) && !defined(__ASSEMBLER__)" +:+ Str.nl
      +:+ "#define SET_GLIBC_LINK_VERSIONS_HEADER" +:+ Str.nl
      +:+ foldr (λ entry rest, entry +:+ Str.nl +:+ rest) "" entries
      +:+ "#endif" +:+ Str.nl.
Proof.
  unfold generate_header_string, generate_header_string_with.
  rewrite header_strings_eq.
  set (pinned := _ <$> Str.sorted (elements (dom syms))).
  set (poison := poison_line <$> Str.sorted (elements missingFuncs)).
  exists (pinned ++ poison). split.
  - unfold pinned, poison. rewrite length_app, !length_fmap.
    rewrite !(Permutation_length (sorted_Permutation _)).
    change (length (elements (dom syms))) with (size (dom syms)).
    change (length (elements missingFuncs)) with (size missingFuncs).
    by rewrite size_dom.
  - change [ "#endif"; "" ] with ([ "#endif" ] ++ [ "" ]).
    rewrite !app_assoc, join_terminated, <- !app_assoc. cbn [app foldr].
    rewrite (app_assoc pinned poison), foldr_app. cbn [foldr].
    rewrite (foldr_terminated (pinned ++ poison)).
    by rewrite app_empty_r.
Qed.

(** ** The conditionals of a header *)

Lemma nesting_other depth c s rest :
  c ≠ "#"%char → nesting depth (String c s :: rest) = nesting depth rest.
Proof.
  intros Hc. cbn [nesting]. unfold Str.startswith.
  rewrite prefix_cons, decide_False by congruence.
  assert (String.eqb (String c s) "#endif" = false) as ->; [|done].
  apply String.eqb_neq. congruence.
Qed.

Lemma balanced_nil : balanced_block [].
Proof. by intros d rest. Qed.

Lemma balanced_app xs ys : balanced_block xs → balanced_block ys → balanced_block (xs ++ ys).
Proof. intros Hx Hy d rest. by rewrite <- app_assoc, Hx, Hy. Qed.

Lemma balanced_line c s : c ≠ "#"%char → balanced_block [String c s].
Proof. intros Hc d rest. by apply nesting_other. Qed.

Lemma balanced_wrap head inner :
  Str.startswith head "#if" = true → balanced_block inner →
  balanced_block ([head] ++ inner ++ ["#endif"]).
Proof.
  intros Hh Hi d rest. cbn [app nesting]. rewrite Hh.
  rewrite <- app_assoc, Hi. done.
Qed.

Lemma balanced_mjoin (blocks : list (list string)) :
  Forall balanced_block blocks → balanced_block (mjoin blocks).
Proof.
  induction 1 as [|b blocks Hb _ IH]; [apply balanced_nil|].
  change (mjoin (b :: blocks)) with (b ++ mjoin blocks). by apply balanced_app.
Qed.

Lemma balanced_symver_line sym ver :
  one_line sym → one_line ver → balanced_block (lines (symver_line sym ver)).
Proof.
  intros Hs Hv. rewrite lines_one_line by by apply one_line_symver_line.
  unfold symver_line. rewrite app_cons. by apply balanced_line.
Qed.

Lemma balanced_poison_line sym : one_line sym → balanced_block (lines (poison_line sym)).
Proof.
  intros Hs. rewrite lines_one_line by by apply one_line_poison_line.
  unfold poison_line. rewrite app_cons. by apply balanced_line.
Qed.

Lemma balanced_guard_line (libc_so weak_in_libgcc weak_in_libstdcpp : gset string)
    sym line :
  balanced_block (lines line) →
  balanced_block (lines (guard_line libc_so weak_in_libgcc weak_in_libstdcpp sym line)).
Proof.
  intros Hl. unfold guard_line.
  repeat case_decide; rewrite ?lines_wrapped by done;
    repeat (apply balanced_wrap; [done|]); done.
Qed.

(** X12. In a header every conditional that is opened is closed: read line
    by line, with each [#if...] line opening and each [#endif] closing, the
    depth never falls below zero and is zero at the end, as long as no name
    and no version contains a line break. *)
Theorem header_conditionals_balanced
    (syms : gmap string string) (missingFuncs : gset string) :
  (∀ sym ver, syms !! sym = Some ver → one_line sym ∧ one_line ver) →
  (∀ sym, sym ∈ missingFuncs → one_line sym) →
  nesting 0 (lines (generate_header_string syms missingFuncs)) = Some O.
Proof.
  intros Hsyms Hmiss. unfold generate_header_string, generate_header_string_with.
  rewrite header_strings_eq. cbn [app].
  rewrite lines_join, !fmap_cons, !fmap_app.
  change (mjoin (?a :: ?b)) with (a ++ mjoin b).
  change (mjoin (?a :: ?b)) with (a ++ mjoin b).
  rewrite !join_app.
  rewrite (lines_one_line "#if !defined(SET_GLIBC_LINK_VERSIONS_HEADER) && !defined(__ASSEMBLER__)")
    by done.
  rewrite (lines_one_line "#define SET_GLIBC_LINK_VERSIONS_HEADER") by done.
  change (mjoin (lines <$> ["#endif"; ""])) with ["#endif"; ""].
  cbn [app]. change (nesting 0 (?l :: ?l' :: ?rest)) with (nesting 1 rest).
  rewrite (balanced_mjoin (lines <$> _)).
  2:{ apply Forall_fmap, Forall_fmap, Forall_forall. intros sym Hin. cbn.
      rewrite elem_of_sorted, elem_of_elements in Hin.
      apply elem_of_dom in Hin as [ver Hver].
      destruct (Hsyms _ _ Hver) as [Hs Hv].
      apply balanced_guard_line. rewrite (lookup_total_correct _ _ _ Hver).
      by apply balanced_symver_line. }
  rewrite (balanced_mjoin (lines <$> _)); [done|].
  apply Forall_fmap, Forall_fmap, Forall_forall. intros sym Hin. cbn.
  rewrite elem_of_sorted, elem_of_elements in Hin.
  by apply balanced_poison_line, Hmiss.
Qed.

Lemma header_conditionals_balanced_witness :
  let syms : gmap string string := {[ "pthread_once" := "GLIBC_2.2.5" ]} in
  let missingFuncs : gset string := {[ "pthread_join" ]} in
  (∀ sym ver, syms !! sym = Some ver → one_line sym ∧ one_line ver) ∧
  (∀ sym, sym ∈ missingFuncs → one_line sym) ∧
  nesting 0 (lines (generate_header_string syms missingFuncs)) = Some O.
Proof.
  intros syms missingFuncs.
  assert (H1 : ∀ sym ver, syms !! sym = Some ver → one_line sym ∧ one_line ver).
  { intros sym ver [<- <-]%lookup_singleton_Some. by split. }
  assert (H2 : ∀ sym, sym ∈ missingFuncs → one_line sym).
  { intros sym ->%elem_of_singleton. done. }
  split_and!; [exact H1 | exact H2 |].
  exact (header_conditionals_balanced syms missingFuncs H1 H2).
Defined.

(** ** More versions, more poison *)

Lemma allsyms_of_mono (syms syms' : gmap Version (gmap string string)) :
  syms ⊆ syms' → allsyms_of syms ⊆ allsyms_of syms'.
Proof.
  intros Hsub sym. rewrite !elem_of_allsyms_of. intros (v & t & Hv & Hs).
  exists v, t. split; [|done]. by eapply lookup_weaken.
Qed.

(** X13. Asking for more versions can only add poison bindings: the missing
    set of a table within a larger family of tables contains its missing set
    within a smaller one, and a family of one table has nothing missing (a
    run for a single version poisons no symbol). *)
Theorem more_versions_more_poison
    (syms syms' : gmap Version (gmap string string)) (version : Version)
    (table : gmap string string) :
  syms ⊆ syms' →
  missingFuncs_of (allsyms_of syms) table ⊆ missingFuncs_of (allsyms_of syms') table ∧
  missingFuncs_of (allsyms_of {[ version := table ]}) table = ∅.
Proof.
  intros Hsub. split.
  - intros sym. rewrite !elem_of_missingFuncs_of. intros [Hin Hout]. split; [|done].
    by apply (allsyms_of_mono syms syms').
  - apply set_eq. intros sym. rewrite elem_of_missingFuncs_of, elem_of_allsyms_of.
    split; [|by intros ?%not_elem_of_empty].
    intros [(v & t & [<- <-]%lookup_singleton_Some & Hin) Hout]. done.
Qed.

Lemma more_versions_more_poison_witness :
  let old : gmap string string := {[ "read" := "GLIBC_1.0" ]} in
  let new : gmap string string := {[ "read" := "GLIBC_2.0"; "write" := "GLIBC_2.0" ]} in
  let syms : gmap Version (gmap string string) := {[ V2 1 0 := old ]} in
  let syms' : gmap Version (gmap string string) := <[ V2 2 0 := new ]> syms in
  syms ⊆ syms' ∧
  missingFuncs_of (allsyms_of syms) old ⊆ missingFuncs_of (allsyms_of syms') old.
Proof.
  intros old new syms syms'.
  assert (H : syms ⊆ syms') by (by apply insert_subseteq).
  split; [exact H|].
  exact (proj1 (more_versions_more_poison syms syms' (V2 1 0) old H)).
Defined.

(** ** A run: all tables first, then all headers *)

Section run.
Context (get_glibc_binaries : Version → result folder_listing).

Local Abbreviation step := (λ (syms : gmap Version (gmap string string)) version,
  installDir ← get_glibc_binaries version;
  table ← extract_versions_from_installed_folder installDir version;
  Ok (<[version := table]> syms)).

Lemma step_table_of syms0 v :
  step syms0 v = match table_of get_glibc_binaries v with
                 | Ok t => Ok (<[v := t]> syms0)
                 | Raise e => Raise e
                 end.
Proof.
  unfold table_of. destruct (get_glibc_binaries v) as [dir|e]; [|done].
  rewrite !bind_Ok. by destruct (extract_versions_from_installed_folder dir v).
Qed.

Lemma extract_all_from (vs : list Version) (syms0 syms : gmap Version (gmap string string)) :
  for_each step syms0 vs = Ok syms →
  (∀ v, v ∈ vs → ∃ t, table_of get_glibc_binaries v = Ok t ∧ syms !! v = Some t) ∧
  (∀ v, v ∉ vs → syms !! v = syms0 !! v).
Proof.
  revert syms0. induction vs as [|u vs IH]; intros syms0 Hrun.
  - cbn in Hrun. injection Hrun as <-. split; [|done].
    intros v Hv. by apply elem_of_nil in Hv.
  - cbn [for_each] in Hrun. rewrite step_table_of in Hrun.
    destruct (table_of get_glibc_binaries u) as [t|e] eqn:Hu; [|done].
    rewrite bind_Ok in Hrun. destruct (IH _ Hrun) as [Hin Hout]. split.
    + intros v [->|Hv]%elem_of_cons; [|by apply Hin].
      destruct (decide (u ∈ vs)) as [Hu'|Hu'].
      * destruct (Hin u Hu') as (t' & Ht' & Hl). exists t'. split; [|done]. congruence.
      * exists t. split; [done|]. by rewrite (Hout u Hu'), lookup_insert_eq.
    + intros v Hv. rewrite not_elem_of_cons in Hv. destruct Hv as [Hne Hv].
      by rewrite (Hout v Hv), lookup_insert_ne.
Qed.

Lemma extract_all_failure (pre : list Version) v post e syms0 :
  (∀ u, u ∈ pre → ∃ t, table_of get_glibc_binaries u = Ok t) →
  table_of get_glibc_binaries v = Raise e →
  for_each step syms0 (pre ++ v :: post) = Raise e.
Proof.
  revert syms0. induction pre as [|u pre IH]; intros syms0 Hpre Hv.
  - cbn [app for_each]. by rewrite step_table_of, Hv.
  - cbn [app for_each]. rewrite step_table_of.
    destruct (Hpre u) as [t ->]; [apply list_elem_of_here|]. rewrite bind_Ok.
    apply IH; [|done]. intros w Hw. apply Hpre. by apply list_elem_of_further.
Qed.
End run.

(** X14. A run writes headers only when the table of every requested
    version has been extracted: then it writes one header for each requested
    version, in the order of the request, each from the table of its version
    and the union of all of them.  The tables are those of the requested
    versions and no other, so a name is in the union exactly when the table
    extracted for some requested version has it.  When the build or the
    extraction of a version fails after those before it have succeeded, the
    run ends with that error and writes nothing. *)
Theorem run_all_or_nothing
    (versionHeadersPath : string) (get_glibc_binaries : Version → result folder_listing)
    (requested_versions : list Version) :
  (∀ files,
     main versionHeadersPath get_glibc_binaries requested_versions = Ok files →
     ∃ syms,
       files = write_headers versionHeadersPath syms requested_versions ∧
       length files = length requested_versions ∧
       (∀ v, v ∈ requested_versions →
             ∃ t, table_of get_glibc_binaries v = Ok t ∧ syms !! v = Some t) ∧
       (∀ v, v ∉ requested_versions → syms !! v = None) ∧
       (∀ sym, sym ∈ allsyms_of syms ↔
               ∃ v t, v ∈ requested_versions ∧ table_of get_glibc_binaries v = Ok t ∧
                      sym ∈ dom t)) ∧
  (∀ pre v post e,
     requested_versions = pre ++ v :: post →
     (∀ u, u ∈ pre → ∃ t, table_of get_glibc_binaries u = Ok t) →
     table_of get_glibc_binaries v = Raise e →
     main versionHeadersPath get_glibc_binaries requested_versions = Raise e).
Proof.
  split.
  - intros files Hmain. unfold main, extract_all in Hmain.
    destruct (for_each _ ∅ requested_versions) as [syms|e] eqn:Hrun; [|done].
    rewrite bind_Ok in Hmain. injection Hmain as <-.
    destruct (extract_all_from get_glibc_binaries requested_versions ∅ syms Hrun)
      as [Hin Hout].
    exists syms. split_and!.
    + done.
    + unfold write_headers. by rewrite length_fmap.
    + exact Hin.
    + intros v Hv. by rewrite (Hout v Hv), lookup_empty.
    + intros sym. rewrite elem_of_allsyms_of. split.
      * intros (v & t & Hlook & Hsym).
        destruct (decide (v ∈ requested_versions)) as [Hv|Hv].
        -- destruct (Hin v Hv) as (t' & Ht' & Hlook'). exists v, t'.
           split_and!; [done..|]. congruence.
        -- rewrite (Hout v Hv), lookup_empty in Hlook. discriminate Hlook.
      * intros (v & t & Hv & Ht & Hsym). destruct (Hin v Hv) as (t' & Ht' & Hlook').
        exists v, t'. split; [done|]. congruence.
  - intros pre v post e -> Hpre Hv. unfold main, extract_all.
    by rewrite (extract_all_failure get_glibc_binaries pre v post e ∅).
Qed.

(** ** Computations in the world *)

Lemma io_bind_run {A B} (m : io A) (k : A → io B) log :
  (m ≫= k) log = match m log with
                 | (log', Done a) => k a log'
                 | (log', Failed f) => (log', Failed f)
                 end.
Proof. done. Qed.

Lemma extends_weaken {A} (m : io A) (P Q : list event → outcome A → Prop) :
  extends m P → (∀ new r, P new r → Q new r) → extends m Q.
Proof. intros Hm HPQ log. destruct (Hm log) as (new & Hnew & HP). eauto. Qed.

Lemma extends_ret {A} (a : A) (P : list event → outcome A → Prop) :
  P [] (Done a) → extends (mret a) P.
Proof. intros HP log. exists []. by rewrite app_nil_r. Qed.

Lemma extends_lift {A} (r : outcome A) (P : list event → outcome A → Prop) :
  P [] r → extends (io_lift r) P.
Proof. intros HP log. exists []. by rewrite app_nil_r. Qed.

Lemma extends_fail {A} (f : failure) (P : list event → outcome A → Prop) :
  P [] (Failed f) → extends (io_fail f) P.
Proof. intros HP log. exists []. by rewrite app_nil_r. Qed.

Lemma extends_bind {A B} (m : io A) (k : A → io B)
    (P : list event → outcome A → Prop) (Q : A → list event → outcome B → Prop)
    (R : list event → outcome B → Prop) :
  extends m P → (∀ a, extends (k a) (Q a)) →
  (∀ new f, P new (Failed f) → R new (Failed f)) →
  (∀ new1 a new2 r, P new1 (Done a) → Q a new2 r → R (new1 ++ new2) r) →
  extends (m ≫= k) R.
Proof.
  intros Hm Hk Hfail Hdone log. rewrite io_bind_run.
  destruct (Hm log) as (new1 & Hlog1 & HP).
  destruct (m log) as [log1 [a|f]]; cbn [fst snd] in *; subst log1.
  - destruct (Hk a (log ++ new1)) as (new2 & Hlog2 & HQ).
    exists (new1 ++ new2). rewrite Hlog2, app_assoc. eauto.
  - exists new1. eauto.
Qed.

Lemma extends_when (b : bool) (m : io unit) (P : list event → outcome unit → Prop) :
  extends m P → P [] (Done tt) → extends (when b m) P.
Proof. intros Hm HP. destruct b; [done|]. by apply extends_ret. Qed.

Lemma io_spec_weaken {A} (Pev Pev' : event → Prop) (Pf Pf' : failure → Prop) (m : io A) :
  io_spec Pev Pf m → (∀ ev, Pev ev → Pev' ev) → (∀ f, Pf f → Pf' f) → io_spec Pev' Pf' m.
Proof.
  intros Hm Hev Hf. apply (extends_weaken _ _ _ Hm). intros new r [Hn Hr]. split.
  - by eapply Forall_impl.
  - eauto.
Qed.

Lemma io_spec_ret {A} Pev Pf (a : A) : io_spec Pev Pf (mret a).
Proof. by apply extends_ret. Qed.

Lemma io_spec_lift {A} Pev (Pf : failure → Prop) (r : outcome A) :
  (∀ f, r = Failed f → Pf f) → io_spec Pev Pf (io_lift r).
Proof. intros Hr. by apply extends_lift. Qed.

Lemma io_spec_fail {A} Pev (Pf : failure → Prop) f : Pf f → io_spec (A := A) Pev Pf (io_fail f).
Proof. intros Hf. apply extends_fail. split; [done|]. by intros ? [= <-]. Qed.

Lemma io_spec_bind {A B} Pev Pf (m : io A) (k : A → io B) :
  io_spec Pev Pf m → (∀ a, io_spec Pev Pf (k a)) → io_spec Pev Pf (m ≫= k).
Proof.
  intros Hm Hk.
  apply (extends_bind m k
           (λ new r, Forall Pev new ∧ ∀ f, r = Failed f → Pf f)
           (λ _ new r, Forall Pev new ∧ ∀ f, r = Failed f → Pf f));
    [exact Hm | exact Hk | |]; cbn.
  - intros new f [Hn Hf]. split; [done|]. intros ? [= <-]. by apply Hf.
  - intros new1 a new2 r [H1 _] [H2 Hr]. split; [by apply Forall_app|done].
Qed.

Lemma io_spec_when Pev Pf (b : bool) (m : io unit) :
  io_spec Pev Pf m → io_spec Pev Pf (when b m).
Proof. intros Hm. by apply extends_when. Qed.

Lemma io_spec_for {A S} Pev Pf (body : S → A → io S) (st : S) (xs : list A) :
  (∀ st x, io_spec Pev Pf (body st x)) → io_spec Pev Pf (io_for body st xs).
Proof.
  intros Hbody. revert st. induction xs as [|x xs IH]; intros st.
  - apply io_spec_ret.
  - cbn [io_for]. by apply io_spec_bind.
Qed.

Section world_facts.
Context (basePath : string).
Context (path_exists : list event → string → bool).
Context (succeeds : list event → event → bool).
Context (find_executable : string → option string).
Context (environ : gmap string string) (cpu_count : Z).
Context (installed : list event → string → result folder_listing).
Context (int : string → option Z).

Local Abbreviation perform' := (perform succeeds).
Local Abbreviation exists' := (exists_ path_exists).

Lemma extends_perform (ev : event) (P : list event → outcome unit → Prop) :
  P [ev] (Done tt) → P [] (Failed (failure_of ev)) → extends (perform' ev) P.
Proof.
  intros Hok Hfail log. unfold perform. destruct (succeeds log ev).
  - by exists [ev].
  - exists []. by rewrite app_nil_r.
Qed.

Lemma extends_exists (path : string) (P : list event → outcome bool → Prop) :
  (∀ b, P [] (Done b)) → extends (exists' path) P.
Proof. intros HP log. exists []. rewrite app_nil_r. split; [done|apply HP]. Qed.

Lemma io_spec_perform (Pev : event → Prop) (Pf : failure → Prop) ev :
  Pev ev → Pf (failure_of ev) → io_spec Pev Pf (perform' ev).
Proof.
  intros Hev Hf. apply extends_perform.
  - split; [by repeat constructor|done].
  - split; [done|]. by intros ? [= <-].
Qed.

Lemma io_spec_exists Pev Pf path : io_spec Pev Pf (exists' path).
Proof. by apply extends_exists. Qed.

Lemma io_spec_read_installed Pev (Pf : failure → Prop) dir :
  (∀ e, Pf (Raised e)) → io_spec Pev Pf (read_installed installed dir).
Proof.
  intros Hf log. exists []. rewrite app_nil_r. split; [done|]. split; [done|].
  unfold read_installed. cbn. destruct (installed log dir); cbn; [done|].
  by intros ? [= <-].
Qed.

Lemma io_spec_apply_patches Pev (Pf : failure → Prop) glibcDir version :
  (∀ cmd cwd, Pev (Exec cmd cwd None)) → (∀ cmd, Pf (Raised (CalledProcessError cmd))) →
  io_spec Pev Pf (apply_patches_io basePath succeeds glibcDir version).
Proof.
  intros Hev Hf. unfold apply_patches_io. apply io_spec_for.
  intros [] [patch limits]. apply io_spec_when, io_spec_perform; [apply Hev|apply Hf].
Qed.
End world_facts.

Lemma extends_after {A B} (clean : event → Prop) (m : io A) (k : A → io B)
    (R : list event → outcome B → Prop) :
  io_spec clean (λ _, True) m → (∀ a, extends (k a) R) →
  (∀ new f, Forall clean new → R new (Failed f)) →
  (∀ new1 new2 r, Forall clean new1 → R new2 r → R (new1 ++ new2) r) →
  extends (m ≫= k) R.
Proof.
  intros Hm Hk Hfail Hpre.
  apply (extends_bind m k (λ new r, Forall clean new ∧ ∀ f, r = Failed f → True)
           (λ _, R)); [exact Hm | exact Hk | |].
  - intros new f [Hn _]. by apply Hfail.
  - intros new1 a new2 r [Hn _] HR. by apply Hpre.
Qed.

Lemma then_last_failed {A} clean last (a : A) new f :
  Forall clean new → then_last clean last a new (Failed f).
Proof. intros Hn. exists new. split; [done|by left]. Qed.

Lemma then_last_prepend {A} clean last (a : A) new1 new2 r :
  Forall clean new1 → then_last clean last a new2 r →
  then_last clean last a (new1 ++ new2) r.
Proof.
  intros H1 (pre & Hpre & [->|[-> ->]]); exists (new1 ++ pre);
    (split; [by apply Forall_app|]).
  - by left.
  - right. by rewrite app_assoc.
Qed.

Lemma then_last_after {A B} clean last (b : B) (m : io A) (k : A → io B) :
  io_spec clean (λ _, True) m → (∀ a, extends (k a) (then_last clean last b)) →
  extends (m ≫= k) (then_last clean last b).
Proof.
  intros Hm Hk. apply (extends_after clean); [done..| |].
  - intros new f. apply then_last_failed.
  - intros new1 new2 r. apply then_last_prepend.
Qed.

(** ** The required programs *)

Lemma foldl_missing (find_executable : string → option string) (acc ps : list string) :
  foldl (λ missing p,
           match find_executable p with
           | None => missing ++ [p]
           | Some _ => missing
           end) acc ps
  = acc ++ filter (λ p, find_executable p = None) ps.
Proof.
  revert acc. induction ps as [|p ps IH]; intros acc; cbn [foldl].
  - by rewrite app_nil_r.
  - rewrite IH. destruct (find_executable p) eqn:Hp.
    + by rewrite filter_cons_False by (by rewrite Hp).
    + by rewrite filter_cons_True, <- app_assoc by done.
Qed.

(** X15. The check of the required programs fails exactly when one of gcc,
    make, git, readelf and grep is not found, and then names all that are
    missing, in this order.  [main] makes this check before anything else:
    with a program missing it ends with that error and has done nothing, not
    even printed a line or removed the old headers. *)
Theorem required_programs_checked_first
    (basePath : string) (path_exists : list event → string → bool)
    (succeeds : list event → event → bool) (find_executable : string → option string)
    (environ : gmap string string) (cpu_count : Z)
    (installed : list event → string → result folder_listing) (int : string → option Z)
    (args : list string) (log : list event) :
  let missing :=
    filter (λ p, find_executable p = None) ["gcc"; "make"; "git"; "readelf"; "grep"] in
  check_have_required_programs find_executable log
  = (log, if decide (missing = []) then Done tt else Failed (MissingPrograms missing)) ∧
  (missing ≠ [] →
   main_io basePath path_exists succeeds find_executable environ cpu_count installed int
     args log
   = (log, Failed (MissingPrograms missing))).
Proof.
  intros missing.
  assert (Hcheck : check_have_required_programs find_executable log
    = (log, if decide (missing = []) then Done tt else Failed (MissingPrograms missing))).
  { unfold check_have_required_programs. rewrite foldl_missing, app_nil_l.
    change (filter _ requiredPrograms) with missing.
    destruct (decide (missing ≠ [])) as [H1|H1], (decide (missing = [])) as [H2|H2];
      done. }
  split; [done|]. intros Hne. unfold main_io. rewrite io_bind_run, Hcheck.
  by rewrite decide_False by done.
Qed.

Lemma required_programs_checked_first_witness :
  let find_executable := λ p : string, if decide (p = "git") then None else Some p in
  filter (λ p, find_executable p = None) ["gcc"; "make"; "git"; "readelf"; "grep"] ≠ [] ∧
  main_io "/src" (λ _ _, true) (λ _ _, true) find_executable ∅ 8 (λ _ _, Ok [])
    (λ _, None) [] []
  = ([], Failed (MissingPrograms ["git"])).
Proof.
  intros find_executable.
  assert (H : filter (λ p, find_executable p = None)
                ["gcc"; "make"; "git"; "readelf"; "grep"] ≠ []) by (by vm_compute).
  split; [exact H|].
  exact (proj2 (required_programs_checked_first "/src" (λ _ _, true) (λ _ _, true)
                  find_executable ∅ 8 (λ _ _, Ok []) (λ _, None) [] []) H).
Defined.

(** ** Building a version *)

Section build.
Context (basePath : string).
Context (path_exists : list event → string → bool).
Context (succeeds : list event → event → bool).
Context (environ : gmap string string) (cpu_count : Z).
Context (version : Version).

Local Abbreviation glibcDir := (basePath +:+ "/glibc").
Local Abbreviation buildDir := (basePath +:+ "/builds/" +:+ Version_str version +:+ "/build").
Local Abbreviation installDir :=
  (basePath +:+ "/builds/" +:+ Version_str version +:+ "/install").
Local Abbreviation marker := (installDir +:+ "/build_succeeded").
Local Abbreviation build :=
  (get_glibc_binaries_io basePath path_exists succeeds environ cpu_count version).

Lemma build_cached log :
  path_exists log glibcDir = true → path_exists log marker = true →
  build log = (log, Done installDir).
Proof.
  intros Hclone Hbuilt. unfold get_glibc_binaries_io.
  rewrite io_bind_run. unfold exists_ at 1. rewrite Hclone. cbn [negb when].
  rewrite io_bind_run. cbn [mret io_ret].
  rewrite io_bind_run. unfold exists_ at 1. rewrite Hbuilt. cbn [negb when].
  rewrite io_bind_run. done.
Qed.
End build.

(** X16. A version that has been built is not built again: when the glibc
    sources are there and the install folder of the version has its
    [build_succeeded] file, [get_glibc_binaries] runs no command, changes no
    file and returns the install folder. *)
Theorem built_version_is_not_rebuilt
    (basePath : string) (path_exists : list event → string → bool)
    (succeeds : list event → event → bool) (environ : gmap string string)
    (cpu_count : Z) (version : Version) (log : list event) :
  let installDir := basePath +:+ "/builds/" +:+ Version_str version +:+ "/install" in
  path_exists log (basePath +:+ "/glibc") = true →
  path_exists log (installDir +:+ "/build_succeeded") = true →
  get_glibc_binaries_io basePath path_exists succeeds environ cpu_count version log
  = (log, Done installDir).
Proof. intros installDir. apply build_cached. Qed.

Lemma built_version_is_not_rebuilt_witness :
  (λ (_ : list event) (_ : string), true) [] ("/src" +:+ "/glibc") = true ∧
  get_glibc_binaries_io "/src" (λ _ _, true) (λ _ _, false) ∅ 8 (V2 2 17) []
  = ([], Done "/src/builds/glibc-2.17/install").
Proof.
  split; [reflexivity|].
  exact (built_version_is_not_rebuilt "/src" (λ _ _, true) (λ _ _, false) ∅ 8 (V2 2 17) []
           eq_refl eq_refl).
Defined.

Ltac io_spec_step :=
  lazymatch goal with
  | |- io_spec _ _ (_ ≫= _) => apply io_spec_bind
  | |- io_spec _ _ (exists_ _ _) => apply io_spec_exists
  | |- io_spec _ _ (mret _) => apply io_spec_ret
  | |- io_spec _ _ (when _ _) => apply io_spec_when
  | |- io_spec _ _ (apply_patches_io _ _ _ _) => apply io_spec_apply_patches
  | |- io_spec _ _ (perform _ _) => apply io_spec_perform
  | |- ∀ _, _ => intros ?
  end.

Ltac solve_io_spec := repeat io_spec_step; first [exact I | cbn; auto].

Section build_marker.
Context (basePath : string).
Context (path_exists : list event → string → bool).
Context (succeeds : list event → event → bool).
Context (environ : gmap string string) (cpu_count : Z).
Context (version : Version).

Local Abbreviation glibcDir := (basePath +:+ "/glibc").
Local Abbreviation buildDir := (basePath +:+ "/builds/" +:+ Version_str version +:+ "/build").
Local Abbreviation installDir :=
  (basePath +:+ "/builds/" +:+ Version_str version +:+ "/install").
Local Abbreviation marker := (installDir +:+ "/build_succeeded").
Local Abbreviation clean := (build_event buildDir installDir).

Lemma build_then_marker :
  extends (get_glibc_binaries_io basePath path_exists succeeds environ cpu_count version)
    (λ new r, then_last clean (Touch marker) installDir new r ∧
              ∀ dir, r = Done dir → dir = installDir).
Proof.
  unfold get_glibc_binaries_io.
  assert (Hsteps : ∀ built : bool, extends
    (when (negb built)
       (perform succeeds (Exec ["git"; "reset"; "--hard"; "HEAD"] glibcDir None);;
        perform succeeds (Exec ["git"; "clean"; "-dxf"] glibcDir None);;
        perform succeeds (Exec ["git"; "checkout"; Version_str version] glibcDir None);;
        apply_patches_io basePath succeeds glibcDir version;;
        old_build ← exists_ path_exists buildDir;
        when old_build (perform succeeds (Rmtree buildDir));;
        perform succeeds (Makedirs buildDir);;
        old_install ← exists_ path_exists installDir;
        when old_install (perform succeeds (Rmtree installDir));;
        perform succeeds (Makedirs installDir);;
        perform succeeds
          (Exec [glibcDir +:+ "/configure"; "--disable-werror"; "--disable-sanity-checks"]
             buildDir (Some (build_env environ version)));;
        perform succeeds (Exec ["make"; "-j" +:+ pretty cpu_count] buildDir None);;
        perform succeeds
          (Exec ["make"; "install_root=" +:+ installDir; "install";
                 "-j" +:+ pretty cpu_count] buildDir None);;
        perform succeeds (Touch marker)))
    (then_last clean (Touch marker) tt)).
  { intros built. apply extends_when.
    - repeat (apply then_last_after; [solve_io_spec|intros ?]).
      apply extends_perform.
      + exists []. split; [done|]. by right.
      + by apply then_last_failed.
    - exists []. split; [done|]. by left. }
  apply (extends_after clean); [solve_io_spec | intros cloned | |].
  - apply (extends_after clean); [solve_io_spec | intros [] | |].
    + apply (extends_after clean); [solve_io_spec | intros built | |].
      * apply (extends_bind _ _ (then_last clean (Touch marker) tt)
                 (λ _ new r, new = [] ∧ r = Done installDir)); [apply Hsteps | | |].
        -- intros []. by apply extends_ret.
        -- intros new f (pre & Hpre & [->|[_ [=]]]). split; [|done].
           by apply then_last_failed.
        -- intros new1 [] new2 r (pre & Hpre & Hnew) [-> ->]. rewrite app_nil_r.
           split; [|by intros ? [= <-]]. exists pre. split; [done|].
           destruct Hnew as [->|[-> _]]; [by left|by right].
      * intros new f Hn. split; [by apply then_last_failed|done].
      * intros new1 new2 r Hn [H1 H2]. split; [by apply then_last_prepend|done].
    + intros new f Hn. split; [by apply then_last_failed|done].
    + intros new1 new2 r Hn [H1 H2]. split; [by apply then_last_prepend|done].
  - intros new f Hn. split; [by apply then_last_failed|done].
  - intros new1 new2 r Hn [H1 H2]. split; [by apply then_last_prepend|done].
Qed.
End build_marker.

(** X17. Building a version touches nothing but its own: whatever succeeds
    or fails, [get_glibc_binaries] adds to the world only commands and the
    removal and creation of the build and install folders of this version,
    and the [build_succeeded] file at most once, as the very last thing and
    only when it then returns the install folder; a build that fails never
    leaves that file behind. *)
Theorem build_marker_written_last
    (basePath : string) (path_exists : list event → string → bool)
    (succeeds : list event → event → bool) (environ : gmap string string)
    (cpu_count : Z) (version : Version) (log : list event) :
  let buildDir := basePath +:+ "/builds/" +:+ Version_str version +:+ "/build" in
  let installDir := basePath +:+ "/builds/" +:+ Version_str version +:+ "/install" in
  let marker := installDir +:+ "/build_succeeded" in
  let run :=
    get_glibc_binaries_io basePath path_exists succeeds environ cpu_count version log in
  ∃ new pre,
    run.1 = log ++ new ∧
    Forall (build_event buildDir installDir) pre ∧
    (new = pre ∨ (new = pre ++ [Touch marker] ∧ run.2 = Done installDir)) ∧
    (∀ f, run.2 = Failed f → Touch marker ∉ new) ∧
    (∀ dir, run.2 = Done dir → dir = installDir).
Proof.
  intros buildDir installDir marker run.
  destruct (build_then_marker basePath path_exists succeeds environ cpu_count version log)
    as (new & Hlog & (pre & Hpre & Hnew) & Hdir).
  exists new, pre. split_and!; try done.
  intros f Hf Hin. destruct Hnew as [->|[_ Hd]].
  - rewrite Forall_forall in Hpre. by apply Hpre in Hin.
  - unfold run in Hf. congruence.
Qed.

(** ** The run in the world *)

Lemma writes_app (new1 new2 : list event) : writes (new1 ++ new2) = writes new1 ++ writes new2.
Proof. apply omap_app. Qed.

Lemma writes_no_write (new : list event) : Forall no_write new → writes new = [].
Proof.
  induction 1 as [|ev new Hev _ IH]; [done|]. unfold writes in *. cbn [omap list_omap].
  by destruct ev.
Qed.

Lemma extends_seq {A B} (clean : event → Prop) (Pf : failure → Prop) (m : io A)
    (k : A → io B) (R : list event → outcome B → Prop) :
  io_spec clean Pf m → (∀ a, extends (k a) R) →
  (∀ new f, Forall clean new → Pf f → R new (Failed f)) →
  (∀ new1 new2 r, Forall clean new1 → R new2 r → R (new1 ++ new2) r) →
  extends (m ≫= k) R.
Proof.
  intros Hm Hk Hfail Hpre.
  apply (extends_bind m k (λ new r, Forall clean new ∧ ∀ f, r = Failed f → Pf f)
           (λ _, R)); [exact Hm | exact Hk | |].
  - intros new f [Hn Hf]. apply Hfail; [done|by apply Hf].
  - intros new1 a new2 r [Hn _] HR. by apply Hpre.
Qed.

Lemma extends_from_const {A} (m : io A) (P : list event → outcome A → Prop) :
  extends m P → extends_from m (λ _, P).
Proof. done. Qed.

Lemma extends_from_bind {A B} (m : io A) (k : A → io B)
    (P : list event → list event → outcome A → Prop)
    (Q : A → list event → list event → outcome B → Prop)
    (R : list event → list event → outcome B → Prop) :
  extends_from m P → (∀ a, extends_from (k a) (Q a)) →
  (∀ log new f, P log new (Failed f) → R log new (Failed f)) →
  (∀ log new1 a new2 r,
     P log new1 (Done a) → Q a (log ++ new1) new2 r → R log (new1 ++ new2) r) →
  extends_from (m ≫= k) R.
Proof.
  intros Hm Hk Hfail Hseq log. rewrite io_bind_run.
  destruct (Hm log) as (new1 & Hlog1 & HP).
  destruct (m log) as [log1 [a|f]]; cbn [fst snd] in Hlog1, HP; subst log1.
  - destruct (Hk a (log ++ new1)) as (new2 & Hlog2 & HQ). exists (new1 ++ new2).
    rewrite app_assoc. split; [done|]. by eapply Hseq.
  - exists new1. split; [done|]. by apply Hfail.
Qed.

(** A step that writes no file, before a computation judged from the log at
    which the whole begins. *)
Lemma extends_from_quiet {A B} (m : io A) (k : A → io B)
    (R : list event → list event → outcome B → Prop) :
  io_spec no_write (λ _, True) m → (∀ a, extends_from (k a) R) →
  (∀ log new f, Forall no_write new → R log new (Failed f)) →
  (∀ log new1 new2 r, Forall no_write new1 → R (log ++ new1) new2 r →
                      R log (new1 ++ new2) r) →
  extends_from (m ≫= k) R.
Proof.
  intros Hm Hk Hfail Hseq.
  apply (extends_from_bind m k
           (λ _ new r, Forall no_write new ∧ ∀ f, r = Failed f → True) (λ _, R));
    [exact Hm | exact Hk | |].
  - intros log new f [Hn _]. by apply Hfail.
  - intros log new1 a new2 r [Hn _] HR. by apply Hseq.
Qed.

Section run_world.
Context (basePath : string).
Context (path_exists : list event → string → bool).
Context (succeeds : list event → event → bool).
Context (find_executable : string → option string).
Context (environ : gmap string string) (cpu_count : Z).
Context (installed : list event → string → result folder_listing).
Context (int : string → option Z).

Local Abbreviation headersPath := (basePath +:+ "/version_headers").
Local Abbreviation in_run :=
  (extracted_in_run basePath path_exists succeeds environ cpu_count installed).
Local Abbreviation build :=
  (get_glibc_binaries_io basePath path_exists succeeds environ cpu_count).

Lemma extracted_in_run_weaken log log' final final' version table :
  log' `prefix_of` log → final `prefix_of` final' →
  in_run log final version table → in_run log' final' version table.
Proof.
  intros Hlog Hfinal (before & after & dir & folder & H1 & H2 & H3 & H4 & H5 & H6).
  exists before, after, dir, folder. split_and!; [by etrans | done | by etrans | done..].
Qed.

Lemma io_spec_check_have_required_programs Pev :
  io_spec Pev (λ _, True) (check_have_required_programs find_executable).
Proof.
  unfold check_have_required_programs. case_decide.
  - by apply io_spec_fail.
  - apply io_spec_ret.
Qed.

Lemma io_spec_get_glibc_binaries version : io_spec no_write (λ _, True) (build version).
Proof. unfold get_glibc_binaries_io. solve_io_spec. Qed.

(** The build folders are not the folder of the headers. *)
Lemma builds_not_headers rest : basePath +:+ "/builds/" +:+ rest ≠ headersPath.
Proof.
  intros H. apply (app_inj_l basePath) in H. rewrite app_cons in H.
  injection H as H. discriminate.
Qed.

(** A build never fails as the second loop of [main] does. *)
Lemma build_failure_not_header version :
  io_spec (λ _, True) (λ f, ¬ header_failure headersPath f) (build version).
Proof.
  unfold get_glibc_binaries_io. repeat io_spec_step; try exact I;
    intros (ev & Hev & Heq); try discriminate Heq; injection Heq as <-;
    try exact Hev; by apply builds_not_headers in Hev.
Qed.

(** The body of the first loop, after its line on the output. *)
Lemma first_loop_build (syms0 : gmap Version (gmap string string)) version :
  extends_from
    (installDir ← build version;
     folder ← read_installed installed installDir;
     table ← io_lift (of_result (extract_versions_from_installed_folder folder version));
     mret (<[version := table]> syms0))
    (λ log new r,
       Forall no_write new ∧
       ∀ syms, r = Done syms →
               ∃ table, syms = <[version := table]> syms0 ∧
                        in_run log (log ++ new) version table).
Proof.
  intros log. rewrite io_bind_run.
  destruct (io_spec_get_glibc_binaries version log) as (new & Hlog & Hnew & _).
  destruct (build version log) as [after [installDir|f]] eqn:Hbuild;
    cbn [fst snd] in Hlog; subst after.
  - rewrite io_bind_run. unfold read_installed.
    destruct (installed (log ++ new) installDir) as [folder|e] eqn:Hinstalled;
      cbn [of_result].
    + rewrite io_bind_run. unfold io_lift.
      destruct (extract_versions_from_installed_folder folder version) as [table|e]
        eqn:Hextract; cbn [of_result].
      * exists new. split; [done|]. split; [done|]. intros syms [= <-].
        exists table. split; [done|]. exists log, (log ++ new), installDir, folder.
        split_and!; [done | by apply prefix_app_r | done | done..].
      * exists new. split; [done|]. split; [done|]. by intros syms [=].
    + exists new. split; [done|]. split; [done|]. by intros syms [=].
  - exists new. split; [done|]. split; [done|]. by intros syms [=].
Qed.

(** The first loop writes no file and leaves, for each version, a table
    that was extracted in the run. *)
Lemma first_loop (vs : list Version) (syms0 : gmap Version (gmap string string)) :
  extends_from
    (io_for (λ (syms : gmap Version (gmap string string)) version,
               perform succeeds
                 (Print ("generating data for version: " +:+ Version_str version));;
               installDir ← build version;
               folder ← read_installed installed installDir;
               table ← io_lift (of_result
                          (extract_versions_from_installed_folder folder version));
               mret (<[version := table]> syms))
            syms0 vs)
    (λ log new r,
       Forall no_write new ∧
       ∀ syms, r = Done syms →
               dom syms = dom syms0 ∪ list_to_set vs ∧
               ∀ version table, syms !! version = Some table →
                                syms0 !! version = Some table ∨
                                in_run log (log ++ new) version table).
Proof.
  revert syms0. induction vs as [|v vs IH]; intros syms0.
  - intros log. exists []. rewrite app_nil_r. split; [done|]. split; [done|].
    intros ? [= <-]. split; [set_solver|]. intros. by left.
  - cbn [io_for].
    apply (extends_from_bind _ _
             (λ log new r,
                Forall no_write new ∧
                ∀ syms, r = Done syms →
                        ∃ table, syms = <[v := table]> syms0 ∧
                                 in_run log (log ++ new) v table)
             (λ syms1 log new r,
                Forall no_write new ∧
                ∀ syms, r = Done syms →
                        dom syms = dom syms1 ∪ list_to_set vs ∧
                        ∀ version table, syms !! version = Some table →
                                         syms1 !! version = Some table ∨
                                         in_run log (log ++ new) version table)).
    + apply extends_from_quiet; [solve_io_spec | intros []; apply first_loop_build | |].
      * intros log new f Hn. split; [done|]. by intros ? [=].
      * intros log new1 new2 r Hn [Hn2 Hr]. split; [by apply Forall_app|].
        intros syms Hs. destruct (Hr syms Hs) as (table & -> & Hin). exists table.
        split; [done|]. rewrite app_assoc.
        eapply extracted_in_run_weaken; [by apply prefix_app_r | done | exact Hin].
    + intros syms1. apply IH.
    + intros log new f [Hn _]. split; [done|]. by intros ? [=].
    + intros log new1 syms1 new2 r [Hn1 Hs1] [Hn2 Hs2]. split; [by apply Forall_app|].
      intros syms Hr. destruct (Hs1 _ eq_refl) as (table1 & -> & Hin1).
      destruct (Hs2 _ Hr) as [Hdom Htables]. split.
      * rewrite Hdom, dom_insert_L. set_solver.
      * intros version table Hlook. destruct (Htables _ _ Hlook) as [Hl|Hin].
        -- destruct (decide (version = v)) as [->|Hne].
           ++ rewrite lookup_insert_eq in Hl. injection Hl as <-. right.
              eapply extracted_in_run_weaken; [done | | exact Hin1].
              rewrite app_assoc. by apply prefix_app_r.
           ++ rewrite lookup_insert_ne in Hl by done. by left.
        -- right. rewrite app_assoc.
           eapply extracted_in_run_weaken; [by apply prefix_app_r | done | exact Hin].
Qed.

(** The second loop writes the headers in the order of the request and
    stops only at the failure of one of its own events. *)
Lemma second_loop (syms : gmap Version (gmap string string)) (vs : list Version) :
  extends
    (io_for (λ (_ : unit) version,
               perform succeeds
                 (Print ("writing header for version: " +:+ Version_str version));;
               headers_dir ← exists_ path_exists headersPath;
               when (negb headers_dir) (perform succeeds (Makedirs headersPath));;
               perform succeeds
                 (WriteFile
                    (headersPath +:+ "/force_link_glibc_" +:+ version_as_str version
                       +:+ ".h")
                    (generate_header_string (syms !!! version)
                       (missingFuncs_of (allsyms_of syms) (syms !!! version)))))
            tt vs)
    (λ new r, ∃ written,
       written `prefix_of` vs ∧
       writes new = write_headers headersPath syms written ∧
       (r = Done tt → written = vs) ∧
       (∀ f, r = Failed f → header_failure headersPath f)).
Proof.
  assert (Hprint : ∀ version,
            header_failure headersPath
              (failure_of (Print ("writing header for version: " +:+ Version_str version)))).
  { intros version. eexists. split; [|done]. by exists version. }
  assert (Hmakedirs : header_failure headersPath (failure_of (Makedirs headersPath))).
  { exists (Makedirs headersPath). by split. }
  assert (Hwrite : ∀ version content,
            header_failure headersPath
              (failure_of (WriteFile (headersPath +:+ "/force_link_glibc_"
                                        +:+ version_as_str version +:+ ".h") content))).
  { intros version content. eexists. split; [|done]. by exists version. }
  induction vs as [|v vs IH].
  - apply extends_ret. exists []. by split_and!.
  - cbn [io_for].
    apply (extends_bind _ _
             (λ new r, (r = Done tt ∧ writes new = write_headers headersPath syms [v]) ∨
                       (∃ f, r = Failed f ∧ header_failure headersPath f ∧
                             writes new = []))
             (λ _ new r, ∃ written,
                written `prefix_of` vs ∧
                writes new = write_headers headersPath syms written ∧
                (r = Done tt → written = vs) ∧
                (∀ f, r = Failed f → header_failure headersPath f))).
    + apply (extends_seq no_write (header_failure headersPath));
        [by apply io_spec_perform | intros [] | |].
      * apply (extends_seq no_write (header_failure headersPath));
          [apply io_spec_exists | intros dir | |].
        -- apply (extends_seq no_write (header_failure headersPath));
             [by apply io_spec_when, io_spec_perform | intros [] | |].
           ++ apply extends_perform; [by left|]. right. eexists. by split_and!.
           ++ intros new f Hn Hf. right. exists f. by rewrite (writes_no_write _ Hn).
           ++ intros new1 new2 r Hn. by rewrite writes_app, (writes_no_write _ Hn).
        -- intros new f Hn Hf. right. exists f. by rewrite (writes_no_write _ Hn).
        -- intros new1 new2 r Hn. by rewrite writes_app, (writes_no_write _ Hn).
      * intros new f Hn Hf. right. exists f. by rewrite (writes_no_write _ Hn).
      * intros new1 new2 r Hn. by rewrite writes_app, (writes_no_write _ Hn).
    + intros []. apply IH.
    + intros new f [[[=] _]|(f' & [= <-] & Hf & Hw)]. exists []. split_and!.
      * apply prefix_nil.
      * done.
      * done.
      * by intros ? [= <-].
    + intros new1 [] new2 r [[_ Hw1]|(? & [=] & _)] (written & Hpre & Hw2 & Hdone & Hfail).
      exists (v :: written). split_and!.
      * destruct Hpre as [rest ->]. by exists rest.
      * by rewrite writes_app, Hw1, Hw2.
      * intros Hr. by rewrite (Hdone Hr).
      * done.
Qed.

Lemma run_writes (args : list string) :
  extends_from
    (main_io basePath path_exists succeeds find_executable environ cpu_count installed int
       args)
    (λ log new r,
       (writes new = [] ∧ ∃ f, r = Failed f) ∨
       ∃ requested,
         (if decide (args ≠ [])
          then outcome_map (λ v, Version_of_args int (Str.split "." v)) args
          else Done SUPPORTED_VERSIONS) = Done requested ∧
         headers_written basePath path_exists succeeds environ cpu_count installed
           requested log new r).
Proof.
  assert (Hquiet : ∀ requested log new1 new2 r,
            Forall no_write new1 →
            (writes new2 = [] ∧ (∃ f, r = Failed f)) ∨
            headers_written basePath path_exists succeeds environ cpu_count installed
              requested (log ++ new1) new2 r →
            (writes (new1 ++ new2) = [] ∧ (∃ f, r = Failed f)) ∨
            headers_written basePath path_exists succeeds environ cpu_count installed
              requested log (new1 ++ new2) r).
  { intros requested log new1 new2 r Hn [[Hw Hf]|Hh].
    - left. by rewrite writes_app, (writes_no_write _ Hn).
    - right. destruct Hh as (syms & written & Hdom & Htables & Hpre & Hw & Hdone & Hfail).
      exists syms, written. split_and!; try done.
      + intros version table Hlook. rewrite app_assoc.
        eapply extracted_in_run_weaken; [by apply prefix_app_r | done |].
        by apply Htables.
      + by rewrite writes_app, (writes_no_write _ Hn). }
  unfold main_io.
  apply extends_from_quiet;
    [apply io_spec_check_have_required_programs | intros [] | |].
  - apply (extends_from_bind _ _
             (λ _ new r,
                Forall no_write new ∧
                ∀ requested, r = Done requested →
                  (if decide (args ≠ [])
                   then outcome_map (λ v, Version_of_args int (Str.split "." v)) args
                   else Done SUPPORTED_VERSIONS) = Done requested)
             (λ requested log new r,
                (writes new = [] ∧ ∃ f, r = Failed f) ∨
                headers_written basePath path_exists succeeds environ cpu_count installed
                  requested log new r)).
    + apply extends_from_const. case_decide.
      * apply (extends_after no_write); [solve_io_spec | intros [] | |].
        -- apply extends_lift. split; [done|]. by intros ? ->.
        -- by intros new f Hn.
        -- intros new1 new2 r Hn [H1 H2]. split; [by apply Forall_app|done].
      * apply extends_ret. split; [done|]. by intros ? [= <-].
    + intros requested.
      apply extends_from_quiet; [solve_io_spec | intros old | |].
      * apply extends_from_quiet; [solve_io_spec | intros [] | |].
        -- apply (extends_from_bind _ _ _ _ _ (first_loop requested ∅)
                    (λ syms, extends_from_const _ _ (second_loop syms requested))).
           ++ intros log new f [Hn _]. left. rewrite (writes_no_write _ Hn). eauto.
           ++ intros log new1 syms new2 r [Hn Hs]
                (written & Hpre & Hw & Hdone & Hfail).
              destruct (Hs _ eq_refl) as [Hdom Htables]. right.
              exists syms, written. split_and!; try done.
              ** rewrite Hdom. set_solver.
              ** intros version table Hlook.
                 destruct (Htables _ _ Hlook) as [Hl|Hin]; [by rewrite lookup_empty in Hl|].
                 eapply extracted_in_run_weaken; [done | | exact Hin].
                 rewrite app_assoc. by apply prefix_app_r.
              ** by rewrite writes_app, (writes_no_write _ Hn).
        -- intros log new f Hn. left. rewrite (writes_no_write _ Hn). eauto.
        -- intros log new1 new2 r. apply Hquiet.
      * intros log new f Hn. left. rewrite (writes_no_write _ Hn). eauto.
      * intros log new1 new2 r. apply Hquiet.
    + intros log new f [Hn _]. left. rewrite (writes_no_write _ Hn). eauto.
    + intros log new1 requested new2 r [Hn Hreq] Hr.
      destruct (Hquiet requested log new1 new2 r Hn Hr) as [Hl|Hh]; [by left|].
      right. exists requested. split; [by apply Hreq|done].
  - intros log new f Hn. left. rewrite (writes_no_write _ Hn). eauto.
  - intros log new1 new2 r Hn [Hl|(requested & Hreq & Hh)].
    + destruct (Hquiet [] log new1 new2 r Hn (or_introl Hl)) as [?|?]; [by left|].
      left. destruct Hl as [Hw Hf]. by rewrite writes_app, (writes_no_write _ Hn).
    + destruct (Hquiet requested log new1 new2 r Hn (or_intror Hh)) as [?|?]; [by left|].
      right. by exists requested.
Qed.
End run_world.

(** X18. Headers are written only after every requested version has been
    built and extracted.  A run of [main] in the world either fails without
    having written any file, or the words of the command line name the
    versions [requested] (all supported versions when there is no word), the
    tables are those of exactly these versions, each of them extracted in
    this run from what a build of its version that ended well had installed,
    and the files written are the headers of the first versions of the
    request, in its order, each computed from these tables: of all of them
    when the run ends well, and otherwise the run was stopped by the failure
    of a print, of the creation of the headers folder or of the writing of a
    header.  So a run that ends with a failure that is not an error of the
    system, or with a failure that a build can end with, has written no
    header. *)
Theorem headers_after_all_builds
    (basePath : string) (path_exists : list event → string → bool)
    (succeeds : list event → event → bool) (find_executable : string → option string)
    (environ : gmap string string) (cpu_count : Z)
    (installed : list event → string → result folder_listing) (int : string → option Z)
    (args : list string) (log : list event) :
  let run :=
    main_io basePath path_exists succeeds find_executable environ cpu_count installed int
      args log in
  ∃ new,
    run.1 = log ++ new ∧
    ((writes new = [] ∧ ∃ f, run.2 = Failed f) ∨
     ∃ requested,
       (if decide (args ≠ [])
        then outcome_map (λ v, Version_of_args int (Str.split "." v)) args
        else Done SUPPORTED_VERSIONS) = Done requested ∧
       headers_written basePath path_exists succeeds environ cpu_count installed
         requested log new run.2) ∧
    (∀ f, run.2 = Failed f → ¬ is_OSError f → writes new = []) ∧
    (∀ f version before,
       run.2 = Failed f →
       (get_glibc_binaries_io basePath path_exists succeeds environ cpu_count version
          before).2 = Failed f →
       writes new = []).
Proof.
  intros run.
  destruct (run_writes basePath path_exists succeeds find_executable environ cpu_count
              installed int args log) as (new & Hlog & Hnew).
  exists new. split; [exact Hlog|]. split; [exact Hnew|].
  assert (Hheader : ∀ f, run.2 = Failed f →
            ¬ header_failure (basePath +:+ "/version_headers") f → writes new = []).
  { intros f Hf Hnot.
    destruct Hnew as [[Hw _]|(requested & _ & syms & written & _ & _ & _ & _ & _ & Hfail)];
      [done|].
    destruct Hnot. by apply Hfail. }
  split.
  - intros f Hf Hos. apply (Hheader f Hf). intros (ev & _ & ->). by apply Hos.
  - intros f version before Hf Hbuild. apply (Hheader f Hf).
    destruct (build_failure_not_header basePath path_exists succeeds environ cpu_count
                version before) as (new' & _ & _ & Hnot).
    by apply Hnot.
Qed.

(** ** A build that succeeds *)

Lemma runs_bind {A B} (m : io A) (k : A → io B) log log1 log2 a b :
  runs m log log1 a → runs (k a) log1 log2 b → runs (m ≫= k) log log2 b.
Proof. unfold runs. intros Hm Hk. by rewrite io_bind_run, Hm. Qed.

Lemma runs_ret {A} (a : A) log : runs (mret a) log log a.
Proof. done. Qed.

Section all_succeed.
Context (basePath : string).
Context (path_exists : list event → string → bool).
Context (succeeds : list event → event → bool).
Context (Hsucceeds : ∀ log ev, succeeds log ev = true).

Lemma runs_perform ev log : runs (perform succeeds ev) log (log ++ [ev]) tt.
Proof. unfold runs, perform. by rewrite Hsucceeds. Qed.

Lemma runs_exists path log :
  runs (exists_ path_exists path) log log (path_exists log path).
Proof. done. Qed.

Lemma runs_when (b : bool) ev log :
  runs (when b (perform succeeds ev)) log (log ++ if b then [ev] else []) tt.
Proof. destruct b; [apply runs_perform|]. unfold runs. cbn. by rewrite app_nil_r. Qed.

Lemma runs_apply_patches glibcDir version log :
  runs (apply_patches_io basePath succeeds glibcDir version) log
    (log ++ ((λ patch, Exec (git_apply basePath patch) glibcDir None)
               <$> matching patches_table version)) tt.
Proof.
  unfold apply_patches_io. generalize patches_table. intros rules. revert log.
  induction rules as [|[patch [lo hi]] rules IH]; intros log.
  - unfold runs. cbn. by rewrite app_nil_r.
  - cbn [io_for]. eapply runs_bind; [apply runs_when|]. rewrite matching_cons.
    cbn [fst snd]. unfold in_window.
    destruct (Version_le lo version && Version_le version hi).
    + rewrite fmap_cons, (cons_middle _ log (_ <$> _)), app_assoc. apply IH.
    + rewrite app_nil_r. apply IH.
Qed.
End all_succeed.

(** X19. The steps of a build that succeeds.  When every command and file
    operation completes and the install folder of the version has no
    [build_succeeded] file, [get_glibc_binaries] does, in this order and
    nothing else: clone the sources unless they are there; reset, clean and
    check out the tag of the version; apply exactly the patches whose window
    contains the version, in table order; remove a build folder left over and
    create it anew, and the same for the install folder; run [configure] in
    the build folder with the environment of the build, then [make] and
    [make install]; and only then create the [build_succeeded] file.  It
    returns the install folder. *)
Theorem successful_build_steps
    (basePath : string) (path_exists : list event → string → bool)
    (succeeds : list event → event → bool) (environ : gmap string string)
    (cpu_count : Z) (version : Version) (log : list event) :
  let glibcDir := basePath +:+ "/glibc" in
  let buildDir := basePath +:+ "/builds/" +:+ Version_str version +:+ "/build" in
  let installDir := basePath +:+ "/builds/" +:+ Version_str version +:+ "/install" in
  let jobString := "-j" +:+ pretty cpu_count in
  let cloned :=
    log ++ (if path_exists log glibcDir then []
            else [Exec ["git"; "clone"; "git://sourceware.org/git/glibc.git"; glibcDir]
                    basePath None]) in
  let patched :=
    cloned ++ [Exec ["git"; "reset"; "--hard"; "HEAD"] glibcDir None;
               Exec ["git"; "clean"; "-dxf"] glibcDir None;
               Exec ["git"; "checkout"; Version_str version] glibcDir None]
           ++ ((λ patch, Exec (git_apply basePath patch) glibcDir None)
                 <$> matching patches_table version) in
  let build_made :=
    patched ++ (if path_exists patched buildDir then [Rmtree buildDir] else [])
            ++ [Makedirs buildDir] in
  let install_made :=
    build_made ++ (if path_exists build_made installDir then [Rmtree installDir] else [])
               ++ [Makedirs installDir] in
  (∀ log ev, succeeds log ev = true) →
  path_exists cloned (installDir +:+ "/build_succeeded") = false →
  get_glibc_binaries_io basePath path_exists succeeds environ cpu_count version log
  = (install_made
       ++ [Exec [glibcDir +:+ "/configure"; "--disable-werror"; "--disable-sanity-checks"]
             buildDir (Some (build_env environ version));
           Exec ["make"; jobString] buildDir None;
           Exec ["make"; "install_root=" +:+ installDir; "install"; jobString]
             buildDir None;
           Touch (installDir +:+ "/build_succeeded")],
     Done installDir).
Proof.
  intros glibcDir buildDir installDir jobString cloned patched build_made install_made
    Hsucceeds Hmarker.
  change (runs (get_glibc_binaries_io basePath path_exists succeeds environ cpu_count
                  version) log
            (install_made
               ++ [Exec [glibcDir +:+ "/configure"; "--disable-werror";
                         "--disable-sanity-checks"]
                     buildDir (Some (build_env environ version));
                   Exec ["make"; jobString] buildDir None;
                   Exec ["make"; "install_root=" +:+ installDir; "install"; jobString]
                     buildDir None;
                   Touch (installDir +:+ "/build_succeeded")]) installDir).
  unfold get_glibc_binaries_io.
  eapply runs_bind; [apply runs_exists|].
  eapply runs_bind.
  { assert (Hclone : ∀ ev, runs (when (negb (path_exists log glibcDir))
                                   (perform succeeds ev)) log
                             (log ++ if path_exists log glibcDir then [] else [ev]) tt).
    { intros ev. destruct (path_exists log glibcDir); cbn [negb].
      - unfold runs. cbn. by rewrite app_nil_r.
      - by apply runs_perform. }
    apply Hclone. }
  fold glibcDir cloned.
  eapply runs_bind; [apply runs_exists|].
  fold installDir. rewrite Hmarker. cbn [negb when].
  eapply runs_bind; [|apply runs_ret].
  eapply runs_bind; [by apply runs_perform|].
  eapply runs_bind; [by apply runs_perform|].
  eapply runs_bind; [by apply runs_perform|].
  eapply runs_bind; [by apply runs_apply_patches|].
  replace (((cloned ++ [Exec ["git"; "reset"; "--hard"; "HEAD"] glibcDir None])
              ++ [Exec ["git"; "clean"; "-dxf"] glibcDir None])
             ++ [Exec ["git"; "checkout"; Version_str version] glibcDir None])
    with (cloned ++ [Exec ["git"; "reset"; "--hard"; "HEAD"] glibcDir None;
                     Exec ["git"; "clean"; "-dxf"] glibcDir None;
                     Exec ["git"; "checkout"; Version_str version] glibcDir None])
    by (by rewrite <- !app_assoc).
  rewrite <- app_assoc. fold patched.
  eapply runs_bind; [apply runs_exists|].
  eapply runs_bind; [by apply runs_when|].
  eapply runs_bind; [by apply runs_perform|].
  fold buildDir. rewrite <- app_assoc. fold build_made.
  eapply runs_bind; [apply runs_exists|].
  eapply runs_bind; [by apply runs_when|].
  eapply runs_bind; [by apply runs_perform|].
  fold installDir. rewrite <- app_assoc. fold install_made.
  eapply runs_bind; [by apply runs_perform|].
  eapply runs_bind; [by apply runs_perform|].
  eapply runs_bind; [by apply runs_perform|].
  unfold runs, perform. rewrite Hsucceeds. by rewrite <- !app_assoc.
Qed.

Lemma successful_build_steps_witness :
  (∀ (log : list event) (ev : event), (λ _ _, true) log ev = true) ∧
  get_glibc_binaries_io "/src" (λ _ path, String.eqb path "/src/glibc") (λ _ _, true)
    ∅ 8 (V2 2 16) []
  = ([Exec ["git"; "reset"; "--hard"; "HEAD"] "/src/glibc" None;
      Exec ["git"; "clean"; "-dxf"] "/src/glibc" None;
      Exec ["git"; "checkout"; "glibc-2.16"] "/src/glibc" None;
      Exec ["git"; "apply"; "/src/patches/fix_obstack_compat.diff"] "/src/glibc" None;
      Exec ["git"; "apply"; "/src/patches/fix_bad_version_checks.diff"] "/src/glibc" None;
      Exec ["git"; "apply"; "/src/patches/hvsep-remove.diff"] "/src/glibc" None;
      Makedirs "/src/builds/glibc-2.16/build";
      Makedirs "/src/builds/glibc-2.16/install";
      Exec ["/src/glibc/configure"; "--disable-werror"; "--disable-sanity-checks"]
        "/src/builds/glibc-2.16/build"
        (Some (<["LDFLAGS" := "-no-pie"]>
                 (<["CFLAGS" := "-U_FORTIFY_SOURCE -O2 -fno-stack-protector"]>
                    (<["CC" := "gcc"]> ∅))));
      Exec ["make"; "-j8"] "/src/builds/glibc-2.16/build" None;
      Exec ["make"; "install_root=/src/builds/glibc-2.16/install"; "install"; "-j8"]
        "/src/builds/glibc-2.16/build" None;
      Touch "/src/builds/glibc-2.16/install/build_succeeded"],
     Done "/src/builds/glibc-2.16/install").
Proof.
  split; [reflexivity|].
  etransitivity;
    [exact (successful_build_steps "/src" (λ _ path, String.eqb path "/src/glibc")
              (λ _ _, true) ∅ 8 (V2 2 16) [] (λ _ _, eq_refl) eq_refl)|].
  vm_compute. reflexivity.
Defined.
